(** * xmltokenizer: a shallow embedding of [tokenizer.go] and its properties

    The Go source is translated function by function.  Go [int] values are
    modelled as [Z] (all of them are buffer lengths and indices, far below
    the 64-bit range), byte slices as [list byte], a slice that may be [nil]
    as [option (list byte)], and the tokenizer struct as a record that is
    threaded through every method.  A run-time panic (index or slice bounds
    out of range) is an explicit outcome. *)

From Stdlib Require Import ZArith List Lia Bool String.
From Stdlib Require Import Strings.Byte.
Import ListNotations.
Local Open Scope Z_scope.

(** ** Outcomes of Go code *)

Inductive res (A : Type) : Type :=
| Ok (a : A)
| Panic
| OutOfFuel.
Arguments Ok {A} a.
Arguments Panic {A}.
Arguments OutOfFuel {A}.

Definition bind {A B : Type} (m : res A) (f : A -> res B) : res B :=
  match m with
  | Ok a => f a
  | Panic => Panic
  | OutOfFuel => OutOfFuel
  end.

Notation "'do' x <- m ; f" := (bind m (fun x => f))
  (at level 10, x pattern, m at level 100, f at level 200).

(** ** Bytes and slices *)

Definition bytes := list byte.

(** A slice value that may be [nil]: [None] is Go's [nil], [Some []] is an
    empty slice that is not [nil]. *)
Definition gbytes := option bytes.

Definition str (s : string) : bytes := list_byte_of_string s.

Definition LT : byte := "<"%byte.
Definition GT : byte := ">"%byte.
Definition QUOTE : byte := x22.
Definition QMARK : byte := "?"%byte.
Definition BANG : byte := "!"%byte.
Definition DASH : byte := "-"%byte.
Definition SLASH : byte := "/"%byte.
Definition COLON : byte := ":"%byte.
Definition EQUALS : byte := "="%byte.
Definition SP : byte := " "%byte.
Definition TAB : byte := x09.
Definition LF : byte := x0a.
Definition CR : byte := x0d.

Definition len {A : Type} (b : list A) : Z := Z.of_nat (List.length b).

Definition glen (b : gbytes) : Z :=
  match b with
  | None => 0
  | Some l => len l
  end.

(** [b[i]] *)
Definition index (b : bytes) (i : Z) : res byte :=
  if (0 <=? i) && (i <? len b)
  then match nth_error b (Z.to_nat i) with
       | Some c => Ok c
       | None => Panic
       end
  else Panic.

(** [b[lo:hi]]; every sub-slice the tokenizer takes with an explicit upper
    bound stays within the length of [b]. *)
Definition slice (b : bytes) (lo hi : Z) : res bytes :=
  if (0 <=? lo) && (lo <=? hi) && (hi <=? len b)
  then Ok (firstn (Z.to_nat (hi - lo)) (skipn (Z.to_nat lo) b))
  else Panic.

(** [b[lo:]] *)
Definition sliceFrom (b : bytes) (lo : Z) : res bytes := slice b lo (len b).

(** [b[:hi]] *)
Definition sliceTo (b : bytes) (hi : Z) : res bytes := slice b 0 hi.

(** [bytes.IndexByte] *)
Fixpoint IndexByte (b : bytes) (c : byte) : Z :=
  match b with
  | [] => -1
  | x :: b' =>
      if Byte.eqb x c then 0
      else let r := IndexByte b' c in
           if r <? 0 then -1 else r + 1
  end.

Definition mem (c : byte) (chars : bytes) : bool :=
  existsb (Byte.eqb c) chars.

(** [bytes.IndexAny] for a set of ASCII characters *)
Fixpoint IndexAny (b : bytes) (chars : bytes) : Z :=
  match b with
  | [] => -1
  | x :: b' =>
      if mem x chars then 0
      else let r := IndexAny b' chars in
           if r <? 0 then -1 else r + 1
  end.

(** [bytes.Count] with a one-byte separator *)
Fixpoint Count (b : bytes) (c : byte) : Z :=
  match b with
  | [] => 0
  | x :: b' => (if Byte.eqb x c then 1 else 0) + Count b' c
  end.

(** [string(b) == s] *)
Definition bytes_eqb (a b : bytes) : bool :=
  if list_eq_dec byte_eq_dec a b then true else false.

(** ** trim *)

(** The loop of [trimPrefix]: the list is [b[i:]], the result is [start]. *)
Fixpoint trimPrefix_loop (l : bytes) (start : Z) : Z :=
  match l with
  | [] => start
  | c :: l' =>
      if Byte.eqb c CR then
        match l' with
        | c' :: l'' =>
            if Byte.eqb c' LF then trimPrefix_loop l'' (start + 2)
            else trimPrefix_loop l' start
        | [] => trimPrefix_loop l' start
        end
      else if Byte.eqb c LF || Byte.eqb c SP || Byte.eqb c TAB then
        trimPrefix_loop l' (start + 1)
      else start
  end.

Definition trimPrefix (b : bytes) : bytes :=
  skipn (Z.to_nat (trimPrefix_loop b 0)) b.

(** The loop of [trimSuffix]: [k] is [i + 1], the result is [end]. *)
Fixpoint trimSuffix_loop (b : bytes) (k : nat) (e : Z) : Z :=
  match k with
  | O => e
  | S i =>
      match nth_error b i with
      | None => e
      | Some c =>
          if Byte.eqb c LF then
            let e1 := e - 1 in
            let e2 :=
              if (Z.of_nat i - 1 >? 0) &&
                 match nth_error b (i - 1) with
                 | Some c' => Byte.eqb c' CR
                 | None => false
                 end
              then e1 - 1 else e1 in
            trimSuffix_loop b i e2
          else if Byte.eqb c SP || Byte.eqb c TAB then
            trimSuffix_loop b i (e - 1)
          else e
      end
  end.

Definition trimSuffix (b : bytes) : bytes :=
  firstn (Z.to_nat (trimSuffix_loop b (List.length b) (len b))) b.

Definition trim (b : bytes) : bytes := trimSuffix (trimPrefix b).

(** ** Errors *)

(** The error values the tokenizer can return.  [ErrBufferLimit] is the
    value built in [manageBuffer], which wraps
    [errAutoGrowBufferExceedMaxLimit]; [ErrBytePos] is the wrapping added by
    [Token]; [ErrRead] stands for a failure of the client's reader. *)
Inductive error : Type :=
| EOF
| ErrUnexpectedEOF
| ErrShortBuffer
| errAutoGrowBufferExceedMaxLimit
| ErrBufferLimit (growSize limit : Z)
| ErrRead (msg : string)
| ErrBytePos (n : Z) (e : error).

(** The error at the bottom of a chain of [%w] wrappings. *)
Fixpoint cause (e : error) : error :=
  match e with
  | ErrBufferLimit _ _ => errAutoGrowBufferExceedMaxLimit
  | ErrBytePos _ e' => cause e'
  | _ => e
  end.

Definition error_eqb (a b : error) : bool :=
  match a, b with
  | EOF, EOF => true
  | ErrUnexpectedEOF, ErrUnexpectedEOF => true
  | ErrShortBuffer, ErrShortBuffer => true
  | errAutoGrowBufferExceedMaxLimit, errAutoGrowBufferExceedMaxLimit => true
  | ErrRead m1, ErrRead m2 => String.eqb m1 m2
  | _, _ => false
  end.

(** [errors.Is] against one of the sentinel values. *)
Definition errors_Is (e target : error) : bool := error_eqb (cause e) target.

(** ** The reader *)

(** The client's [io.Reader], as [bytes.Reader] behaves: it hands out the
    bytes that are left, as many as the destination holds, and once they are
    used up it reports [rfinal] with no bytes ([io.EOF] for a reader that
    ends normally). *)
Record Reader : Type := {
  rdata : bytes;
  rfinal : error
}.

(** [io.ReadAtLeast(r, p, 1)] with [m = len(p)]: the bytes read, the error,
    and the reader afterwards. *)
Definition ReadAtLeast1 (r : Reader) (m : Z) : bytes * option error * Reader :=
  if m <? 1 then ([], Some ErrShortBuffer, r)
  else match rdata r with
       | [] => ([], Some (rfinal r), r)
       | _ =>
           let k := Z.to_nat m in
           (firstn k (rdata r), None,
            {| rdata := skipn k (rdata r); rfinal := rfinal r |})
       end.

(** ** Tokens *)

Record Name : Type := {
  Name_Prefix : gbytes;
  Name_Local : gbytes;
  Name_Full : gbytes
}.

Record Attr : Type := {
  Attr_Name : Name;
  Attr_Value : gbytes
}.

Record Token : Type := {
  Token_Name : Name;
  Token_Attrs : option (list Attr);
  Token_Data : gbytes;
  Token_SelfClosing : bool;
  Token_IsEndElement : bool
}.

Definition zeroName : Name :=
  {| Name_Prefix := None; Name_Local := None; Name_Full := None |}.

(** The zero value of [Token]. *)
Definition zeroToken : Token :=
  {| Token_Name := zeroName; Token_Attrs := None; Token_Data := None;
     Token_SelfClosing := false; Token_IsEndElement := false |}.

(** ** The tokenizer *)

Definition defaultReadBufferSize : Z := Z.shiftl 4 10.
Definition autoGrowBufferMaxLimitSize : Z := Z.shiftl 1000 10.
Definition defaultAttrsBufferSize : Z := 16.

Record options : Type := {
  readBufferSize : Z;
  opt_autoGrowBufferMaxLimitSize : Z;
  attrsBufferSize : Z
}.

Definition defaultOptions : options :=
  {| readBufferSize := defaultReadBufferSize;
     opt_autoGrowBufferMaxLimitSize := autoGrowBufferMaxLimitSize;
     attrsBufferSize := defaultAttrsBufferSize |}.

(** [buf] holds the bytes of the slice [t.buf] (its length is [len(t.buf)]);
    [spare] holds the bytes of its backing array between [len(t.buf)] and
    [cap(t.buf)]. *)
Record Tokenizer : Type := {
  r : Reader;
  n : Z;
  opts : options;
  buf : bytes;
  spare : bytes;
  cur : Z;
  err : option error;
  token : Token
}.

Definition cap (t : Tokenizer) : Z := len (buf t) + len (spare t).

Definition set_buf (t : Tokenizer) (b s : bytes) : Tokenizer :=
  {| r := r t; n := n t; opts := opts t; buf := b; spare := s;
     cur := cur t; err := err t; token := token t |}.

Definition set_cur (t : Tokenizer) (c : Z) : Tokenizer :=
  {| r := r t; n := n t; opts := opts t; buf := buf t; spare := spare t;
     cur := c; err := err t; token := token t |}.

Definition set_err (t : Tokenizer) (e : option error) : Tokenizer :=
  {| r := r t; n := n t; opts := opts t; buf := buf t; spare := spare t;
     cur := cur t; err := e; token := token t |}.

Definition set_token (t : Tokenizer) (k : Token) : Tokenizer :=
  {| r := r t; n := n t; opts := opts t; buf := buf t; spare := spare t;
     cur := cur t; err := err t; token := k |}.

Definition set_read (t : Tokenizer) (rd : Reader) (b s : bytes) (k : Z) : Tokenizer :=
  {| r := rd; n := n t + k; opts := opts t; buf := b; spare := s;
     cur := cur t; err := err t; token := token t |}.

(** ** Options *)

Definition Option : Type := options -> options.

Definition WithReadBufferSize (size : Z) : Option :=
  let size := if size <=? 0 then defaultReadBufferSize else size in
  fun o => {| readBufferSize := size;
              opt_autoGrowBufferMaxLimitSize := opt_autoGrowBufferMaxLimitSize o;
              attrsBufferSize := attrsBufferSize o |}.

Definition WithAutoGrowBufferMaxLimitSize (size : Z) : Option :=
  let size := if size <=? 0 then autoGrowBufferMaxLimitSize else size in
  fun o => {| readBufferSize := readBufferSize o;
              opt_autoGrowBufferMaxLimitSize := size;
              attrsBufferSize := attrsBufferSize o |}.

Definition WithAttrBufferSize (size : Z) : Option :=
  let size := if size <=? 0 then defaultAttrsBufferSize else size in
  fun o => {| readBufferSize := readBufferSize o;
              opt_autoGrowBufferMaxLimitSize := opt_autoGrowBufferMaxLimitSize o;
              attrsBufferSize := size |}.

(** The options [Reset] ends up with: the defaults, the given options
    applied in order, and the ceiling raised to the read size. *)
Definition resetOptions (os : list Option) : options :=
  let o := fold_left (fun o f => f o) os defaultOptions in
  if readBufferSize o >? opt_autoGrowBufferMaxLimitSize o
  then {| readBufferSize := readBufferSize o;
          opt_autoGrowBufferMaxLimitSize := readBufferSize o;
          attrsBufferSize := attrsBufferSize o |}
  else o.

Definition zeros (k : Z) : bytes := repeat x00 (Z.to_nat k).

(** [Reset]: the attribute list is kept when its capacity suffices (the model
    does not track that capacity: the list is emptied by [clearToken] before
    any use); the buffer is re-sliced to the read size when the backing array
    is large enough, and allocated anew otherwise. *)
Definition Reset (t : Tokenizer) (rd : Reader) (os : list Option) : res Tokenizer :=
  let o := resetOptions os in
  let attrs := match Token_Attrs (token t) with
               | Some l => Some l
               | None => Some []
               end in
  let tok := {| Token_Name := Token_Name (token t); Token_Attrs := attrs;
                Token_Data := Token_Data (token t);
                Token_SelfClosing := Token_SelfClosing (token t);
                Token_IsEndElement := Token_IsEndElement (token t) |} in
  let size := readBufferSize o in
  if cap t >=? size + defaultReadBufferSize then
    if 0 <=? size then
      let arr := buf t ++ spare t in
      Ok {| r := rd; n := 0; opts := o;
            buf := firstn (Z.to_nat size) arr; spare := skipn (Z.to_nat size) arr;
            cur := 0; err := None; token := tok |}
    else Panic
  else
    if 0 <=? size then
      Ok {| r := rd; n := 0; opts := o;
            buf := zeros size; spare := zeros defaultReadBufferSize;
            cur := 0; err := None; token := tok |}
    else Panic.

(** [new(Tokenizer)] *)
Definition zeroTokenizer : Tokenizer :=
  {| r := {| rdata := []; rfinal := EOF |}; n := 0;
     opts := {| readBufferSize := 0; opt_autoGrowBufferMaxLimitSize := 0;
                attrsBufferSize := 0 |};
     buf := []; spare := []; cur := 0; err := None; token := zeroToken |}.

Definition New (rd : Reader) (os : list Option) : res Tokenizer :=
  Reset zeroTokenizer rd os.

(** ** The growable buffer *)

Definition memmoveRemainingBytes (t : Tokenizer) (pivot : Z)
  : res (Z * Z * Tokenizer) :=
  if pivot =? 0 then Ok (cur t, len (buf t), t)
  else
    do tl <- sliceFrom (buf t) pivot;
    let k := List.length tl in
    let t1 := set_cur (set_buf t tl (skipn k (buf t) ++ spare t)) 0 in
    Ok (cur t1, len (buf t1), t1).

Definition manageBuffer (t : Tokenizer) : res (option error * Tokenizer) :=
  let growSize := len (buf t) + readBufferSize (opts t) in
  let start := len (buf t) in
  if growSize <=? cap t then
    (* grow by reslice *)
    do b1 <- slice (buf t ++ spare t) 0 growSize;
    do _ <- slice b1 start growSize;
    let '(data, e, rd) := ReadAtLeast1 (r t) (growSize - start) in
    let k := len data in
    Ok (e, set_read t rd (buf t ++ data) (skipn (Z.to_nat k) (spare t)) k)
  else
    (* grow by make new alloc *)
    if growSize >? opt_autoGrowBufferMaxLimitSize (opts t) then
      Ok (Some (ErrBufferLimit growSize (opt_autoGrowBufferMaxLimitSize (opts t))), t)
    else
      let '(data, e, rd) := ReadAtLeast1 (r t) (growSize - start) in
      let k := len data in
      Ok (e, set_read t rd (buf t ++ data) (zeros (growSize - start - k)) k).

(** ** The boundary scanner *)

(** [a && b] where evaluating [b] may panic. *)
Definition andr (a : bool) (b : res bool) : res bool :=
  if a then b else Ok false.

Definition index_is (b : bytes) (i : Z) (c : byte) : res bool :=
  do x <- index b i; Ok (Byte.eqb x c).

(** [findTokenEnd], with its loop variable [left] as an argument: the source
    function is the instance [left = pivot + 1]. *)
Fixpoint findTokenEnd_loop (fuel : nat) (b : bytes) (pivot left : Z) : res Z :=
  match fuel with
  | O => OutOfFuel
  | S fuel' =>
      do tl <- sliceFrom b left;
      let p := IndexByte tl GT in
      if p =? -1 then Ok (-1)
      else
        let right := left + p + 1 in
        let quoted :=
          do seg <- slice b left right;
          if Count seg QUOTE mod 2 =? 0 then Ok right
          else
            (* this > is within a quoted value, scan to closing quote *)
            do tl2 <- sliceFrom b right;
            let q := IndexByte tl2 QUOTE in
            if q =? -1 then Ok (-1)
            else findTokenEnd_loop fuel' b pivot (right + q + 1) in
        do c <- index b (pivot + 1);
        if Byte.eqb c QMARK then
          (* is a processing instruction *)
          do closed <- andr (right >=? pivot + 3) (index_is b (right - 2) QMARK);
          if closed then Ok right
          else findTokenEnd_loop fuel' b pivot right
        else if Byte.eqb c BANG then
          do comment <- andr (len b >? pivot + 4)
                          (do d1 <- index_is b (pivot + 2) DASH;
                           andr d1 (index_is b (pivot + 3) DASH));
          if comment then
            (* is a comment *)
            do closed <- andr (right >=? pivot + 6)
                           (do d1 <- index_is b (right - 3) DASH;
                            andr d1 (index_is b (right - 2) DASH));
            if closed then Ok right
            else findTokenEnd_loop fuel' b pivot right
          else
            (* is DOCTYPE, ENTITY etc *)
            do inner <- slice b (left + 1) (right - 1);
            let p2 := IndexByte inner LT in
            if negb (p2 =? -1) then
              do l <- findTokenEnd_loop fuel' b (left + p2 + 1) (left + p2 + 1 + 1);
              if l =? -1 then Ok (-1)
              else findTokenEnd_loop fuel' b pivot l
            else quoted
        else quoted
  end.

Definition findTokenEnd_fuel (b : bytes) : nat := S (List.length b).

Definition findTokenEnd (b : bytes) (pivot : Z) : res Z :=
  findTokenEnd_loop (findTokenEnd_fuel b) b pivot (pivot + 1).

Definition prefixCDATA : bytes := str "<![CDATA[".
Definition suffixCDATA : bytes := str "]]>".

(** [t.err = t.manageBuffer()] *)
Definition refill (t : Tokenizer) : res (option error * Tokenizer) :=
  do (e, t1) <- manageBuffer t;
  Ok (e, set_err t1 e).

(** The inner loop of [parseCharData], over [j], which matches
    [<![CDATA[] and then looks for []]>]. *)
Fixpoint parseCharData_cdata (fuel : nat) (t : Tokenizer) (pivot pos j k : Z)
  : res (Z * Z * Tokenizer) :=
  match fuel with
  | O => OutOfFuel
  | S fuel' =>
      do (stop, pivot, pos, j, t) <-
        (if j >=? len (buf t) then
           let prevLast := len (buf t) in
           do (pivot1, j1, t1) <- memmoveRemainingBytes t pivot;
           let pos1 := pos - (prevLast - len (buf t1)) in
           do (e, t2) <- refill t1;
           match e with
           | Some e' =>
               let t3 := if errors_Is e' EOF
                         then set_err t2 (Some ErrUnexpectedEOF) else t2 in
               Ok (true, pivot1, pos1, j1, t3)
           | None => Ok (false, pivot1, pos1, j1, t2)
           end
         else Ok (false, pivot, pos, j, t));
      if (stop : bool) then Ok (pivot, pos, t)
      else if k <? len prefixCDATA then
        do c <- index (buf t) j;
        do pk <- index prefixCDATA k;
        if negb (Byte.eqb c pk) then Ok (pivot, pos, t)
        else parseCharData_cdata fuel' t pivot pos (j + 1) (k + 1)
      else
        do c <- index (buf t) j;
        do found <- andr (Byte.eqb c GT)
                      (do s <- slice (buf t) (j - 2) (j + 1);
                       Ok (bytes_eqb s suffixCDATA));
        if found then Ok (pivot, j, t)
        else parseCharData_cdata fuel' t pivot pos (j + 1) k
  end.

(** The outer loop of [parseCharData], over [i], which looks for the next
    [<]. *)
Fixpoint parseCharData_loop (fuel : nat) (t : Tokenizer) (pivot pos i : Z)
  : res (Z * Z * Tokenizer) :=
  match fuel with
  | O => OutOfFuel
  | S fuel' =>
      do (stop, pivot, pos, i, t) <-
        (if i >=? len (buf t) then
           do (pivot1, i1, t1) <- memmoveRemainingBytes t pivot;
           let pos1 := i1 - 1 in
           do (e, t2) <- refill t1;
           match e with
           | Some _ => Ok (true, pivot1, pos1, i1, t2)
           | None => Ok (false, pivot1, pos1, i1, t2)
           end
         else Ok (false, pivot, pos, i, t));
      if (stop : bool) then Ok (pivot, pos, t)
      else
        do c <- index (buf t) i;
        if negb (Byte.eqb c LT) then parseCharData_loop fuel' t pivot pos (i + 1)
        else
          (* Might be in the form of <![CDATA[ CharData ]]> *)
          parseCharData_cdata fuel' t pivot (i - 1) (i + 1) 1
  end.

(** Every turn of the loops of [parseCharData] and [RawToken] moves on by a
    byte of the buffer or of the reader. *)
Definition scan_fuel (t : Tokenizer) : nat :=
  (List.length (buf t) + List.length (rdata (r t)) + 2)%nat.

Definition parseCharData (t : Tokenizer) (pivot pos : Z) : res (Z * Z * Tokenizer) :=
  parseCharData_loop (scan_fuel t) t pivot pos pos.

(** The first loop of [RawToken]: find opening [<].  The result is the
    pivot, or the error to return. *)
Fixpoint RawToken_open (fuel : nat) (t : Tokenizer) : res ((Z + error) * Tokenizer) :=
  match fuel with
  | O => OutOfFuel
  | S fuel' =>
      do tl <- sliceFrom (buf t) (cur t);
      let p := IndexByte tl LT in
      if p =? -1 then
        do (_, _, t1) <- memmoveRemainingBytes t (cur t);
        do (e, t2) <- refill t1;
        match e with
        | None => RawToken_open fuel' t2
        | Some e' => Ok (inr e', t2)
        end
      else Ok (inl (cur t + p), t)
  end.

(** The second loop of [RawToken]: find closing [>]. *)
Fixpoint RawToken_close (fuel : nat) (t : Tokenizer) (pivot : Z)
  : res (gbytes * option error * Tokenizer) :=
  match fuel with
  | O => OutOfFuel
  | S fuel' =>
      do pos <- findTokenEnd (buf t) pivot;
      if pos =? -1 then
        do (pivot1, pos1, t1) <- memmoveRemainingBytes t pivot;
        do (e, t2) <- refill t1;
        match e with
        | None => RawToken_close fuel' t2 pivot1
        | Some e' =>
            let e2 := if errors_Is e' EOF then ErrUnexpectedEOF else e' in
            let t3 := set_err t2 (Some e2) in
            do b <- slice (buf t3) pivot1 pos1;
            Ok (Some b, Some e2, t3)
        end
      else
        do c <- index (buf t) (pivot + 1);
        do (pivot1, pos1, t1) <-
          (if Byte.eqb c QMARK || Byte.eqb c BANG then Ok (pivot, pos, t)
           else
             do (pivot1, pos1, t1) <- parseCharData t pivot pos;
             Ok (pivot1, pos1 + 1, t1));
        do b <- slice (buf t1) pivot1 pos1;
        Ok (Some (trim b), None, set_cur t1 pos1)
  end.

Definition RawToken (t : Tokenizer) : res (gbytes * option error * Tokenizer) :=
  match err t with
  | Some e => Ok (None, Some e, t)
  | None =>
      do (o, t1) <- RawToken_open (scan_fuel t) t;
      match o with
      | inr e => Ok (None, Some e, t1)
      | inl pivot => RawToken_close (scan_fuel t1) t1 pivot
      end
  end.

(** ** The token decomposer *)

Definition set_Name (k : Token) (nm : Name) : Token :=
  {| Token_Name := nm; Token_Attrs := Token_Attrs k; Token_Data := Token_Data k;
     Token_SelfClosing := Token_SelfClosing k;
     Token_IsEndElement := Token_IsEndElement k |}.

Definition set_Attrs (k : Token) (a : option (list Attr)) : Token :=
  {| Token_Name := Token_Name k; Token_Attrs := a; Token_Data := Token_Data k;
     Token_SelfClosing := Token_SelfClosing k;
     Token_IsEndElement := Token_IsEndElement k |}.

Definition set_Data (k : Token) (d : gbytes) : Token :=
  {| Token_Name := Token_Name k; Token_Attrs := Token_Attrs k; Token_Data := d;
     Token_SelfClosing := Token_SelfClosing k;
     Token_IsEndElement := Token_IsEndElement k |}.

Definition set_SelfClosing (k : Token) (s : bool) : Token :=
  {| Token_Name := Token_Name k; Token_Attrs := Token_Attrs k;
     Token_Data := Token_Data k; Token_SelfClosing := s;
     Token_IsEndElement := Token_IsEndElement k |}.

Definition set_IsEndElement (k : Token) (s : bool) : Token :=
  {| Token_Name := Token_Name k; Token_Attrs := Token_Attrs k;
     Token_Data := Token_Data k; Token_SelfClosing := Token_SelfClosing k;
     Token_IsEndElement := s |}.

Definition clearToken (k : Token) : Token :=
  {| Token_Name := zeroName;
     Token_Attrs := match Token_Attrs k with
                    | Some _ => Some []
                    | None => None
                    end;
     Token_Data := None;
     Token_SelfClosing := false;
     Token_IsEndElement := false |}.

(** [consumeNonTagIdentifier] consumes identifier starts with [<?] or [<!],
    make it raw data. *)
Definition consumeNonTagIdentifier (k : Token) (b : gbytes) : gbytes * Token :=
  match b with
  | None => (b, k)
  | Some l =>
      if (len l <? 2) ||
         (negb (bytes_eqb (firstn 2 l) (str "<?")) &&
          negb (bytes_eqb (firstn 2 l) (str "<!")))
      then (b, k)
      else (None, set_SelfClosing (set_Data k b) true)
  end.

(** The split of a name around its first colon: prefix and local part. *)
Definition splitName (full : bytes) : Name :=
  let pos := IndexByte full COLON in
  if pos =? -1 then
    {| Name_Prefix := None; Name_Local := Some full; Name_Full := Some full |}
  else
    {| Name_Prefix := Some (firstn (Z.to_nat pos) full);
       Name_Local := Some (skipn (Z.to_nat (pos + 1)) full);
       Name_Full := Some full |}.

Definition nameEnd : bytes := [GT; SP; TAB; CR; LF].

Definition consumeTagName (k : Token) (b : bytes) : res (bytes * Token) :=
  do b <- sliceFrom b 1;
  do c0 <- index b 0;
  do (b, k) <-
    (if Byte.eqb c0 SLASH then
       do b' <- sliceFrom b 1; Ok (b', set_IsEndElement k true)
     else Ok (b, k));
  let pos := IndexAny b nameEnd in
  do back <-
    (do c <- index_is b pos GT;
     andr c (andr (len b >? 1) (index_is b (pos - 1) SLASH)));
  let pos := if (back : bool) then pos - 1 else pos in
  do nm <- sliceTo b pos;
  do b <- sliceFrom b pos;
  Ok (b, set_Name k (splitName (trim nm))).

Definition attrEnd : bytes := [EQUALS; GT].

Definition appendAttr (k : Token) (a : Attr) : Token :=
  set_Attrs k (Some (match Token_Attrs k with
                     | Some l => l ++ [a]
                     | None => [a]
                     end)).

Fixpoint consumeAttrs_loop (fuel : nat) (k : Token) (b : bytes) : res (bytes * Token) :=
  match fuel with
  | O => OutOfFuel
  | S fuel' =>
      let pos := IndexAny b attrEnd in
      do c <- index b pos;
      if Byte.eqb c GT then
        do sc <- andr (pos >? 0) (index_is b (pos - 1) SLASH);
        let k := if (sc : bool) then set_SelfClosing k true else k in
        do b' <- sliceFrom b (pos + 1);
        Ok (b', k)
      else
        do full0 <- sliceTo b pos;
        let full := trim full0 in
        do b <- sliceFrom b (pos + 1);
        let pos := IndexByte b QUOTE in
        do tl <- sliceFrom b (pos + 1);
        let width := IndexByte tl QUOTE in
        do value <- slice b (pos + 1) (pos + width + 1);
        do b <- sliceFrom b (pos + width + 2);
        consumeAttrs_loop fuel'
          (appendAttr k {| Attr_Name := splitName full; Attr_Value := Some value |}) b
  end.

Definition consumeAttrs (k : Token) (b : bytes) : res (bytes * Token) :=
  consumeAttrs_loop (S (List.length b)) k b.

Definition consumeCharData (k : Token) (b : bytes) : Token :=
  let b := trimPrefix b in
  let b :=
    if (len b >=? len prefixCDATA) &&
       bytes_eqb (firstn (List.length prefixCDATA) b) prefixCDATA
    then skipn (List.length prefixCDATA) b else b in
  let e := len b - len suffixCDATA in
  let b :=
    if (e >=? 0) && bytes_eqb (skipn (Z.to_nat e) b) suffixCDATA
    then firstn (Z.to_nat e) b else b in
  set_Data k (Some (trim b)).

(** ** Token *)

Definition Token_ (t : Tokenizer) : res (Token * option error * Tokenizer) :=
  match err t with
  | Some e => Ok (zeroToken, Some e, t)
  | None =>
      do (b, e, t) <- RawToken t;
      let wrapped :=
        match e with
        | Some e' => Some (if negb (errors_Is e' EOF) then ErrBytePos (n t) e' else e')
        | None => None
        end in
      let early :=
        match wrapped with
        | Some e' => (glen b =? 0) || errors_Is e' ErrUnexpectedEOF
        | None => false
        end in
      if early then Ok (zeroToken, wrapped, t)
      else
        let t := match wrapped with
                 | Some e' => set_err t (Some e')
                 | None => t
                 end in
        let k := clearToken (token t) in
        let (b, k) := consumeNonTagIdentifier k b in
        do k <-
          (if glen b >? 0 then
             match b with
             | Some l =>
                 do (l, k) <- consumeTagName k l;
                 do (l, k) <- consumeAttrs k l;
                 Ok (consumeCharData k l)
             | None => Ok k
             end
           else Ok k);
        let t := set_token t k in
        let k := if len (match Token_Attrs k with Some l => l | None => [] end) =? 0
                 then set_Attrs k None else k in
        let k := if glen (Token_Data k) =? 0 then set_Data k None else k in
        Ok (k, None, t)
  end.

(** ** Driving the tokenizer to the end of its input *)

(** Successive calls of [Token] until one returns an error: the tokens
    returned and that error. *)
Fixpoint tokens_loop (fuel : nat) (t : Tokenizer) : res (list Token * error) :=
  match fuel with
  | O => OutOfFuel
  | S fuel' =>
      do (k, e, t1) <- Token_ t;
      match e with
      | Some e' => Ok ([], e')
      | None => do (ks, e') <- tokens_loop fuel' t1; Ok (k :: ks, e')
      end
  end.

Definition tokens (t : Tokenizer) : res (list Token * error) :=
  tokens_loop (scan_fuel t) t.

(** Successive calls of [RawToken] until one returns an error: the spans
    returned with no error, then the last span and that error. *)
Fixpoint rawTokens_loop (fuel : nat) (t : Tokenizer) : res (list bytes * (gbytes * error)) :=
  match fuel with
  | O => OutOfFuel
  | S fuel' =>
      do (b, e, t1) <- RawToken t;
      match e with
      | Some e' => Ok ([], (b, e'))
      | None =>
          do (bs, l) <- rawTokens_loop fuel' t1;
          Ok (match b with Some x => x | None => [] end :: bs, l)
      end
  end.

Definition rawTokens (t : Tokenizer) : res (list bytes * (gbytes * error)) :=
  rawTokens_loop (scan_fuel t) t.

(** A tokenizer over the bytes [input], made by [New] with the options
    [os]. *)
Definition tokenizerOf (input : bytes) (os : list Option) : res Tokenizer :=
  New {| rdata := input; rfinal := EOF |} os.

Definition tokenize (input : bytes) (os : list Option) : res (list Token * error) :=
  do t <- tokenizerOf input os; tokens t.

Definition rawTokenize (input : bytes) (os : list Option) : res (list bytes * (gbytes * error)) :=
  do t <- tokenizerOf input os; rawTokens t.

(** * Properties *)

(** ** Basic facts about results, lengths and slices *)

Lemma len_nonneg {A : Type} (l : list A) : 0 <= len l.
Proof. unfold len. lia. Qed.

Lemma len_app {A : Type} (l1 l2 : list A) : len (l1 ++ l2) = len l1 + len l2.
Proof. unfold len. rewrite length_app. lia. Qed.

Lemma len_nil {A : Type} : len (@nil A) = 0.
Proof. reflexivity. Qed.

Lemma len_cons {A : Type} (x : A) (l : list A) : len (x :: l) = 1 + len l.
Proof. unfold len. simpl List.length. lia. Qed.

Lemma len_zero_nil {A : Type} (l : list A) : len l = 0 -> l = [].
Proof. destruct l; [reflexivity | rewrite len_cons; pose proof (len_nonneg l); lia]. Qed.

Lemma bind_Ok {A B : Type} (m : res A) (f : A -> res B) (b : B) :
  bind m f = Ok b -> exists a, m = Ok a /\ f a = Ok b.
Proof. destruct m; simpl; intros H; try discriminate. eauto. Qed.

Lemma bytes_eqb_eq (a b : bytes) : bytes_eqb a b = true <-> a = b.
Proof. unfold bytes_eqb. destruct (list_eq_dec byte_eq_dec a b); split; congruence. Qed.

Lemma byte_eqb_eq (a b : byte) : Byte.eqb a b = true <-> a = b.
Proof. split; [apply byte_dec_bl | apply byte_dec_lb]. Qed.

Lemma byte_eqb_refl (a : byte) : Byte.eqb a a = true.
Proof. apply byte_dec_lb. reflexivity. Qed.

Lemma byte_eqb_neq (a b : byte) : Byte.eqb a b = false <-> a <> b.
Proof.
  split.
  - apply eqb_false.
  - intros H. destruct (Byte.eqb a b) eqn:E; [|reflexivity].
    apply byte_dec_bl in E. contradiction.
Qed.

(** ** Options (C10) *)

(** The options a client can build: the three constructors of the package,
    each at any [int]. *)
Inductive configured : Option -> Prop :=
| configured_read (size : Z) : configured (WithReadBufferSize size)
| configured_limit (size : Z) : configured (WithAutoGrowBufferMaxLimitSize size)
| configured_attrs (size : Z) : configured (WithAttrBufferSize size).

Definition positive_options (o : options) : Prop :=
  0 < readBufferSize o /\ 0 < opt_autoGrowBufferMaxLimitSize o /\ 0 < attrsBufferSize o.

Lemma configured_positive (f : Option) (o : options) :
  configured f -> positive_options o -> positive_options (f o).
Proof.
  intros Hf (Hr & Hl & Ha). destruct Hf as [size | size | size];
    unfold WithReadBufferSize, WithAutoGrowBufferMaxLimitSize, WithAttrBufferSize,
      positive_options; simpl;
    destruct (size <=? 0) eqn:E; try apply Z.leb_gt in E;
    repeat split; try assumption; reflexivity.
Qed.

Lemma fold_configured_positive (os : list Option) (o : options) :
  Forall configured os -> positive_options o ->
  positive_options (fold_left (fun o f => f o) os o).
Proof.
  intros H. revert o. induction H as [| f os Hf _ IH]; intros o Ho; simpl.
  - exact Ho.
  - apply IH. apply configured_positive; assumption.
Qed.

Lemma resetOptions_positive (os : list Option) :
  Forall configured os -> positive_options (resetOptions os).
Proof.
  intros H. unfold resetOptions.
  assert (Hp : positive_options (fold_left (fun o f => f o) os defaultOptions)).
  { apply fold_configured_positive; [exact H |].
    unfold positive_options, defaultOptions; simpl. repeat split; reflexivity. }
  destruct Hp as (Hr & Hl & Ha).
  destruct (_ >? _); unfold positive_options; simpl; repeat split; assumption.
Qed.

Lemma Reset_opts (t t' : Tokenizer) (rd : Reader) (os : list Option) :
  Reset t rd os = Ok t' -> opts t' = resetOptions os.
Proof.
  unfold Reset. intros H.
  destruct (cap t >=? _); destruct (0 <=? _); inversion H; reflexivity.
Qed.

(** C10. A size that is zero or negative makes each of the three options
    store the package default (4096, 1024000 and 16) in place of it, and a
    tokenizer made by [New] or re-initialised by [Reset] with any such
    options has a positive read buffer size, buffer ceiling and attribute
    capacity. *)
Theorem C10_nonpositive_sizes_default (size : Z) (Hsize : size <= 0) :
  (forall o, readBufferSize (WithReadBufferSize size o) = 4096) /\
  (forall o, opt_autoGrowBufferMaxLimitSize (WithAutoGrowBufferMaxLimitSize size o) = 1024000) /\
  (forall o, attrsBufferSize (WithAttrBufferSize size o) = 16) /\
  (forall t rd os t', Forall configured os -> Reset t rd os = Ok t' ->
     positive_options (opts t')) /\
  (forall rd os t', Forall configured os -> New rd os = Ok t' ->
     positive_options (opts t')).
Proof.
  apply Z.leb_le in Hsize.
  split; [| split; [| split; [| split]]].
  - intros o. unfold WithReadBufferSize. rewrite Hsize. reflexivity.
  - intros o. unfold WithAutoGrowBufferMaxLimitSize. rewrite Hsize. reflexivity.
  - intros o. unfold WithAttrBufferSize. rewrite Hsize. reflexivity.
  - intros t rd os t' Hos HR. rewrite (Reset_opts _ _ _ _ HR).
    apply resetOptions_positive. exact Hos.
  - intros rd os t' Hos HR. unfold New in HR. rewrite (Reset_opts _ _ _ _ HR).
    apply resetOptions_positive. exact Hos.
Qed.

Lemma C10_nonpositive_sizes_default_witness :
  -5 <= 0 /\
  readBufferSize (WithReadBufferSize (-5) defaultOptions) = 4096 /\
  opt_autoGrowBufferMaxLimitSize (WithAutoGrowBufferMaxLimitSize (-5) defaultOptions) = 1024000 /\
  attrsBufferSize (WithAttrBufferSize (-5) defaultOptions) = 16.
Proof.
  assert (H : -5 <= 0) by lia.
  split; [exact H |].
  destruct (C10_nonpositive_sizes_default (-5) H) as (H1 & H2 & H3 & _).
  split; [apply H1 | split; [apply H2 | apply H3]].
Defined.

(** ** The shape of returned tokens (C9) *)

(** What [Token] does to its copy of the shared token before returning it. *)
Definition normalized (k : Token) : Token :=
  let k := if len (match Token_Attrs k with Some l => l | None => [] end) =? 0
           then set_Attrs k None else k in
  if glen (Token_Data k) =? 0 then set_Data k None else k.

Lemma normalized_no_empty (k : Token) :
  Token_Attrs (normalized k) <> Some [] /\ Token_Data (normalized k) <> Some [].
Proof.
  unfold normalized.
  destruct (Token_Attrs k) as [[| a l] |] eqn:EA;
    destruct (Token_Data k) as [[| d ds] |] eqn:ED;
    simpl; rewrite ?EA, ?ED; simpl; rewrite ?EA, ?ED;
    try (split; congruence);
    try (rewrite !len_cons;
         repeat match goal with
                | |- context [1 + len ?x =? 0] =>
                    let E := fresh in
                    destruct (1 + len x =? 0) eqn:E;
                    [apply Z.eqb_eq in E; pose proof (len_nonneg x); lia |]
                end;
         simpl; rewrite ?EA, ?ED; split; congruence).
Qed.

Lemma Token_ok_normalized (t t' : Tokenizer) (k : Token) :
  Token_ t = Ok (k, None, t') -> exists k0, k = normalized k0.
Proof.
  unfold Token_. destruct (err t); [discriminate |].
  intros H. apply bind_Ok in H. destruct H as (((b & e) & t1) & _ & H).
  destruct e as [e |]; simpl in H.
  - destruct (_ || _); [discriminate |].
    destruct (consumeNonTagIdentifier _ b) as (b' & k1).
    apply bind_Ok in H. destruct H as (k2 & _ & H).
    inversion H. exists k2. reflexivity.
  - destruct (consumeNonTagIdentifier _ b) as (b' & k1).
    apply bind_Ok in H. destruct H as (k2 & _ & H).
    inversion H. exists k2. reflexivity.
Qed.

(** C9. A token that [Token] returns with a nil error never carries an
    attribute list or a data slice that is empty without being nil: with no
    attribute [Attrs] is nil, with no character data [Data] is nil. *)
Theorem C9_empty_fields_are_nil (t t' : Tokenizer) (k : Token)
  (H : Token_ t = Ok (k, None, t')) :
  Token_Attrs k <> Some [] /\ Token_Data k <> Some [] /\
  (len (match Token_Attrs k with Some l => l | None => [] end) = 0 ->
   Token_Attrs k = None) /\
  (glen (Token_Data k) = 0 -> Token_Data k = None).
Proof.
  destruct (Token_ok_normalized _ _ _ H) as (k0 & ->).
  destruct (normalized_no_empty k0) as (HA & HD).
  split; [exact HA | split; [exact HD | split]].
  - destruct (Token_Attrs (normalized k0)) as [l |]; [| reflexivity].
    intros Hl. apply len_zero_nil in Hl. subst l. contradiction.
  - destruct (Token_Data (normalized k0)) as [l |]; [| reflexivity].
    simpl. intros Hl. apply len_zero_nil in Hl. subst l. contradiction.
Qed.

(** A tokenizer over [input] made by [New], and the first call of [Token] on
    a tokenizer, for use at concrete inputs. *)
Definition freshTokenizer (input : bytes) (os : list Option) : Tokenizer :=
  match tokenizerOf input os with
  | Ok t => t
  | _ => zeroTokenizer
  end.

Definition tokenOf (t : Tokenizer) : Token :=
  match Token_ t with
  | Ok (k, _, _) => k
  | _ => zeroToken
  end.

Definition afterToken (t : Tokenizer) : Tokenizer :=
  match Token_ t with
  | Ok (_, _, t') => t'
  | _ => t
  end.

Definition afterRawToken (t : Tokenizer) : Tokenizer :=
  match RawToken t with
  | Ok (_, _, t') => t'
  | _ => t
  end.

Lemma C9_empty_fields_are_nil_witness :
  let t := freshTokenizer (str "<a></a>") [WithReadBufferSize 1] in
  Token_ t = Ok (tokenOf t, None, afterToken t) /\
  Token_Attrs (tokenOf t) <> Some [] /\ Token_Data (tokenOf t) <> Some [].
Proof.
  intros t.
  assert (H : Token_ t = Ok (tokenOf t, None, afterToken t)) by (vm_compute; reflexivity).
  split; [exact H |].
  destruct (C9_empty_fields_are_nil t (afterToken t) (tokenOf t) H) as (HA & HD & _).
  split; [exact HA | exact HD].
Defined.

(** ** Sticky errors (C4) *)

Inductive call : Type := CallToken | CallRawToken.

Inductive outcome : Type :=
| TokenOut (k : Token) (e : option error)
| RawOut (b : gbytes) (e : option error).

Definition outcome_err (o : outcome) : option error :=
  match o with
  | TokenOut _ e => e
  | RawOut _ e => e
  end.

Definition perform (c : call) (t : Tokenizer) : res (outcome * Tokenizer) :=
  match c with
  | CallToken => do (k, e, t') <- Token_ t; Ok (TokenOut k e, t')
  | CallRawToken => do (b, e, t') <- RawToken t; Ok (RawOut b e, t')
  end.

Fixpoint perform_all (cs : list call) (t : Tokenizer) : res (list outcome * Tokenizer) :=
  match cs with
  | [] => Ok ([], t)
  | c :: cs' =>
      do (o, t1) <- perform c t;
      do (os, t2) <- perform_all cs' t1;
      Ok (o :: os, t2)
  end.

(** What a call returns once an error is stored: no token or span, and the
    stored error. *)
Definition stuck (e : error) (c : call) : outcome :=
  match c with
  | CallToken => TokenOut zeroToken (Some e)
  | CallRawToken => RawOut None (Some e)
  end.

Lemma refill_err (t t' : Tokenizer) (e : option error) :
  refill t = Ok (e, t') -> err t' = e.
Proof.
  unfold refill. intros H. apply bind_Ok in H.
  destruct H as ((e1 & t1) & _ & H). inversion H. reflexivity.
Qed.

Lemma RawToken_open_err (fuel : nat) (t t' : Tokenizer) (e : error) :
  RawToken_open fuel t = Ok (inr e, t') -> err t' = Some e.
Proof.
  revert t. induction fuel as [| fuel IH]; intros t H; simpl in H; [discriminate |].
  apply bind_Ok in H. destruct H as (tl & _ & H).
  destruct (IndexByte tl LT =? -1); [| inversion H].
  apply bind_Ok in H. destruct H as (((p1 & p2) & t1) & _ & H).
  apply bind_Ok in H. destruct H as ((e1 & t2) & Hr & H).
  destruct e1 as [e1 |].
  - inversion H; subst. apply (refill_err _ _ _ Hr).
  - apply (IH _ H).
Qed.

Lemma RawToken_close_err (fuel : nat) (t t' : Tokenizer) (pivot : Z)
  (b : gbytes) (e : error) :
  RawToken_close fuel t pivot = Ok (b, Some e, t') -> err t' = Some e.
Proof.
  revert t pivot. induction fuel as [| fuel IH]; intros t pivot H; simpl in H;
    [discriminate |].
  apply bind_Ok in H. destruct H as (pos & _ & H).
  destruct (pos =? -1).
  - apply bind_Ok in H. destruct H as (((p1 & p2) & t1) & _ & H).
    apply bind_Ok in H. destruct H as ((e1 & t2) & Hr & H).
    destruct e1 as [e1 |].
    + apply bind_Ok in H. destruct H as (sl & _ & H). inversion H; subst. reflexivity.
    + apply (IH _ _ H).
  - apply bind_Ok in H. destruct H as (c & _ & H).
    apply bind_Ok in H. destruct H as (((p1 & p2) & t1) & _ & H).
    apply bind_Ok in H. destruct H as (sl & _ & H). inversion H.
Qed.

Lemma RawToken_err (t t' : Tokenizer) (b : gbytes) (e : error) :
  RawToken t = Ok (b, Some e, t') -> err t' = Some e.
Proof.
  unfold RawToken. destruct (err t) as [e0 |] eqn:E.
  - intros H. inversion H; subst. exact E.
  - intros H. apply bind_Ok in H. destruct H as ((o & t1) & Ho & H).
    destruct o as [pivot | e1].
    + apply (RawToken_close_err _ _ _ _ _ _ H).
    + inversion H; subst. apply (RawToken_open_err _ _ _ _ Ho).
Qed.

Lemma Token_err (t t' : Tokenizer) (k : Token) (e : error) :
  Token_ t = Ok (k, Some e, t') ->
  exists e0, err t' = Some e0 /\ (e = e0 \/ e = ErrBytePos (n t') e0).
Proof.
  unfold Token_. destruct (err t) as [e0 |] eqn:E.
  - intros H. inversion H; subst. exists e. split; [exact E | left; reflexivity].
  - intros H. apply bind_Ok in H. destruct H as (((b & e1) & t1) & HR & H).
    destruct e1 as [e1 |]; simpl in H.
    + destruct (_ || _).
      * inversion H; subst. exists e1. split; [apply (RawToken_err _ _ _ _ HR) |].
        destruct (errors_Is e1 EOF); simpl; [left | right]; reflexivity.
      * destruct (consumeNonTagIdentifier _ b) as (b' & k1).
        apply bind_Ok in H. destruct H as (k2 & _ & H). inversion H.
    + destruct (consumeNonTagIdentifier _ b) as (b' & k1).
      apply bind_Ok in H. destruct H as (k2 & _ & H). inversion H.
Qed.

Lemma perform_stuck (t : Tokenizer) (e : error) (c : call) :
  err t = Some e -> perform c t = Ok (stuck e c, t).
Proof.
  intros H. destruct c; unfold perform, Token_, RawToken; rewrite H; reflexivity.
Qed.

Lemma perform_all_stuck (t : Tokenizer) (e : error) (cs : list call) :
  err t = Some e -> perform_all cs t = Ok (map (stuck e) cs, t).
Proof.
  intros H. induction cs as [| c cs IH]; simpl; [reflexivity |].
  rewrite (perform_stuck _ _ _ H). simpl. rewrite IH. reflexivity.
Qed.

(** C4. When a call of [Token] or [RawToken] returns an error [e], the
    tokenizer holds a stored error [e0]: [e] itself, or for [Token] the error
    that [e] wraps with the byte position; plain end-of-stream is stored as
    itself.  Every later sequence of calls, in any order, then returns [e0]
    each time with no token and no span, leaves the tokenizer as it is
    (nothing is read, the cursor stays), and does not panic. *)
Theorem C4_sticky_error (c : call) (t t' : Tokenizer) (o : outcome) (e : error)
  (Hcall : perform c t = Ok (o, t')) (Herr : outcome_err o = Some e) :
  exists e0,
    err t' = Some e0 /\
    (e = e0 \/ e = ErrBytePos (n t') e0) /\
    cause e0 = cause e /\
    (e = EOF -> e0 = EOF) /\
    forall cs, perform_all cs t' = Ok (map (stuck e0) cs, t').
Proof.
  assert (H : exists e0, err t' = Some e0 /\ (e = e0 \/ e = ErrBytePos (n t') e0)).
  { destruct c; simpl in Hcall; apply bind_Ok in Hcall;
      destruct Hcall as (((x & e1) & t1) & Hc & Hcall);
      inversion Hcall; subst; simpl in Herr; subst e1.
    - apply (Token_err _ _ _ _ Hc).
    - exists e. split; [apply (RawToken_err _ _ _ _ Hc) | left; reflexivity]. }
  destruct H as (e0 & He0 & Hrel). exists e0.
  split; [exact He0 | split; [exact Hrel | split; [| split]]].
  - destruct Hrel as [-> | ->]; reflexivity.
  - intros ->. destruct Hrel as [<- | Hw]; [reflexivity | discriminate].
  - intros cs. apply perform_all_stuck. exact He0.
Qed.

Lemma C4_sticky_error_witness :
  let t := freshTokenizer (str "<!") [WithReadBufferSize 1] in
  perform CallToken t
    = Ok (TokenOut zeroToken (Some (ErrBytePos 2 ErrUnexpectedEOF)), afterToken t) /\
  perform_all [CallToken; CallRawToken; CallToken] (afterToken t)
    = Ok (map (stuck ErrUnexpectedEOF) [CallToken; CallRawToken; CallToken], afterToken t).
Proof.
  intros t.
  assert (H : perform CallToken t
    = Ok (TokenOut zeroToken (Some (ErrBytePos 2 ErrUnexpectedEOF)), afterToken t))
    by (vm_compute; reflexivity).
  split; [exact H |].
  destruct (C4_sticky_error CallToken t (afterToken t) _ _ H eq_refl)
    as (e0 & He0 & _ & _ & _ & Hall).
  assert (E : e0 = ErrUnexpectedEOF).
  { assert (E' : err (afterToken t) = Some ErrUnexpectedEOF) by (vm_compute; reflexivity).
    rewrite E' in He0. inversion He0. reflexivity. }
  rewrite <- E. apply Hall.
Defined.

(** ** Tokens of concrete inputs *)

(** A name with no colon, as [consumeTagName] stores it. *)
Definition plainName (s : string) : Name :=
  {| Name_Prefix := None; Name_Local := Some (str s); Name_Full := Some (str s) |}.

Definition startToken (nm : Name) (attrs : option (list Attr)) (data : gbytes) : Token :=
  {| Token_Name := nm; Token_Attrs := attrs; Token_Data := data;
     Token_SelfClosing := false; Token_IsEndElement := false |}.

Definition endToken (nm : Name) : Token :=
  {| Token_Name := nm; Token_Attrs := None; Token_Data := None;
     Token_SelfClosing := false; Token_IsEndElement := true |}.

Definition nonTagToken (data : bytes) : Token :=
  {| Token_Name := zeroName; Token_Attrs := None; Token_Data := Some data;
     Token_SelfClosing := true; Token_IsEndElement := false |}.

(** The input [<a>a \r\n \r\n</a>]: the text [a] followed by a space, a line
    break, a space and a line break. *)
Definition leafTrailingCRLF : bytes :=
  str "<a>a " ++ [CR; LF; SP; CR; LF] ++ str "</a>".

(** C1, at a failing input.  For [<a>a \r\n \r\n</a>] the text with its
    white space trimmed is [a], but the leaf token carries [a] followed by a
    space: [trimSuffix] stops at the carriage return of a line break it has
    just counted.  This holds for the default read size and for size 1. *)
Theorem C1_leaf_text_not_trimmed :
  tokenize leafTrailingCRLF []
    = Ok ([startToken (plainName "a") None (Some (str "a "));
           endToken (plainName "a")], EOF) /\
  tokenize leafTrailingCRLF [WithReadBufferSize 1]
    = Ok ([startToken (plainName "a") None (Some (str "a "));
           endToken (plainName "a")], EOF) /\
  trim (str "a " ++ [CR; LF; SP; CR; LF]) = str "a " ++ [CR; LF; SP].
Proof. vm_compute. repeat split. Qed.

(** The input [<!DOCTYPE a [<!-- a --><!-- > -->]>]: a DOCTYPE declaration
    whose internal subset holds two comments with nothing between them. *)
Definition doctypeAdjacentComments : bytes :=
  str "<!DOCTYPE a [<!-- a --><!-- > -->]>".

(** C3, at a failing input.  The DOCTYPE declaration above is cut at the [>]
    inside its second comment: after the first nested construct
    [findTokenEnd] looks for the next [<] one byte too far. *)
Theorem C3_doctype_cut_short :
  tokenize doctypeAdjacentComments []
    = Ok ([nonTagToken (str "<!DOCTYPE a [<!-- a --><!-- >")], EOF) /\
  tokenize doctypeAdjacentComments [WithReadBufferSize 1]
    = Ok ([nonTagToken (str "<!DOCTYPE a [<!-- a --><!-- >")], EOF) /\
  findTokenEnd doctypeAdjacentComments 0 = Ok 29 /\
  len doctypeAdjacentComments = 35.
Proof. vm_compute. repeat split. Qed.

(** A comment and a leaf element that are longer than the buffer may
    grow. *)
Definition longComment : bytes :=
  str "<!--" ++ repeat "x"%byte 5000 ++ str "-->".

Definition longLeaf : bytes :=
  str "<a>" ++ repeat "x"%byte 5000 ++ str "</a>".

Definition smallCeiling : list Option :=
  [WithReadBufferSize 64; WithAutoGrowBufferMaxLimitSize 64].

(** C5, at a failing input.  With a read size and a ceiling of 64 bytes the
    buffer can hold 4160 bytes.  On a comment of 5007 bytes [RawToken]
    returns the first 4160 bytes together with the error, and [Token]
    returns them as a token with a nil error; on a leaf element of 5007
    bytes [RawToken] itself returns the first 4160 bytes as a span with a
    nil error.  The error is returned by the next call. *)
Theorem C5_token_cut_at_ceiling :
  let cut := firstn 4160 longComment in
  let t := freshTokenizer longComment smallCeiling in
  let limit := ErrBufferLimit 4224 64 in
  RawToken t = Ok (Some cut, Some limit, afterRawToken t) /\
  Token_ t = Ok (nonTagToken cut, None, afterToken t) /\
  Token_ (afterToken t)
    = Ok (zeroToken, Some (ErrBytePos 4160 limit), afterToken t) /\
  let u := freshTokenizer longLeaf smallCeiling in
  RawToken u = Ok (Some (firstn 4160 longLeaf), None, afterRawToken u) /\
  RawToken (afterRawToken u) = Ok (None, Some limit, afterRawToken u).
Proof. vm_compute. repeat split. Qed.



Lemma IndexByte_absent (b : bytes) (c : byte) :
  ~ In c b -> IndexByte b c = -1.
Proof.
  induction b as [| x b IH]; cbn [IndexByte]; intros H; [reflexivity |].
  destruct (Byte.eqb x c) eqn:E.
  - apply byte_eqb_eq in E. subst. exfalso. apply H. left. reflexivity.
  - rewrite IH by (intros Hin; apply H; right; exact Hin). reflexivity.
Qed.

Lemma IndexByte_nonneg_or (b : bytes) (c : byte) :
  IndexByte b c = -1 \/ 0 <= IndexByte b c < len b.
Proof.
  induction b as [| x b IH]; cbn [IndexByte]; [left; reflexivity |].
  rewrite len_cons. pose proof (len_nonneg b) as Hb.
  destruct (Byte.eqb x c); [right; lia |].
  destruct (IndexByte b c <? 0) eqn:E; [left; reflexivity |].
  apply Z.ltb_ge in E. right. lia.
Qed.

Lemma IndexByte_first (p l : bytes) (c : byte) :
  ~ In c p -> IndexByte (p ++ c :: l) c = len p.
Proof.
  induction p as [| x p IH]; cbn [IndexByte app]; intros H.
  - rewrite byte_eqb_refl. reflexivity.
  - destruct (Byte.eqb x c) eqn:E.
    + apply byte_eqb_eq in E. subst. exfalso. apply H. left. reflexivity.
    + rewrite IH by (intros Hin; apply H; right; exact Hin).
      rewrite len_cons. pose proof (len_nonneg p).
      destruct (len p <? 0) eqn:E2; [apply Z.ltb_lt in E2; lia | lia].
Qed.

Lemma firstn_len_app {A : Type} (p l : list A) : firstn (Z.to_nat (len p)) (p ++ l) = p.
Proof.
  unfold len. rewrite Nat2Z.id. rewrite firstn_app, Nat.sub_diag, firstn_all.
  simpl. apply app_nil_r.
Qed.

Lemma skipn_len_app {A : Type} (p l : list A) : skipn (Z.to_nat (len p)) (p ++ l) = l.
Proof.
  unfold len. rewrite Nat2Z.id. rewrite skipn_app, Nat.sub_diag, skipn_all.
  reflexivity.
Qed.



(** ** White space and [trim] *)

(** The bytes [trimPrefix] and [trimSuffix] look at: carriage return, line
    feed, space and tab. *)
Definition isSpace (c : byte) : bool :=
  Byte.eqb c CR || Byte.eqb c LF || Byte.eqb c SP || Byte.eqb c TAB.

Definition allSpace (l : bytes) : Prop := Forall (fun c => isSpace c = true) l.

Lemma allSpace_firstn (k : nat) (l : bytes) : allSpace l -> allSpace (firstn k l).
Proof.
  unfold allSpace. revert l. induction k as [| k IH]; intros l H; simpl.
  - constructor.
  - destruct l as [| c l]; [constructor |].
    inversion H; subst. constructor; [assumption | apply IH; assumption].
Qed.

Lemma trimPrefix_loop_scans (m : nat) :
  forall (l : bytes) (start : Z), (List.length l <= m)%nat ->
  exists k : nat,
    trimPrefix_loop l start = start + Z.of_nat k /\
    (k <= List.length l)%nat /\ allSpace (firstn k l).
Proof.
  induction m as [| m IH]; intros l start Hm.
  - destruct l; [| simpl in Hm; lia]. exists 0%nat. simpl.
    split; [lia | split; [lia | constructor]].
  - destruct l as [| c l']; [exists 0%nat; simpl; split; [lia | split; [lia | constructor]] |].
    simpl in Hm. cbn [trimPrefix_loop].
    destruct (Byte.eqb c CR) eqn:ECR.
    + assert (Hc : isSpace c = true) by (unfold isSpace; rewrite ECR; reflexivity).
      destruct l' as [| c' l''].
      * exists 0%nat. simpl. split; [lia | split; [lia | constructor]].
      * destruct (Byte.eqb c' LF) eqn:ELF.
        -- destruct (IH l'' (start + 2)) as (k & Hk & Hle & Hsp); [simpl in Hm; lia |].
           exists (S (S k)). rewrite Hk. split; [lia | split; [simpl; lia |]].
           simpl. constructor; [exact Hc |]. constructor; [| exact Hsp].
           unfold isSpace. rewrite ELF. rewrite orb_true_r. reflexivity.
        -- destruct (IH (c' :: l'') start) as (k & Hk & Hle & Hsp); [lia |].
           exists k. rewrite Hk. split; [lia | split; [simpl in *; lia |]].
           destruct k as [| k]; [constructor |].
           cbn [firstn]. constructor; [exact Hc |].
           replace (firstn k (c' :: l'')) with (firstn k (firstn (S k) (c' :: l''))).
           ++ apply allSpace_firstn. exact Hsp.
           ++ rewrite firstn_firstn. f_equal. lia.
    + destruct (Byte.eqb c LF || Byte.eqb c SP || Byte.eqb c TAB) eqn:EW.
      * destruct (IH l' (start + 1)) as (k & Hk & Hle & Hsp); [lia |].
        exists (S k). rewrite Hk. split; [lia | split; [simpl; lia |]].
        simpl. constructor; [| exact Hsp].
        unfold isSpace. rewrite ECR. simpl. rewrite <- orb_assoc in EW. 
        destruct (Byte.eqb c LF); simpl in *; [reflexivity | exact EW].
      * exists 0%nat. split; [lia | split; [lia | constructor]].
Qed.

Lemma trimPrefix_decompose (b : bytes) :
  exists pre, b = pre ++ trimPrefix b /\ allSpace pre.
Proof.
  destruct (trimPrefix_loop_scans (List.length b) b 0 (le_n _)) as (k & Hk & Hle & Hsp).
  exists (firstn k b). unfold trimPrefix. rewrite Hk.
  replace (Z.to_nat (0 + Z.of_nat k)) with k by lia.
  split; [symmetry; apply firstn_skipn | exact Hsp].
Qed.

Lemma skipn_nth_error_cons {A : Type} (l : list A) (i : nat) (c : A) :
  nth_error l i = Some c -> skipn i l = c :: skipn (S i) l.
Proof.
  revert l. induction i as [| i IH]; intros l H; destruct l as [| x l];
    simpl in H; try discriminate.
  - inversion H. reflexivity.
  - simpl. apply IH. exact H.
Qed.

(** The loop of [trimSuffix] is entered with [e = k], or with [e = k - 1]
    right after a line break whose carriage return is at [k - 1]. *)
Lemma trimSuffix_loop_scans (b : bytes) (k : nat) :
  forall e : Z,
  (k <= List.length b)%nat ->
  (e = Z.of_nat k \/
   (e = Z.of_nat k - 1 /\ (1 <= k)%nat /\ nth_error b (k - 1) = Some CR)) ->
  allSpace (skipn (Z.to_nat e) b) ->
  let r := trimSuffix_loop b k e in
  0 <= r <= e /\ allSpace (skipn (Z.to_nat r) b).
Proof.
  induction k as [| i IH]; intros e Hk Hinv Hsp; cbn [trimSuffix_loop].
  - destruct Hinv as [-> | (_ & Hlt & _)]; [| lia]. split; [lia | exact Hsp].
  - destruct (nth_error b i) as [c |] eqn:Ec.
    2:{ apply nth_error_None in Ec. lia. }
    destruct (Byte.eqb c LF) eqn:ELF.
    + apply byte_eqb_eq in ELF. subst c.
      assert (He : e = Z.of_nat (S i)).
      { destruct Hinv as [-> | (_ & _ & Hcr)]; [reflexivity |].
        replace (S i - 1)%nat with i in Hcr by lia. rewrite Ec in Hcr. discriminate. }
      subst e.
      assert (Hi : allSpace (skipn i b)).
      { rewrite (skipn_nth_error_cons _ _ _ Ec). constructor; [reflexivity |].
        replace (Z.to_nat (Z.of_nat (S i))) with (S i) in Hsp by lia. exact Hsp. }
      destruct ((Z.of_nat i - 1 >? 0) &&
                match nth_error b (i - 1) with
                | Some c' => Byte.eqb c' CR
                | None => false
                end) eqn:Eextra.
      * apply andb_true_iff in Eextra. destruct Eextra as (Hpos & Hcr).
        apply Z.gtb_lt in Hpos.
        assert (Ec' : nth_error b (i - 1) = Some CR).
        { clear IH. destruct (nth_error b (i - 1)); [| discriminate].
          apply byte_eqb_eq in Hcr. subst. reflexivity. }
        clear Hcr.
        specialize (IH (Z.of_nat (S i) - 1 - 1)).
        destruct IH as (Hr & Hr2).
        -- lia.
        -- right. split; [lia | split; [lia | exact Ec']].
        -- replace (Z.to_nat (Z.of_nat (S i) - 1 - 1)) with (i - 1)%nat by lia.
           rewrite (skipn_nth_error_cons _ _ _ Ec').
           constructor; [reflexivity |].
           replace (S (i - 1)) with i by lia. exact Hi.
        -- split; [lia | exact Hr2].
      * specialize (IH (Z.of_nat (S i) - 1)).
        destruct IH as (Hr & Hr2).
        -- lia.
        -- left. lia.
        -- replace (Z.to_nat (Z.of_nat (S i) - 1)) with i by lia. exact Hi.
        -- split; [lia | exact Hr2].
    + destruct (Byte.eqb c SP || Byte.eqb c TAB) eqn:EW.
      * assert (He : e = Z.of_nat (S i)).
        { destruct Hinv as [-> | (_ & _ & Hcr)]; [reflexivity |].
          replace (S i - 1)%nat with i in Hcr by lia. rewrite Ec in Hcr.
          inversion Hcr; subst c. vm_compute in EW. discriminate. }
        subst e.
        specialize (IH (Z.of_nat (S i) - 1)).
        destruct IH as (Hr & Hr2).
        -- lia.
        -- left. lia.
        -- replace (Z.to_nat (Z.of_nat (S i) - 1)) with i by lia.
           rewrite (skipn_nth_error_cons _ _ _ Ec). constructor.
           ++ unfold isSpace. rewrite ELF. simpl.
              destruct (Byte.eqb c CR); [reflexivity | exact EW].
           ++ replace (Z.to_nat (Z.of_nat (S i))) with (S i) in Hsp by lia. exact Hsp.
        -- split; [lia | exact Hr2].
      * split; [| exact Hsp].
        destruct Hinv as [-> | (-> & Hlt & _)]; lia.
Qed.

Lemma trimSuffix_decompose (b : bytes) :
  exists post, b = trimSuffix b ++ post /\ allSpace post.
Proof.
  pose proof (trimSuffix_loop_scans b (List.length b) (len b) (le_n _)) as H.
  destruct H as (Hr & Hsp).
  - left. reflexivity.
  - unfold len. rewrite Nat2Z.id, skipn_all. constructor.
  - exists (skipn (Z.to_nat (trimSuffix_loop b (List.length b) (len b))) b).
    split; [symmetry; apply firstn_skipn | exact Hsp].
Qed.

(** [trim] returns a part of its argument and only leaves out carriage
    returns, line feeds, spaces and tabs, at the two ends. *)
Theorem trim_removes_only_white_space (b : bytes) :
  exists pre post,
    b = pre ++ trim b ++ post /\ allSpace pre /\ allSpace post.
Proof.
  destruct (trimPrefix_decompose b) as (pre & Hb & Hpre).
  destruct (trimSuffix_decompose (trimPrefix b)) as (post & Hm & Hpost).
  exists pre, post. unfold trim. rewrite <- Hm.
  split; [exact Hb | split; assumption].
Qed.

(** The units of white space that [trimPrefix] counts: a line break written
    as carriage return and line feed, a line feed, a space, a tab. *)
Inductive spaceUnit : bytes -> Prop :=
| spaceUnit_crlf : spaceUnit [CR; LF]
| spaceUnit_lf : spaceUnit [LF]
| spaceUnit_sp : spaceUnit [SP]
| spaceUnit_tab : spaceUnit [TAB].

Lemma isSpace_false (c : byte) :
  isSpace c = false ->
  Byte.eqb c CR = false /\ Byte.eqb c LF = false /\
  Byte.eqb c SP = false /\ Byte.eqb c TAB = false.
Proof.
  unfold isSpace. intros H.
  destruct (Byte.eqb c CR), (Byte.eqb c LF), (Byte.eqb c SP), (Byte.eqb c TAB);
    simpl in H; try discriminate; repeat split; reflexivity.
Qed.

Lemma trimPrefix_loop_units (units : list bytes) (tl : bytes) (start : Z) :
  Forall spaceUnit units ->
  (forall c m, tl = c :: m -> isSpace c = false) ->
  trimPrefix_loop (List.concat units ++ tl) start = start + len (List.concat units).
Proof.
  intros Hu Htl. revert start. induction Hu as [| u units Hu _ IH]; intros start.
  - simpl. rewrite len_nil, Z.add_0_r. destruct tl as [| c m]; [reflexivity |].
    destruct (isSpace_false c (Htl c m eq_refl)) as (E1 & E2 & E3 & E4).
    cbn [trimPrefix_loop]. rewrite E1, E2, E3, E4. reflexivity.
  - cbn [List.concat]. rewrite len_app, <- app_assoc.
    destruct Hu; cbn [app trimPrefix_loop];
      change (Byte.eqb CR CR) with true; change (Byte.eqb LF LF) with true;
      change (Byte.eqb LF CR) with false; change (Byte.eqb SP CR) with false;
      change (Byte.eqb TAB CR) with false; change (Byte.eqb SP LF) with false;
      change (Byte.eqb SP SP) with true; change (Byte.eqb TAB LF) with false;
      change (Byte.eqb TAB SP) with false; change (Byte.eqb TAB TAB) with true;
      cbn [orb]; rewrite IH; rewrite ?len_cons, ?len_nil; lia.
Qed.

(** [trimPrefix] removes a whole run of line breaks (carriage return and
    line feed, or line feed alone), spaces and tabs in front of a byte that
    is none of these, and removes all of an input made of such a run. *)
Theorem trimPrefix_strips_leading_units (units : list bytes) (c : byte) (rest : bytes)
  (Hunits : Forall spaceUnit units) (Hc : isSpace c = false) :
  trimPrefix (List.concat units ++ c :: rest) = c :: rest /\
  trimPrefix (List.concat units) = [].
Proof.
  split.
  - unfold trimPrefix. rewrite trimPrefix_loop_units; [| exact Hunits |].
    + rewrite Z.add_0_l. apply skipn_len_app.
    + intros c' m E. inversion E; subst. exact Hc.
  - unfold trimPrefix. rewrite <- (app_nil_r (List.concat units)) at 1.
    rewrite trimPrefix_loop_units; [| exact Hunits | intros c' m E; discriminate].
    rewrite Z.add_0_l. unfold len. rewrite Nat2Z.id. apply skipn_all.
Qed.

Lemma trimPrefix_strips_leading_units_witness :
  Forall spaceUnit [[SP]; [CR; LF]; [TAB]; [LF]] /\ isSpace "a"%byte = false /\
  trimPrefix (List.concat [[SP]; [CR; LF]; [TAB]; [LF]] ++ "a"%byte :: str "b ")
  = "a"%byte :: str "b ".
Proof.
  assert (Hu : Forall spaceUnit [[SP]; [CR; LF]; [TAB]; [LF]])
    by (repeat constructor).
  assert (Hc : isSpace "a"%byte = false) by reflexivity.
  split; [exact Hu | split; [exact Hc |]].
  exact (proj1 (trimPrefix_strips_leading_units _ "a"%byte (str "b ") Hu Hc)).
Defined.

Lemma trimPrefix_loop_noCR (l : bytes) (start : Z) :
  ~ In CR l ->
  exists k : nat,
    trimPrefix_loop l start = start + Z.of_nat k /\
    (forall c m, skipn k l = c :: m -> isSpace c = false).
Proof.
  revert start. induction l as [| c l IH]; intros start Hno.
  - exists 0%nat. simpl. split; [lia | intros; discriminate].
  - assert (ECR : Byte.eqb c CR = false).
    { apply byte_eqb_neq. intros ->. apply Hno. left. reflexivity. }
    cbn [trimPrefix_loop]. rewrite ECR.
    destruct (Byte.eqb c LF || Byte.eqb c SP || Byte.eqb c TAB) eqn:EW.
    + destruct (IH (start + 1)) as (k & Hk & Hhd).
      { intros Hin. apply Hno. right. exact Hin. }
      exists (S k). rewrite Hk. split; [lia | exact Hhd].
    + exists 0%nat. split; [lia |]. intros c' m E. inversion E; subst.
      unfold isSpace. rewrite ECR. simpl. rewrite <- orb_assoc in EW.
      destruct (Byte.eqb c' LF); simpl in *; [discriminate | exact EW].
Qed.

Lemma trimSuffix_loop_noCR (b : bytes) (k : nat) :
  ~ In CR b -> (k <= List.length b)%nat ->
  let r := trimSuffix_loop b k (Z.of_nat k) in
  0 <= r <= Z.of_nat k /\
  (forall c, nth_error b (Z.to_nat r - 1) = Some c -> 0 < r -> isSpace c = false).
Proof.
  intros Hno. induction k as [| i IH]; intros Hk; cbn [trimSuffix_loop].
  - split; [lia | intros c _ H; lia].
  - destruct (nth_error b i) as [c |] eqn:Ec.
    2:{ apply nth_error_None in Ec. lia. }
    assert (ECR : Byte.eqb c CR = false).
    { apply byte_eqb_neq. intros ->. apply Hno. apply (nth_error_In _ _ Ec). }
    assert (Eextra : (Z.of_nat i - 1 >? 0) &&
                match nth_error b (i - 1) with
                | Some c' => Byte.eqb c' CR
                | None => false
                end = false).
    { clear IH. destruct (nth_error b (i - 1)) as [c' |] eqn:Ec'.
      - replace (Byte.eqb c' CR) with false; [apply andb_false_r |].
        symmetry. apply byte_eqb_neq. intros ->. apply Hno.
        apply (nth_error_In _ _ Ec').
      - apply andb_false_r. }
    rewrite Eextra.
    replace (Z.of_nat (S i) - 1) with (Z.of_nat i) by lia.
    destruct (Byte.eqb c LF) eqn:ELF.
    + destruct IH as (Hr & Hr2); [lia |]. split; [lia | exact Hr2].
    + destruct (Byte.eqb c SP || Byte.eqb c TAB) eqn:EW.
      * destruct IH as (Hr & Hr2); [lia |]. split; [lia | exact Hr2].
      * split; [lia |]. intros c' Hc' _.
        replace (Z.to_nat (Z.of_nat (S i)) - 1)%nat with i in Hc' by lia.
        rewrite Ec in Hc'. inversion Hc'; subst c'.
        unfold isSpace. rewrite ECR, ELF. simpl. exact EW.
Qed.

Lemma In_skipn {A : Type} (x : A) (k : nat) (l : list A) : In x (skipn k l) -> In x l.
Proof.
  intros H. rewrite <- (firstn_skipn k l). apply in_or_app. right. exact H.
Qed.

(** On an input with no carriage return, [trim] leaves no line feed, space
    or tab at either end of what it returns. *)
Theorem trim_complete_without_CR (b : bytes) (Hno : ~ In CR b) :
  (forall c rest, trim b = c :: rest -> isSpace c = false) /\
  (forall front c, trim b = front ++ [c] -> isSpace c = false).
Proof.
  destruct (trimPrefix_loop_noCR b 0 Hno) as (k & Hk & Hhd).
  assert (Em : trimPrefix b = skipn k b).
  { unfold trimPrefix. rewrite Hk. f_equal. lia. }
  assert (Hno' : ~ In CR (trimPrefix b)).
  { rewrite Em. intros Hin. apply Hno. apply (In_skipn _ _ _ Hin). }
  pose proof (trimSuffix_loop_noCR (trimPrefix b) _ Hno' (le_n _)) as (Hr & Hlast).
  fold (len (trimPrefix b)) in Hr, Hlast.
  set (r := trimSuffix_loop (trimPrefix b) (List.length (trimPrefix b)) (len (trimPrefix b))) in *.
  assert (Et : trim b = firstn (Z.to_nat r) (trimPrefix b)) by reflexivity.
  split.
  - intros c rest E. rewrite Et in E.
    destruct (trimPrefix b) as [| c0 m] eqn:Em0.
    + rewrite firstn_nil in E. discriminate.
    + destruct (Z.to_nat r); simpl in E; [discriminate |].
      inversion E; subst c0. apply (Hhd c m). symmetry. exact Em.
  - intros front c E. rewrite Et in E.
    assert (Hlen : List.length (firstn (Z.to_nat r) (trimPrefix b)) = Z.to_nat r).
    { apply firstn_length_le. unfold len in Hr. lia. }
    rewrite E, length_app in Hlen. simpl in Hlen.
    apply (Hlast c); [| lia].
    assert (H : nth_error (firstn (Z.to_nat r) (trimPrefix b) ++
                           skipn (Z.to_nat r) (trimPrefix b)) (Z.to_nat r - 1) = Some c).
    { rewrite E. rewrite nth_error_app1 by (rewrite length_app; simpl; lia).
      rewrite nth_error_app2 by lia.
      replace (Z.to_nat r - 1 - List.length front)%nat with 0%nat by lia.
      reflexivity. }
    rewrite firstn_skipn in H. exact H.
Qed.

Lemma trim_complete_without_CR_witness :
  ~ In CR (str " a b ") /\
  (forall c rest, trim (str " a b ") = c :: rest -> isSpace c = false).
Proof.
  assert (Hno : ~ In CR (str " a b ")).
  { intros H. simpl in H. repeat (destruct H as [H | H]; [discriminate |]). exact H. }
  split; [exact Hno |].
  exact (proj1 (trim_complete_without_CR _ Hno)).
Defined.

(** ** Indexing and slicing at the end of a known prefix *)

Ltac list_assoc := repeat (rewrite <- app_assoc || cbn [app]); reflexivity.

Lemma index_at_len (p l : bytes) (c : byte) : index (p ++ c :: l) (len p) = Ok c.
Proof.
  unfold index. pose proof (len_nonneg p) as Hp. pose proof (len_nonneg l) as Hl.
  rewrite len_app, len_cons.
  replace (0 <=? len p) with true by (symmetry; apply Z.leb_le; lia).
  replace (len p <? len p + (1 + len l)) with true by (symmetry; apply Z.ltb_lt; lia).
  simpl. unfold len. rewrite Nat2Z.id.
  rewrite nth_error_app2 by lia. rewrite Nat.sub_diag. reflexivity.
Qed.

Lemma slice_middle (p m l : bytes) :
  slice (p ++ m ++ l) (len p) (len p + len m) = Ok m.
Proof.
  unfold slice. pose proof (len_nonneg p) as Hp. pose proof (len_nonneg m) as Hm.
  pose proof (len_nonneg l) as Hl. rewrite !len_app.
  replace (0 <=? len p) with true by (symmetry; apply Z.leb_le; lia).
  replace (len p <=? len p + len m) with true by (symmetry; apply Z.leb_le; lia).
  replace (len p + len m <=? len p + (len m + len l)) with true
    by (symmetry; apply Z.leb_le; lia).
  simpl. rewrite skipn_len_app.
  replace (len p + len m - len p) with (len m) by lia.
  rewrite firstn_len_app. reflexivity.
Qed.

Lemma sliceTo_prefix (p l : bytes) : sliceTo (p ++ l) (len p) = Ok p.
Proof.
  unfold sliceTo. pose proof (slice_middle [] p l) as H.
  rewrite len_nil in H. simpl in H. exact H.
Qed.

Lemma sliceFrom_suffix (p l : bytes) : sliceFrom (p ++ l) (len p) = Ok l.
Proof.
  unfold sliceFrom. pose proof (slice_middle p l []) as H.
  rewrite app_nil_r in H. rewrite len_app. exact H.
Qed.

Lemma sliceFrom_0 (l : bytes) : sliceFrom l 0 = Ok l.
Proof. apply (sliceFrom_suffix [] l). Qed.

Lemma sliceFrom_1 (c : byte) (l : bytes) : sliceFrom (c :: l) 1 = Ok l.
Proof. apply (sliceFrom_suffix [c] l). Qed.

Lemma IndexAny_first (p l chars : bytes) (c : byte) :
  Forall (fun x => mem x chars = false) p -> mem c chars = true ->
  IndexAny (p ++ c :: l) chars = len p.
Proof.
  intros Hp Hc. induction Hp as [| x p Hx _ IH]; cbn [IndexAny app].
  - rewrite Hc. reflexivity.
  - rewrite Hx, IH, len_cons. pose proof (len_nonneg p).
    destruct (len p <? 0) eqn:E; [apply Z.ltb_lt in E; lia | lia].
Qed.

Lemma IndexAny_absent (p chars : bytes) :
  Forall (fun x => mem x chars = false) p -> IndexAny p chars = -1.
Proof.
  intros Hp. induction Hp as [| x p Hx _ IH]; cbn [IndexAny]; [reflexivity |].
  rewrite Hx, IH. reflexivity.
Qed.

(** ** [consumeCharData] *)

Lemma isSpace_LT : isSpace LT = false.
Proof. reflexivity. Qed.

(** For a CDATA section, after any run of line breaks, spaces and tabs,
    [consumeCharData] stores the payload between [<![CDATA[] and []]>],
    trimmed, and changes nothing else in the token. *)
Theorem consumeCharData_cdata (k : Token) (units : list bytes) (payload : bytes)
  (Hunits : Forall spaceUnit units) :
  consumeCharData k (List.concat units ++ prefixCDATA ++ payload ++ suffixCDATA)
  = set_Data k (Some (trim payload)).
Proof.
  unfold consumeCharData.
  assert (E1 : trimPrefix (List.concat units ++ prefixCDATA ++ payload ++ suffixCDATA)
               = prefixCDATA ++ payload ++ suffixCDATA).
  { change (prefixCDATA ++ payload ++ suffixCDATA)
      with (LT :: str "![CDATA[" ++ payload ++ suffixCDATA).
    apply (trimPrefix_strips_leading_units units LT _ Hunits isSpace_LT). }
  rewrite E1. clear E1.
  assert (E2 : firstn (List.length prefixCDATA) (prefixCDATA ++ payload ++ suffixCDATA)
               = prefixCDATA).
  { rewrite firstn_app, Nat.sub_diag, firstn_all. simpl. reflexivity. }
  assert (E3 : skipn (List.length prefixCDATA) (prefixCDATA ++ payload ++ suffixCDATA)
               = payload ++ suffixCDATA).
  { rewrite skipn_app, Nat.sub_diag, skipn_all. reflexivity. }
  rewrite E2, E3. clear E2 E3.
  pose proof (len_nonneg payload) as Hp.
  replace (len (prefixCDATA ++ payload ++ suffixCDATA) >=? len prefixCDATA) with true.
  2:{ symmetry. apply Z.geb_le. rewrite !len_app. pose proof (len_nonneg suffixCDATA). lia. }
  replace (bytes_eqb prefixCDATA prefixCDATA) with true
    by (symmetry; apply bytes_eqb_eq; reflexivity).
  cbn [andb].
  replace (len (payload ++ suffixCDATA) - len suffixCDATA) with (len payload)
    by (rewrite len_app; lia).
  rewrite skipn_len_app, firstn_len_app.
  replace (len payload >=? 0) with true by (symmetry; apply Z.geb_le; lia).
  replace (bytes_eqb suffixCDATA suffixCDATA) with true
    by (symmetry; apply bytes_eqb_eq; reflexivity).
  reflexivity.
Qed.

Lemma consumeCharData_cdata_witness :
  Forall spaceUnit [[LF]; [TAB]] /\
  consumeCharData zeroToken
    (List.concat [[LF]; [TAB]] ++ prefixCDATA ++ str " <b>x</b> " ++ suffixCDATA)
  = set_Data zeroToken (Some (trim (str " <b>x</b> "))).
Proof.
  assert (Hu : Forall spaceUnit [[LF]; [TAB]]) by (repeat constructor).
  split; [exact Hu |].
  exact (consumeCharData_cdata zeroToken _ (str " <b>x</b> ") Hu).
Defined.

(** ** [consumeAttrs] *)

Definition noneOf (chars l : bytes) : Prop := Forall (fun x => mem x chars = false) l.

Definition noSpace (l : bytes) : Prop := Forall (fun c => isSpace c = false) l.

Lemma spaceUnits_allSpace (units : list bytes) :
  Forall spaceUnit units -> allSpace (List.concat units).
Proof.
  intros H. induction H as [| u units Hu _ IH]; cbn [List.concat]; [constructor |].
  apply Forall_app. split; [| exact IH].
  destruct Hu; repeat constructor.
Qed.

Lemma allSpace_noneOf (chars l : bytes) :
  (forall c, isSpace c = true -> mem c chars = false) ->
  allSpace l -> noneOf chars l.
Proof.
  intros Hc H. unfold noneOf. induction H as [| x l Hx _ IH]; constructor;
    [apply Hc; exact Hx | exact IH].
Qed.

Lemma isSpace_cases (c : byte) :
  isSpace c = true -> c = CR \/ c = LF \/ c = SP \/ c = TAB.
Proof.
  unfold isSpace. intros H.
  destruct (Byte.eqb c CR) eqn:E1; [left; apply byte_eqb_eq; exact E1 |].
  destruct (Byte.eqb c LF) eqn:E2; [right; left; apply byte_eqb_eq; exact E2 |].
  destruct (Byte.eqb c SP) eqn:E3; [right; right; left; apply byte_eqb_eq; exact E3 |].
  destruct (Byte.eqb c TAB) eqn:E4; [right; right; right; apply byte_eqb_eq; exact E4 |].
  discriminate.
Qed.

Lemma space_not_attrEnd (c : byte) : isSpace c = true -> mem c attrEnd = false.
Proof.
  intros H. destruct (isSpace_cases c H) as [-> | [-> | [-> | ->]]]; reflexivity.
Qed.

Lemma trimSuffix_last_nonspace (a : bytes) :
  (forall f c, a = f ++ [c] -> isSpace c = false) -> trimSuffix a = a.
Proof.
  intros H. unfold trimSuffix.
  destruct (list_eq_dec byte_eq_dec a []) as [-> | Hne]; [reflexivity |].
  destruct (exists_last Hne) as (f & c & E).
  destruct (isSpace_false c (H f c E)) as (E1 & E2 & E3 & E4).
  assert (Hlen : List.length a = S (List.length f)).
  { rewrite E, length_app. simpl. lia. }
  rewrite Hlen. cbn [trimSuffix_loop].
  replace (nth_error a (List.length f)) with (Some c).
  2:{ rewrite E, nth_error_app2 by lia. rewrite Nat.sub_diag. reflexivity. }
  rewrite E2, E3, E4. cbn [orb].
  unfold len. rewrite Nat2Z.id. apply firstn_all.
Qed.

Lemma noSpace_last (a f : bytes) (c : byte) :
  noSpace a -> a = f ++ [c] -> isSpace c = false.
Proof.
  intros H E. unfold noSpace in H. rewrite Forall_forall in H. apply H.
  rewrite E. apply in_or_app. right. left. reflexivity.
Qed.

Lemma trim_units_noSpace (units : list bytes) (a : bytes) :
  Forall spaceUnit units -> noSpace a -> trim (List.concat units ++ a) = a.
Proof.
  intros Hu Ha. unfold trim.
  assert (E : trimPrefix (List.concat units ++ a) = a).
  { destruct a as [| c m].
    - rewrite app_nil_r. apply (trimPrefix_strips_leading_units units LT [] Hu isSpace_LT).
    - inversion Ha; subst.
      apply (trimPrefix_strips_leading_units units c m Hu). assumption. }
  rewrite E. apply trimSuffix_last_nonspace.
  intros f c. apply noSpace_last. exact Ha.
Qed.

(** One attribute as it is written: white space, the name, the equals sign,
    and the value between double quotes. *)
Definition attrText (x : list bytes * bytes * bytes) : bytes :=
  let '(units, a, v) := x in
  List.concat units ++ a ++ [EQUALS; QUOTE] ++ v ++ [QUOTE].

Definition attrOK (x : list bytes * bytes * bytes) : Prop :=
  let '(units, a, v) := x in
  Forall spaceUnit units /\ noSpace a /\ noneOf attrEnd a /\ ~ In QUOTE v.

Definition attrOf (x : list bytes * bytes * bytes) : Attr :=
  let '(_, a, v) := x in
  {| Attr_Name := splitName a; Attr_Value := Some v |}.

Definition attrsText (l : list (list bytes * bytes * bytes)) : bytes :=
  List.concat (map attrText l).

Lemma consumeAttrs_loop_one (fuel : nat) (k : Token)
  (x : list bytes * bytes * bytes) (tl : bytes) :
  attrOK x ->
  consumeAttrs_loop (S fuel) k (attrText x ++ tl)
  = consumeAttrs_loop fuel (appendAttr k (attrOf x)) tl.
Proof.
  destruct x as ((units & a) & v). intros (Hu & Ha & Hend & Hv).
  cbn [attrText attrOf consumeAttrs_loop].
  assert (Hpre : noneOf attrEnd (List.concat units ++ a)).
  { apply Forall_app. split; [| exact Hend].
    apply allSpace_noneOf; [exact space_not_attrEnd |].
    apply spaceUnits_allSpace. exact Hu. }
  replace ((List.concat units ++ a ++ [EQUALS; QUOTE] ++ v ++ [QUOTE]) ++ tl)
    with ((List.concat units ++ a) ++ EQUALS :: (QUOTE :: v ++ QUOTE :: tl)).
  2:{ list_assoc. }
  rewrite (IndexAny_first _ _ attrEnd EQUALS Hpre eq_refl).
  rewrite index_at_len. cbn [bind].
  change (Byte.eqb EQUALS GT) with false. cbv iota.
  rewrite sliceTo_prefix. cbn [bind].
  replace (len (List.concat units ++ a) + 1)
    with (len ((List.concat units ++ a) ++ [EQUALS]))
    by (rewrite len_app, len_cons, len_nil; lia).
  replace ((List.concat units ++ a) ++ EQUALS :: QUOTE :: v ++ QUOTE :: tl)
    with (((List.concat units ++ a) ++ [EQUALS]) ++ QUOTE :: v ++ QUOTE :: tl)
    by list_assoc.
  rewrite sliceFrom_suffix. cbn [bind].
  cbn [IndexByte]. change (Byte.eqb QUOTE QUOTE) with true. cbv iota.
  change (0 + 1) with 1. rewrite sliceFrom_1. cbn [bind].
  rewrite (IndexByte_first v tl QUOTE Hv).
  replace (slice (QUOTE :: v ++ QUOTE :: tl) 1 (0 + len v + 1)) with (Ok v).
  2:{ symmetry. pose proof (slice_middle [QUOTE] v (QUOTE :: tl)) as H.
      rewrite len_cons, len_nil in H. simpl in H.
      replace (0 + len v + 1) with (1 + 0 + len v) by lia. exact H. }
  cbn [bind].
  replace (sliceFrom (QUOTE :: v ++ QUOTE :: tl) (0 + len v + 2)) with (Ok tl).
  2:{ symmetry. pose proof (sliceFrom_suffix (QUOTE :: v ++ [QUOTE]) tl) as H.
      rewrite len_cons, len_app, len_cons, len_nil in H.
      replace (0 + len v + 2) with (1 + (len v + (1 + 0))) by lia.
      simpl in H. rewrite <- app_assoc in H. simpl in H. exact H. }
  cbn [bind]. rewrite trim_units_noSpace by assumption. reflexivity.
Qed.

Lemma consumeAttrs_loop_many (l : list (list bytes * bytes * bytes)) :
  forall (fuel : nat) (k : Token) (tl : bytes),
  Forall attrOK l ->
  consumeAttrs_loop (List.length l + fuel) k (attrsText l ++ tl)
  = consumeAttrs_loop fuel (fold_left appendAttr (map attrOf l) k) tl.
Proof.
  induction l as [| x l IH]; intros fuel k tl H; [reflexivity |].
  inversion H; subst. unfold attrsText. cbn [map List.concat List.length Nat.add fold_left].
  rewrite <- app_assoc. rewrite consumeAttrs_loop_one by assumption.
  apply IH. assumption.
Qed.

Lemma fold_appendAttr (l : list Attr) :
  forall (k : Token) (l0 : list Attr),
  Token_Attrs k = Some l0 ->
  fold_left appendAttr l k = set_Attrs k (Some (l0 ++ l)).
Proof.
  induction l as [| a l IH]; intros k l0 H; cbn [fold_left].
  - rewrite app_nil_r. destruct k; simpl in *; subst; reflexivity.
  - rewrite (IH _ (l0 ++ [a])).
    + destruct k; simpl in *; subst. unfold set_Attrs. simpl.
      rewrite <- app_assoc. reflexivity.
    + unfold appendAttr. rewrite H. reflexivity.
Qed.

Lemma index_In (b : bytes) (i : Z) (c : byte) : index b i = Ok c -> In c b.
Proof.
  unfold index. destruct (_ && _); [| discriminate].
  destruct (nth_error b (Z.to_nat i)) eqn:E; [| discriminate].
  intros H. inversion H; subst. apply (nth_error_In _ _ E).
Qed.

Lemma index_app_l (p l : bytes) (i : Z) :
  i < len p -> index (p ++ l) i = index p i.
Proof.
  intros Hi. unfold index. rewrite len_app. pose proof (len_nonneg l).
  destruct (0 <=? i) eqn:E0; [| reflexivity]. apply Z.leb_le in E0.
  replace (i <? len p + len l) with true by (symmetry; apply Z.ltb_lt; lia).
  replace (i <? len p) with true by (symmetry; apply Z.ltb_lt; lia).
  simpl. rewrite nth_error_app1 by (unfold len in Hi; lia). reflexivity.
Qed.

Lemma index_in_range (b : bytes) (i : Z) :
  0 <= i < len b -> exists c, index b i = Ok c.
Proof.
  intros Hi. unfold index.
  replace (0 <=? i) with true by (symmetry; apply Z.leb_le; lia).
  replace (i <? len b) with true by (symmetry; apply Z.ltb_lt; lia).
  simpl. destruct (nth_error b (Z.to_nat i)) eqn:E; [eauto |].
  apply nth_error_None in E. unfold len in Hi. lia.
Qed.

Lemma consumeAttrs_loop_end (fuel : nat) (k : Token) (units : list bytes) (rest : bytes) :
  Forall spaceUnit units ->
  consumeAttrs_loop (S fuel) k (List.concat units ++ GT :: rest) = Ok (rest, k) /\
  consumeAttrs_loop (S fuel) k (List.concat units ++ SLASH :: GT :: rest)
  = Ok (rest, set_SelfClosing k true).
Proof.
  intros Hu. pose proof (spaceUnits_allSpace units Hu) as Hsp.
  assert (Hpre : noneOf attrEnd (List.concat units))
    by (apply allSpace_noneOf; [exact space_not_attrEnd | exact Hsp]).
  split; cbn [consumeAttrs_loop].
  - rewrite (IndexAny_first _ _ attrEnd GT Hpre eq_refl).
    rewrite index_at_len. cbn [bind]. change (Byte.eqb GT GT) with true. cbv iota.
    replace (andr (len (List.concat units) >? 0)
               (index_is (List.concat units ++ GT :: rest) (len (List.concat units) - 1) SLASH))
      with (Ok false).
    + cbn [bind].
      replace (len (List.concat units) + 1) with (len (List.concat units ++ [GT]))
        by (rewrite len_app, len_cons, len_nil; lia).
      replace (List.concat units ++ GT :: rest) with ((List.concat units ++ [GT]) ++ rest)
        by list_assoc.
      rewrite sliceFrom_suffix. reflexivity.
    + symmetry. unfold andr. pose proof (len_nonneg (List.concat units)) as Hl.
      destruct (len (List.concat units) >? 0) eqn:E; [| reflexivity].
      apply Z.gtb_lt in E. unfold index_is.
      rewrite index_app_l by lia.
      destruct (index_in_range (List.concat units) (len (List.concat units) - 1))
        as (c & Hc); [lia |].
      rewrite Hc. cbn [bind]. f_equal.
      pose proof (index_In _ _ _ Hc) as Hin.
      unfold allSpace in Hsp. rewrite Forall_forall in Hsp.
      destruct (isSpace_cases c (Hsp c Hin)) as [-> | [-> | [-> | ->]]]; reflexivity.
  - assert (Hpre2 : noneOf attrEnd (List.concat units ++ [SLASH])).
    { apply Forall_app. split; [exact Hpre | repeat constructor]. }
    replace (List.concat units ++ SLASH :: GT :: rest)
      with ((List.concat units ++ [SLASH]) ++ GT :: rest)
      by list_assoc.
    rewrite (IndexAny_first _ _ attrEnd GT Hpre2 eq_refl).
    rewrite index_at_len. cbn [bind]. change (Byte.eqb GT GT) with true. cbv iota.
    pose proof (len_nonneg (List.concat units)) as Hl.
    replace (andr (len (List.concat units ++ [SLASH]) >? 0)
               (index_is ((List.concat units ++ [SLASH]) ++ GT :: rest)
                  (len (List.concat units ++ [SLASH]) - 1) SLASH))
      with (Ok true).
    + cbn [bind].
      replace (len (List.concat units ++ [SLASH]) + 1)
        with (len ((List.concat units ++ [SLASH]) ++ [GT]))
        by (rewrite !len_app, !len_cons, len_nil; lia).
      replace ((List.concat units ++ [SLASH]) ++ GT :: rest)
        with (((List.concat units ++ [SLASH]) ++ [GT]) ++ rest)
        by list_assoc.
      rewrite sliceFrom_suffix. reflexivity.
    + symmetry. unfold andr. rewrite len_app, len_cons, len_nil.
      replace (len (List.concat units) + (1 + 0) >? 0) with true
        by (symmetry; apply Z.gtb_lt; lia).
      unfold index_is. rewrite <- app_assoc.
      replace (len (List.concat units) + (1 + 0) - 1) with (len (List.concat units)) by lia.
      cbn [app]. rewrite index_at_len. reflexivity.
Qed.

Lemma attrsText_length (l : list (list bytes * bytes * bytes)) :
  (List.length l <= List.length (attrsText l))%nat.
Proof.
  unfold attrsText. induction l as [| x l IH]; cbn [map List.concat List.length]; [lia |].
  rewrite length_app. destruct x as ((units & a) & v). cbn [attrText].
  rewrite !length_app. simpl. lia.
Qed.

(** [consumeAttrs] on a run of attributes, each written as a name, an equals
    sign and a value between double quotes, after any white space, followed
    by [>] or [/>]: every attribute is appended
    with its name split at the first colon and its value as written between
    the quotes — the value may hold [>], [=], [/] and white space — and what
    follows the [>] is returned; [/>] also sets [SelfClosing]. *)
Theorem consumeAttrs_parses_quoted_attributes
  (k : Token) (l0 : list Attr) (l : list (list bytes * bytes * bytes))
  (units : list bytes) (rest : bytes)
  (Hk : Token_Attrs k = Some l0) (Hl : Forall attrOK l)
  (Hunits : Forall spaceUnit units) :
  consumeAttrs k (attrsText l ++ List.concat units ++ GT :: rest)
  = Ok (rest, set_Attrs k (Some (l0 ++ map attrOf l))) /\
  consumeAttrs k (attrsText l ++ List.concat units ++ SLASH :: GT :: rest)
  = Ok (rest, set_SelfClosing (set_Attrs k (Some (l0 ++ map attrOf l))) true).
Proof.
  unfold consumeAttrs. split.
  - pose proof (attrsText_length l) as Hlen.
    set (b := attrsText l ++ List.concat units ++ GT :: rest).
    assert (Hb : (List.length l <= List.length b)%nat)
      by (unfold b; rewrite length_app; lia).
    replace (S (List.length b)) with (List.length l + S (List.length b - List.length l))%nat by lia.
    unfold b. rewrite consumeAttrs_loop_many by exact Hl.
    rewrite (proj1 (consumeAttrs_loop_end _ _ units rest Hunits)).
    rewrite (fold_appendAttr _ _ _ Hk). reflexivity.
  - pose proof (attrsText_length l) as Hlen.
    set (b := attrsText l ++ List.concat units ++ SLASH :: GT :: rest).
    assert (Hb : (List.length l <= List.length b)%nat)
      by (unfold b; rewrite length_app; lia).
    replace (S (List.length b)) with (List.length l + S (List.length b - List.length l))%nat by lia.
    unfold b. rewrite consumeAttrs_loop_many by exact Hl.
    rewrite (proj2 (consumeAttrs_loop_end _ _ units rest Hunits)).
    rewrite (fold_appendAttr _ _ _ Hk). reflexivity.
Qed.

Lemma consumeAttrs_parses_quoted_attributes_witness :
  let k := set_Attrs zeroToken (Some []) in
  let l := [([[SP]], str "path", str "foo>bar=baz/")] in
  Token_Attrs k = Some [] /\ Forall attrOK l /\ Forall spaceUnit [] /\
  consumeAttrs k (attrsText l ++ List.concat [] ++ GT :: str "text")
  = Ok (str "text", set_Attrs k (Some ([] ++ map attrOf l))).
Proof.
  intros k l.
  assert (Hk : Token_Attrs k = Some []) by reflexivity.
  assert (Hu : Forall spaceUnit []) by constructor.
  assert (Hl : Forall attrOK l).
  { constructor; [| constructor]. unfold attrOK.
    split; [repeat constructor |].
    split; [repeat constructor |].
    split; [repeat constructor |].
    intros H. simpl in H. repeat (destruct H as [H | H]; [discriminate |]). exact H. }
  split; [exact Hk | split; [exact Hl | split; [exact Hu |]]].
  exact (proj1 (consumeAttrs_parses_quoted_attributes k [] l [] (str "text") Hk Hl Hu)).
Defined.

(** [consumeAttrs] panics when the text after an equals sign holds no pair
    of double quotes: an attribute value written without quotes or between
    single quotes takes the slice bounds out of range. *)
Theorem consumeAttrs_panics_without_quotes (k : Token) (pre rest : bytes)
  (Hpre : noneOf attrEnd pre)
  (Hrest : ~ In QUOTE rest \/
           exists r1 r2, rest = r1 ++ QUOTE :: r2 /\ ~ In QUOTE r1 /\ ~ In QUOTE r2) :
  consumeAttrs k (pre ++ EQUALS :: rest) = Panic.
Proof.
  unfold consumeAttrs. cbn [consumeAttrs_loop].
  rewrite (IndexAny_first _ _ attrEnd EQUALS Hpre eq_refl).
  rewrite index_at_len. cbn [bind]. change (Byte.eqb EQUALS GT) with false. cbv iota.
  rewrite sliceTo_prefix. cbn [bind].
  replace (len pre + 1) with (len (pre ++ [EQUALS]))
    by (rewrite len_app, len_cons, len_nil; lia).
  replace (pre ++ EQUALS :: rest) with ((pre ++ [EQUALS]) ++ rest) by list_assoc.
  rewrite sliceFrom_suffix. cbn [bind].
  destruct Hrest as [Hno | (r1 & r2 & -> & H1 & H2)].
  - rewrite (IndexByte_absent _ _ Hno). change (-1 + 1) with 0.
    rewrite sliceFrom_0. cbn [bind]. rewrite (IndexByte_absent _ _ Hno).
    reflexivity.
  - rewrite (IndexByte_first r1 r2 QUOTE H1).
    replace (len r1 + 1) with (len (r1 ++ [QUOTE]))
      by (rewrite len_app, len_cons, len_nil; lia).
    replace (r1 ++ QUOTE :: r2) with ((r1 ++ [QUOTE]) ++ r2) by list_assoc.
    rewrite sliceFrom_suffix. cbn [bind]. rewrite (IndexByte_absent _ _ H2).
    unfold slice.
    assert (E : (len (r1 ++ [QUOTE]) <=? len r1 + -1 + 1) = false).
    { apply Z.leb_gt. rewrite (len_app r1 [QUOTE]), len_cons, len_nil. lia. }
    rewrite E, andb_false_r. reflexivity.
Qed.

Lemma consumeAttrs_panics_without_quotes_witness :
  noneOf attrEnd (str " b") /\ ~ In QUOTE (str "'c'>") /\
  consumeAttrs zeroToken (str " b" ++ EQUALS :: str "'c'>") = Panic.
Proof.
  assert (Hpre : noneOf attrEnd (str " b")) by (repeat constructor).
  assert (Hno : ~ In QUOTE (str "'c'>")).
  { intros H. simpl in H. repeat (destruct H as [H | H]; [discriminate |]). exact H. }
  split; [exact Hpre | split; [exact Hno |]].
  exact (consumeAttrs_panics_without_quotes zeroToken _ _ Hpre (or_introl Hno)).
Defined.

(** ** [Token] *)

(** [Token] never returns a token together with an error: with an error the
    token is the zero value. *)
Theorem Token_error_has_zero_token (t t' : Tokenizer) (k : Token) (e : error)
  (H : Token_ t = Ok (k, Some e, t')) : k = zeroToken.
Proof.
  unfold Token_ in H. destruct (err t) as [e0 |]; [inversion H; reflexivity |].
  apply bind_Ok in H. destruct H as (((b & e1) & t1) & _ & H).
  destruct e1 as [e1 |]; simpl in H.
  - destruct (_ || _); [inversion H; reflexivity |].
    destruct (consumeNonTagIdentifier _ b) as (b' & k1).
    apply bind_Ok in H. destruct H as (k2 & _ & H). inversion H.
  - destruct (consumeNonTagIdentifier _ b) as (b' & k1).
    apply bind_Ok in H. destruct H as (k2 & _ & H). inversion H.
Qed.

Lemma Token_error_has_zero_token_witness :
  let t := freshTokenizer (str "<a") [WithReadBufferSize 1] in
  Token_ t = Ok (tokenOf t, Some (ErrBytePos 2 ErrUnexpectedEOF), afterToken t) /\
  tokenOf t = zeroToken.
Proof.
  intros t.
  assert (H : Token_ t = Ok (tokenOf t, Some (ErrBytePos 2 ErrUnexpectedEOF), afterToken t))
    by (vm_compute; reflexivity).
  split; [exact H |].
  exact (Token_error_has_zero_token t (afterToken t) (tokenOf t) _ H).
Defined.

(** When [RawToken] returns a span that starts with [<?] or [<!], [Token]
    returns it whole as the data of a token with no name and no attribute,
    marked self-closing, and decomposes nothing. *)
Theorem Token_non_tag_span (t t1 : Tokenizer) (b : bytes)
  (HR : RawToken t = Ok (Some b, None, t1))
  (Hb : firstn 2 b = str "<?" \/ firstn 2 b = str "<!") :
  Token_ t
  = Ok (nonTagToken b, None,
        set_token t1 (set_SelfClosing (set_Data (clearToken (token t1)) (Some b)) true)).
Proof.
  unfold Token_. destruct (err t) as [e |] eqn:E.
  { unfold RawToken in HR. rewrite E in HR. discriminate. }
  rewrite HR. cbn [bind]. cbv iota. cbn [consumeNonTagIdentifier].
  assert (Hlen : (len b <? 2) = false).
  { apply Z.ltb_ge. unfold len. destruct b as [| x [| y b]];
      destruct Hb as [Hb | Hb]; try discriminate; simpl List.length; lia. }
  rewrite Hlen.
  assert (Hneg : negb (bytes_eqb (firstn 2 b) (str "<?")) &&
                 negb (bytes_eqb (firstn 2 b) (str "<!")) = false).
  { destruct Hb as [Hb | Hb]; rewrite Hb; reflexivity. }
  rewrite Hneg. cbn [orb glen]. change (0 >? 0) with false. cbv iota. cbn [bind].
  assert (Hpos : (len b =? 0) = false) by (apply Z.eqb_neq; apply Z.ltb_ge in Hlen; lia).
  unfold nonTagToken, set_SelfClosing, set_Data, set_Attrs, clearToken.
  cbn [Token_Attrs Token_Data Token_Name Token_SelfClosing Token_IsEndElement glen].
  destruct (Token_Attrs (token t1)); cbn [len List.length Z.of_nat Z.eqb];
    cbn [Token_Attrs Token_Data Token_Name Token_SelfClosing Token_IsEndElement glen];
    rewrite Hpos; reflexivity.
Qed.

Lemma Token_non_tag_span_witness :
  let t := freshTokenizer (str "<!-- a > b --><x/>") [WithReadBufferSize 1] in
  RawToken t = Ok (Some (str "<!-- a > b -->"), None, afterRawToken t) /\
  Token_Data (tokenOf t) = Some (str "<!-- a > b -->").
Proof.
  intros t.
  assert (HR : RawToken t = Ok (Some (str "<!-- a > b -->"), None, afterRawToken t))
    by (vm_compute; reflexivity).
  split; [exact HR |].
  unfold tokenOf.
  rewrite (Token_non_tag_span t (afterRawToken t) _ HR (or_intror eq_refl)).
  reflexivity.
Defined.

(** ** [consumeTagName] *)

Lemma noneOf_nameEnd_noSpace (l : bytes) : noneOf nameEnd l -> noSpace l.
Proof.
  unfold noneOf, noSpace. apply Forall_impl. intros c H.
  destruct (isSpace c) eqn:E; [| reflexivity].
  destruct (isSpace_cases c E) as [-> | [-> | [-> | ->]]]; discriminate.
Qed.

Lemma trim_noSpace (a : bytes) : noSpace a -> trim a = a.
Proof. intros H. apply (trim_units_noSpace [] a (Forall_nil _) H). Qed.

Lemma index_0 (c : byte) (m : bytes) : index (c :: m) 0 = Ok c.
Proof. exact (index_at_len [] m c). Qed.

(** What [consumeTagName] does once the leading [<] and [/] are gone. *)
Definition consumeTagName_scan (k : Token) (b : bytes) : res (bytes * Token) :=
  let pos := IndexAny b nameEnd in
  do back <-
    (do c <- index_is b pos GT;
     andr c (andr (len b >? 1) (index_is b (pos - 1) SLASH)));
  let pos := if (back : bool) then pos - 1 else pos in
  do nm <- sliceTo b pos;
  do b <- sliceFrom b pos;
  Ok (b, set_Name k (splitName (trim nm))).

Lemma consumeTagName_start (k : Token) (c0 : byte) (m : bytes) :
  c0 <> SLASH ->
  consumeTagName k (LT :: c0 :: m) = consumeTagName_scan k (c0 :: m).
Proof.
  intros H. unfold consumeTagName. rewrite sliceFrom_1. cbn [bind].
  rewrite index_0. cbn [bind].
  apply byte_eqb_neq in H. rewrite H. reflexivity.
Qed.

Lemma consumeTagName_end (k : Token) (m : bytes) :
  consumeTagName k (LT :: SLASH :: m)
  = consumeTagName_scan (set_IsEndElement k true) m.
Proof.
  unfold consumeTagName. rewrite sliceFrom_1. cbn [bind].
  rewrite index_0. cbn [bind].
  change (Byte.eqb SLASH SLASH) with true. cbv iota.
  rewrite sliceFrom_1. reflexivity.
Qed.

Lemma scan_name_then (k : Token) (name rest : bytes) (c : byte) :
  noneOf nameEnd name -> mem c nameEnd = true ->
  name <> [] -> (forall f, name <> f ++ [SLASH]) ->
  consumeTagName_scan k (name ++ c :: rest)
  = Ok (c :: rest, set_Name k (splitName name)).
Proof.
  intros Hname Hc Hne Hlast. unfold consumeTagName_scan.
  rewrite (IndexAny_first _ _ nameEnd c Hname Hc).
  unfold index_is at 1. rewrite index_at_len. cbn [bind].
  assert (Hback : andr (Byte.eqb c GT)
                    (andr (len (name ++ c :: rest) >? 1)
                       (index_is (name ++ c :: rest) (len name - 1) SLASH)) = Ok false).
  { destruct (Byte.eqb c GT) eqn:EGT; [| reflexivity].
    apply byte_eqb_eq in EGT. cbn [andr].
    destruct (len (name ++ c :: rest) >? 1) eqn:Elen; [| reflexivity].
    cbn [andr]. unfold index_is.
    destruct (exists_last Hne) as (f & x & E).
    assert (Hx : x <> SLASH).
    { intros ->. apply (Hlast f). exact E. }
    rewrite E. rewrite <- app_assoc. cbn [app].
    replace (len (f ++ [x]) - 1) with (len f)
      by (rewrite len_app, len_cons, len_nil; lia).
    rewrite index_at_len. cbn [bind]. apply byte_eqb_neq in Hx. rewrite Hx.
    reflexivity. }
  rewrite Hback. cbn [bind]. cbv iota.
  rewrite sliceTo_prefix, sliceFrom_suffix. cbn [bind].
  rewrite trim_noSpace by (apply noneOf_nameEnd_noSpace; exact Hname).
  reflexivity.
Qed.

Lemma scan_name_slash (k : Token) (name rest : bytes) :
  noneOf nameEnd name ->
  consumeTagName_scan k (name ++ SLASH :: GT :: rest)
  = Ok (SLASH :: GT :: rest, set_Name k (splitName name)).
Proof.
  intros Hname. unfold consumeTagName_scan.
  assert (Hpre : noneOf nameEnd (name ++ [SLASH])).
  { apply Forall_app. split; [exact Hname | repeat constructor]. }
  replace (name ++ SLASH :: GT :: rest) with ((name ++ [SLASH]) ++ GT :: rest)
    by list_assoc.
  rewrite (IndexAny_first _ _ nameEnd GT Hpre eq_refl).
  unfold index_is at 1. rewrite index_at_len. cbn [bind].
  change (Byte.eqb GT GT) with true. cbn [andr].
  pose proof (len_nonneg name) as Hn. pose proof (len_nonneg rest) as Hr.
  replace (len ((name ++ [SLASH]) ++ GT :: rest) >? 1) with true.
  2:{ symmetry. apply Z.gtb_lt. rewrite !len_app, !len_cons, len_nil. lia. }
  cbn [andr]. unfold index_is.
  replace (len (name ++ [SLASH]) - 1) with (len name)
    by (rewrite len_app, len_cons, len_nil; lia).
  rewrite <- app_assoc. cbn [app]. rewrite index_at_len. cbn [bind].
  change (Byte.eqb SLASH SLASH) with true. cbv iota.
  replace (len (name ++ [SLASH]) - 1) with (len name)
    by (rewrite len_app, len_cons, len_nil; lia).
  rewrite sliceTo_prefix, sliceFrom_suffix. cbn [bind].
  rewrite trim_noSpace by (apply noneOf_nameEnd_noSpace; exact Hname).
  reflexivity.
Qed.

(** [consumeTagName] on a span that starts with [<] and a name free of [>]
    and white space that does not end with [/]: the name is stored, split at
    its first colon, and the rest of the span is returned from the byte that
    ends the name.  A [/] right after the [<] marks an end element; a [/]
    right before the [>] is left in front of the rest, for [consumeAttrs] to
    see. *)
Theorem consumeTagName_spec (k : Token) (c0 : byte) (name rest : bytes)
  (Hc0 : c0 <> SLASH) (Hname : noneOf nameEnd (c0 :: name))
  (Hlast : forall f, c0 :: name <> f ++ [SLASH]) :
  (forall c, mem c nameEnd = true ->
     consumeTagName k (LT :: c0 :: name ++ c :: rest)
     = Ok (c :: rest, set_Name k (splitName (c0 :: name)))) /\
  consumeTagName k (LT :: c0 :: name ++ SLASH :: GT :: rest)
  = Ok (SLASH :: GT :: rest, set_Name k (splitName (c0 :: name))) /\
  consumeTagName k (LT :: SLASH :: c0 :: name ++ GT :: rest)
  = Ok (GT :: rest,
        set_Name (set_IsEndElement k true) (splitName (c0 :: name))).
Proof.
  split; [| split].
  - intros c Hc. rewrite consumeTagName_start by exact Hc0.
    apply (scan_name_then k (c0 :: name) rest c Hname Hc); [discriminate | exact Hlast].
  - rewrite consumeTagName_start by exact Hc0.
    apply (scan_name_slash k (c0 :: name) rest Hname).
  - rewrite consumeTagName_end.
    apply (scan_name_then _ (c0 :: name) rest GT Hname eq_refl);
      [discriminate | exact Hlast].
Qed.

Lemma consumeTagName_spec_witness :
  "t"%byte <> SLASH /\ noneOf nameEnd (str "tag:name") /\
  consumeTagName zeroToken (LT :: str "tag:name" ++ SP :: str "a=1>")
  = Ok (SP :: str "a=1>", set_Name zeroToken (splitName (str "tag:name"))).
Proof.
  assert (Hc0 : "t"%byte <> SLASH) by discriminate.
  assert (Hname : noneOf nameEnd (str "tag:name")) by (repeat constructor).
  assert (Hlast : forall f, str "tag:name" <> f ++ [SLASH]).
  { intros f E. apply (f_equal (@rev byte)) in E. rewrite rev_app_distr in E.
    simpl in E. discriminate. }
  split; [exact Hc0 | split; [exact Hname |]].
  exact (proj1 (consumeTagName_spec zeroToken "t"%byte (str "ag:name") (str "a=1>")
                  Hc0 Hname Hlast) SP eq_refl).
Defined.

(** ** The growable buffer *)

Lemma sliceFrom_in_range (b : bytes) (lo : Z) :
  0 <= lo <= len b -> sliceFrom b lo = Ok (skipn (Z.to_nat lo) b).
Proof.
  intros H. unfold sliceFrom, slice.
  replace (0 <=? lo) with true by (symmetry; apply Z.leb_le; lia).
  replace (lo <=? len b) with true by (symmetry; apply Z.leb_le; lia).
  replace (len b <=? len b) with true by (symmetry; apply Z.leb_le; lia).
  cbn [andb]. f_equal. apply firstn_all2. rewrite length_skipn. unfold len. lia.
Qed.

Lemma sliceFrom_out_of_range (b : bytes) (lo : Z) :
  lo < 0 \/ len b < lo -> sliceFrom b lo = Panic.
Proof.
  intros H. unfold sliceFrom, slice.
  destruct (0 <=? lo) eqn:E1; [| reflexivity].
  destruct (lo <=? len b) eqn:E2; [| reflexivity].
  apply Z.leb_le in E1, E2. lia.
Qed.

Lemma len_skipn (k : Z) (b : bytes) :
  0 <= k <= len b -> len (skipn (Z.to_nat k) b) = len b - k.
Proof. intros H. unfold len in *. rewrite length_skipn. lia. Qed.

Lemma len_firstn (k : nat) (b : bytes) :
  len (firstn k b) = Z.min (Z.of_nat k) (len b).
Proof. unfold len. rewrite length_firstn. lia. Qed.

(** [memmoveRemainingBytes] with a pivot inside the buffer keeps the bytes
    from the pivot on as the whole buffer, puts the cursor at 0, keeps the
    capacity and everything else, and returns 0 and the new length; with
    pivot 0 it changes nothing; with a pivot outside the buffer it panics. *)
Theorem memmoveRemainingBytes_spec (t : Tokenizer) (pivot : Z) :
  (0 < pivot <= len (buf t) ->
   exists t',
     memmoveRemainingBytes t pivot = Ok (0, len (buf t) - pivot, t') /\
     buf t' = skipn (Z.to_nat pivot) (buf t) /\ cur t' = 0 /\ cap t' = cap t /\
     r t' = r t /\ n t' = n t /\ opts t' = opts t /\ err t' = err t /\
     token t' = token t) /\
  (pivot = 0 -> memmoveRemainingBytes t pivot = Ok (cur t, len (buf t), t)) /\
  (pivot < 0 \/ len (buf t) < pivot -> memmoveRemainingBytes t pivot = Panic).
Proof.
  split; [| split].
  - intros H. unfold memmoveRemainingBytes.
    replace (pivot =? 0) with false by (symmetry; apply Z.eqb_neq; lia).
    rewrite sliceFrom_in_range by lia. cbn [bind].
    exists (set_cur (set_buf t (skipn (Z.to_nat pivot) (buf t))
                       (skipn (List.length (skipn (Z.to_nat pivot) (buf t))) (buf t)
                        ++ spare t)) 0).
    split; [| repeat split].
    + cbn [set_cur set_buf cur buf]. rewrite len_skipn by lia. reflexivity.
    + unfold cap. cbn [set_cur set_buf buf spare].
      rewrite len_app, len_skipn by lia.
      unfold len. rewrite !length_skipn. unfold len in H. lia.
  - intros ->. reflexivity.
  - intros H. unfold memmoveRemainingBytes.
    replace (pivot =? 0) with false
      by (symmetry; apply Z.eqb_neq; pose proof (len_nonneg (buf t)); lia).
    rewrite sliceFrom_out_of_range by exact H. reflexivity.
Qed.

Lemma slice_in_range (b : bytes) (lo hi : Z) :
  0 <= lo <= hi -> hi <= len b ->
  slice b lo hi = Ok (firstn (Z.to_nat (hi - lo)) (skipn (Z.to_nat lo) b)).
Proof.
  intros H1 H2. unfold slice.
  replace (0 <=? lo) with true by (symmetry; apply Z.leb_le; lia).
  replace (lo <=? hi) with true by (symmetry; apply Z.leb_le; lia).
  replace (hi <=? len b) with true by (symmetry; apply Z.leb_le; lia).
  reflexivity.
Qed.

Lemma ReadAtLeast1_spec (rd : Reader) (m : Z) :
  1 <= m ->
  ReadAtLeast1 rd m
  = match rdata rd with
    | [] => ([], Some (rfinal rd), rd)
    | _ => (firstn (Z.to_nat m) (rdata rd), None,
            {| rdata := skipn (Z.to_nat m) (rdata rd); rfinal := rfinal rd |})
    end.
Proof.
  intros H. unfold ReadAtLeast1.
  replace (m <? 1) with false by (symmetry; apply Z.ltb_ge; lia). reflexivity.
Qed.

(** What [manageBuffer] does to a tokenizer with a read size of at least 1:
    [e] is the error returned. *)
Definition refilled (t : Tokenizer) (e : option error) (t' : Tokenizer) : Prop :=
  let size := readBufferSize (opts t) in
  let limit := opt_autoGrowBufferMaxLimitSize (opts t) in
  let growSize := len (buf t) + size in
  (e = Some (ErrBufferLimit growSize limit) /\ t' = t /\
   cap t < growSize /\ limit < growSize) \/
  ((growSize <= cap t \/ growSize <= limit) /\
   cur t' = cur t /\ opts t' = opts t /\ err t' = err t /\ token t' = token t /\
   rfinal (r t') = rfinal (r t) /\
   buf t' ++ rdata (r t') = buf t ++ rdata (r t) /\
   n t' - n t = len (buf t') - len (buf t) /\
   cap t' = Z.max (cap t) growSize /\
   ((rdata (r t) = [] /\ e = Some (rfinal (r t)) /\ buf t' = buf t) \/
    (rdata (r t) <> [] /\ e = None /\
     buf t' = buf t ++ firstn (Z.to_nat size) (rdata (r t))))).

Lemma ReadAtLeast1_cases (rd : Reader) (size : Z) :
  1 <= size ->
  forall data e rd', ReadAtLeast1 rd size = (data, e, rd') ->
  rfinal rd' = rfinal rd /\ data ++ rdata rd' = rdata rd /\ len data <= size /\
  ((rdata rd = [] /\ e = Some (rfinal rd) /\ data = []) \/
   (rdata rd <> [] /\ e = None /\ data = firstn (Z.to_nat size) (rdata rd))).
Proof.
  intros Hsize data e rd' H. rewrite (ReadAtLeast1_spec _ _ Hsize) in H.
  destruct (rdata rd) as [| x xs] eqn:Erd; inversion H; subst; clear H.
  - rewrite Erd. repeat split; try reflexivity; [rewrite len_nil; lia |].
    left. repeat split.
  - cbn [rfinal rdata]. split; [reflexivity |].
    split; [apply firstn_skipn |].
    split; [rewrite len_firstn; lia |].
    right. repeat split. discriminate.
Qed.

Lemma refilled_read (t : Tokenizer) (data sp : bytes) (e : option error) (rd' : Reader) :
  let size := readBufferSize (opts t) in
  let growSize := len (buf t) + size in
  1 <= size ->
  ReadAtLeast1 (r t) size = (data, e, rd') ->
  (growSize <= cap t \/ growSize <= opt_autoGrowBufferMaxLimitSize (opts t)) ->
  len (buf t) + len data + len sp = Z.max (cap t) growSize ->
  refilled t e (set_read t rd' (buf t ++ data) sp (len data)).
Proof.
  intros size growSize Hsize Hread Hfit Hcap.
  destruct (ReadAtLeast1_cases _ _ Hsize _ _ _ Hread) as (Hfin & Hdata & Hlen & Hcases).
  unfold refilled. right. fold size. fold growSize.
  split; [exact Hfit |].
  cbn [set_read cur opts err token r buf n].
  split; [reflexivity |]. split; [reflexivity |]. split; [reflexivity |].
  split; [reflexivity |]. split; [exact Hfin |].
  split; [rewrite <- app_assoc, Hdata; reflexivity |].
  split; [rewrite len_app; lia |].
  split; [unfold cap at 1; cbn [set_read buf spare]; rewrite len_app; exact Hcap |].
  destruct Hcases as [(H1 & H2 & H3) | (H1 & H2 & H3)].
  - left. subst data. rewrite app_nil_r. repeat split; assumption.
  - right. subst data. repeat split; assumption.
Qed.

(** [manageBuffer], for a read size of at least 1.  When the grown size
    exceeds both the capacity and the ceiling, it returns the limit error and
    leaves the tokenizer as it is.  Otherwise it appends to the buffer the
    next bytes of the reader, at most the read size, and adds their number to
    the byte counter: no byte is lost or reordered, the capacity becomes the
    grown size when that is larger, and the reader's final error is returned
    with nothing appended once the reader is used up. *)
Theorem manageBuffer_spec (t : Tokenizer) (Hsize : 1 <= readBufferSize (opts t)) :
  exists e t', manageBuffer t = Ok (e, t') /\ refilled t e t'.
Proof.
  unfold manageBuffer.
  pose proof (len_nonneg (buf t)) as Hb. pose proof (len_nonneg (spare t)) as Hs.
  replace (len (buf t) + readBufferSize (opts t) - len (buf t))
    with (readBufferSize (opts t)) by lia.
  destruct (ReadAtLeast1 (r t) (readBufferSize (opts t))) as ((data & e) & rd') eqn:Hread.
  destruct (ReadAtLeast1_cases _ _ Hsize _ _ _ Hread) as (_ & _ & Hlen & _).
  pose proof (len_nonneg data) as Hd.
  destruct (len (buf t) + readBufferSize (opts t) <=? cap t) eqn:Ecap.
  - apply Z.leb_le in Ecap. unfold cap in Ecap.
    rewrite slice_in_range by (rewrite ?len_app; lia). cbn [bind].
    rewrite slice_in_range.
    2:{ lia. }
    2:{ rewrite len_firstn, skipn_O, len_app. lia. }
    cbn [bind]. eexists _, _. split; [reflexivity |].
    apply refilled_read; [exact Hsize | exact Hread | left; unfold cap; lia |].
    rewrite len_skipn by lia. unfold cap. lia.
  - apply Z.leb_gt in Ecap.
    destruct (len (buf t) + readBufferSize (opts t) >? opt_autoGrowBufferMaxLimitSize (opts t))
      eqn:Elim.
    + apply Z.gtb_lt in Elim. eexists _, _. split; [reflexivity |].
      unfold refilled. left. repeat split; lia.
    + assert (Hlim : len (buf t) + readBufferSize (opts t)
                     <= opt_autoGrowBufferMaxLimitSize (opts t)).
      { destruct (Z.gtb_spec (len (buf t) + readBufferSize (opts t))
                    (opt_autoGrowBufferMaxLimitSize (opts t))); [discriminate | lia]. }
      eexists _, _. split; [reflexivity |].
      apply refilled_read; [exact Hsize | exact Hread | right; exact Hlim |].
      unfold zeros, len at 3. rewrite repeat_length. lia.
Qed.

Lemma manageBuffer_spec_witness :
  let t := freshTokenizer (str "<a/>") [WithReadBufferSize 3] in
  1 <= readBufferSize (opts t) /\
  exists e t', manageBuffer t = Ok (e, t') /\ refilled t e t'.
Proof.
  intros t.
  assert (H : 1 <= readBufferSize (opts t)) by (vm_compute; intros E; discriminate E).
  split; [exact H |].
  exact (manageBuffer_spec t H).
Defined.

(** ** [Reset] and [New] *)


Lemma len_zeros (k : Z) : 0 <= k -> len (zeros k) = k.
Proof. intros H. unfold zeros, len. rewrite repeat_length. lia. Qed.



(** ** One turn of the loop of [findTokenEnd] *)

(** What a turn of the loop decides: return, go on from a new [left], or
    resolve the nested construct at a new pivot first. *)
Inductive turn : Type :=
| Return (r : res Z)
| Continue (left : Z)
| Nested (pivot : Z).

Definition tbind {A : Type} (m : res A) (f : A -> turn) : turn :=
  match m with
  | Ok a => f a
  | Panic => Return Panic
  | OutOfFuel => Return OutOfFuel
  end.

Definition findTokenEnd_turn (b : bytes) (pivot left : Z) : turn :=
  tbind (sliceFrom b left) (fun tl =>
  let p := IndexByte tl GT in
  if p =? -1 then Return (Ok (-1))
  else
    let right := left + p + 1 in
    let quoted :=
      tbind (slice b left right) (fun seg =>
      if Count seg QUOTE mod 2 =? 0 then Return (Ok right)
      else
        tbind (sliceFrom b right) (fun tl2 =>
        let q := IndexByte tl2 QUOTE in
        if q =? -1 then Return (Ok (-1))
        else Continue (right + q + 1))) in
    tbind (index b (pivot + 1)) (fun c =>
    if Byte.eqb c QMARK then
      tbind (andr (right >=? pivot + 3) (index_is b (right - 2) QMARK)) (fun closed =>
      if (closed : bool) then Return (Ok right) else Continue right)
    else if Byte.eqb c BANG then
      tbind (andr (len b >? pivot + 4)
               (do d1 <- index_is b (pivot + 2) DASH;
                andr d1 (index_is b (pivot + 3) DASH))) (fun comment =>
      if (comment : bool) then
        tbind (andr (right >=? pivot + 6)
                 (do d1 <- index_is b (right - 3) DASH;
                  andr d1 (index_is b (right - 2) DASH))) (fun closed =>
        if (closed : bool) then Return (Ok right) else Continue right)
      else
        tbind (slice b (left + 1) (right - 1)) (fun inner =>
        let p2 := IndexByte inner LT in
        if negb (p2 =? -1) then Nested (left + p2 + 1) else quoted))
    else quoted)).

Lemma findTokenEnd_loop_turn (fuel : nat) (b : bytes) (pivot left : Z) :
  findTokenEnd_loop (S fuel) b pivot left
  = match findTokenEnd_turn b pivot left with
    | Return r => r
    | Continue l => findTokenEnd_loop fuel b pivot l
    | Nested p =>
        do l <- findTokenEnd_loop fuel b p (p + 1);
        if l =? -1 then Ok (-1) else findTokenEnd_loop fuel b pivot l
    end.
Proof.
  cbn [findTokenEnd_loop]. unfold findTokenEnd_turn.
  destruct (sliceFrom b left) as [tl | |]; cbn [bind tbind]; try reflexivity.
  destruct (IndexByte tl GT =? -1); [reflexivity |].
  destruct (index b (pivot + 1)) as [c | |]; cbn [bind tbind]; try reflexivity.
  assert (Hq :
    (do seg <- slice b left (left + IndexByte tl GT + 1);
     if Count seg QUOTE mod 2 =? 0 then Ok (left + IndexByte tl GT + 1)
     else
       do tl2 <- sliceFrom b (left + IndexByte tl GT + 1);
       if IndexByte tl2 QUOTE =? -1 then Ok (-1)
       else findTokenEnd_loop fuel b pivot
              (left + IndexByte tl GT + 1 + IndexByte tl2 QUOTE + 1))
    = match
        tbind (slice b left (left + IndexByte tl GT + 1)) (fun seg =>
        if Count seg QUOTE mod 2 =? 0 then Return (Ok (left + IndexByte tl GT + 1))
        else
          tbind (sliceFrom b (left + IndexByte tl GT + 1)) (fun tl2 =>
          if IndexByte tl2 QUOTE =? -1 then Return (Ok (-1))
          else Continue (left + IndexByte tl GT + 1 + IndexByte tl2 QUOTE + 1)))
      with
      | Return r => r
      | Continue l => findTokenEnd_loop fuel b pivot l
      | Nested p =>
          do l <- findTokenEnd_loop fuel b p (p + 1);
          if l =? -1 then Ok (-1) else findTokenEnd_loop fuel b pivot l
      end).
  { destruct (slice b left (left + IndexByte tl GT + 1)) as [seg | |];
      cbn [bind tbind]; try reflexivity.
    destruct (Count seg QUOTE mod 2 =? 0); [reflexivity |].
    destruct (sliceFrom b (left + IndexByte tl GT + 1)) as [tl2 | |];
      cbn [bind tbind]; try reflexivity.
    destruct (IndexByte tl2 QUOTE =? -1); reflexivity. }
  destruct (Byte.eqb c QMARK).
  - destruct (andr _ _) as [closed | |]; cbn [bind tbind]; try reflexivity.
    destruct closed; reflexivity.
  - destruct (Byte.eqb c BANG); [| exact Hq].
    destruct (andr (len b >? pivot + 4) _) as [comment | |]; cbn [bind tbind];
      try reflexivity.
    destruct comment.
    + destruct (andr _ _) as [closed | |]; cbn [bind tbind]; try reflexivity.
      destruct closed; reflexivity.
    + destruct (slice b (left + 1) (left + IndexByte tl GT + 1 - 1)) as [inner | |];
        cbn [bind tbind]; try reflexivity.
      destruct (negb (IndexByte inner LT =? -1)); [reflexivity | exact Hq].
Qed.

Lemma index_not_fuel (b : bytes) (i : Z) : index b i <> OutOfFuel.
Proof.
  unfold index. destruct (_ && _); [| discriminate].
  destruct (nth_error b (Z.to_nat i)); discriminate.
Qed.

Lemma slice_not_fuel (b : bytes) (lo hi : Z) : slice b lo hi <> OutOfFuel.
Proof. unfold slice. destruct (_ && _); discriminate. Qed.

Lemma index_is_not_fuel (b : bytes) (i : Z) (c : byte) : index_is b i c <> OutOfFuel.
Proof.
  unfold index_is. destruct (index b i) eqn:E; cbn [bind]; try discriminate.
  exfalso. apply (index_not_fuel _ _ E).
Qed.

Lemma andr_not_fuel (a : bool) (m : res bool) : m <> OutOfFuel -> andr a m <> OutOfFuel.
Proof. destruct a; simpl; [auto | discriminate]. Qed.

Lemma andr2_not_fuel (a : bool) (b : bytes) (i j : Z) (c d : byte) :
  andr a (do d1 <- index_is b i c; andr d1 (index_is b j d)) <> OutOfFuel.
Proof.
  apply andr_not_fuel. destruct (index_is b i c) as [x | |] eqn:E; cbn [bind].
  - apply andr_not_fuel. apply index_is_not_fuel.
  - discriminate.
  - exfalso. apply (index_is_not_fuel _ _ _ E).
Qed.

Lemma IndexByte_split (tl : bytes) (c : byte) :
  IndexByte tl c <> -1 ->
  exists s rest, tl = s ++ c :: rest /\ ~ In c s /\ IndexByte tl c = len s.
Proof.
  induction tl as [| x tl IH]; cbn [IndexByte]; intros H; [congruence |].
  destruct (Byte.eqb x c) eqn:E.
  - apply byte_eqb_eq in E. subst x. exists [], tl. repeat split. intros [].
  - destruct (IndexByte tl c <? 0) eqn:E2; [congruence |].
    apply Z.ltb_ge in E2.
    destruct IH as (s & rest & -> & Hs & Hi); [lia |].
    exists (x :: s), rest. split; [reflexivity |]. split.
    + intros [-> | Hin]; [| contradiction].
      rewrite byte_eqb_refl in E. discriminate.
    + rewrite Hi, len_cons. lia.
Qed.

Lemma skipn_split (b : bytes) (k : nat) (s rest : bytes) :
  skipn k b = s ++ rest -> (k <= List.length b)%nat ->
  b = firstn k b ++ s ++ rest /\ List.length (firstn k b) = k.
Proof.
  intros H Hk. split; [rewrite <- H; symmetry; apply firstn_skipn |].
  apply firstn_length_le. exact Hk.
Qed.

(** The next [>] at or after [left], when there is one: the bytes before
    it, from [left], hold no [>]. *)
Lemma next_GT (b : bytes) (left : Z) :
  0 <= left <= len b ->
  IndexByte (skipn (Z.to_nat left) b) GT <> -1 ->
  exists pre s rest,
    b = pre ++ s ++ GT :: rest /\ len pre = left /\ ~ In GT s /\
    IndexByte (skipn (Z.to_nat left) b) GT = len s.
Proof.
  intros Hl Hp. destruct (IndexByte_split _ _ Hp) as (s & rest & E & Hs & Hi).
  destruct (skipn_split b (Z.to_nat left) s (GT :: rest) E) as (Hb & Hlen);
    [unfold len in Hl; lia |].
  exists (firstn (Z.to_nat left) b), s, rest.
  split; [exact Hb |]. split; [unfold len; lia |]. split; assumption.
Qed.

Definition turn_ok (b : bytes) (left : Z) (x : turn) : Prop :=
  match x with
  | Return (Ok z) => z = -1 \/ (left < z <= len b /\ index b (z - 1) = Ok GT)
  | Return Panic => True
  | Return OutOfFuel => False
  | Continue l => left < l <= len b
  | Nested p => left < p /\ p + 1 < len b
  end.

Lemma tbind_ok {A : Type} (b : bytes) (left : Z) (m : res A) (f : A -> turn) :
  m <> OutOfFuel -> (forall a, m = Ok a -> turn_ok b left (f a)) ->
  turn_ok b left (tbind m f).
Proof.
  intros Hm Hf. destruct m; cbn [tbind turn_ok]; [apply Hf; reflexivity | exact I |].
  apply Hm. reflexivity.
Qed.

Lemma findTokenEnd_turn_ok (b : bytes) (pivot left : Z) :
  0 <= pivot -> pivot + 1 <= left <= len b ->
  turn_ok b left (findTokenEnd_turn b pivot left).
Proof.
  intros Hp Hl. unfold findTokenEnd_turn.
  rewrite sliceFrom_in_range by lia. cbn [tbind].
  destruct (IndexByte (skipn (Z.to_nat left) b) GT =? -1) eqn:Ep.
  { left. reflexivity. }
  apply Z.eqb_neq in Ep.
  destruct (next_GT b left ltac:(lia) Ep) as (pre & s & rest & Hb & Hpre & Hs & Hi).
  rewrite Hi. clear Ep Hi.
  assert (Hlen : len b = left + len s + 1 + len rest).
  { rewrite Hb, !len_app, len_cons. lia. }
  pose proof (len_nonneg s) as Hs0. pose proof (len_nonneg rest) as Hr0.
  assert (Hgt : index b (left + len s + 1 - 1) = Ok GT).
  { rewrite Hb. replace (left + len s + 1 - 1) with (len (pre ++ s))
      by (rewrite len_app; lia).
    rewrite app_assoc. apply index_at_len. }
  assert (Hacc : turn_ok b left (Return (Ok (left + len s + 1)))).
  { right. split; [lia | exact Hgt]. }
  assert (Hquoted : turn_ok b left
    (tbind (slice b left (left + len s + 1)) (fun seg =>
     if Count seg QUOTE mod 2 =? 0 then Return (Ok (left + len s + 1))
     else
       tbind (sliceFrom b (left + len s + 1)) (fun tl2 =>
       if IndexByte tl2 QUOTE =? -1 then Return (Ok (-1))
       else Continue (left + len s + 1 + IndexByte tl2 QUOTE + 1))))).
  { apply tbind_ok; [apply slice_not_fuel |]. intros seg _.
    destruct (Count seg QUOTE mod 2 =? 0); [exact Hacc |].
    rewrite sliceFrom_in_range by lia. cbn [tbind].
    destruct (IndexByte_nonneg_or (skipn (Z.to_nat (left + len s + 1)) b) QUOTE)
      as [E | E].
    - rewrite E. left. reflexivity.
    - destruct (_ =? -1) eqn:E2; [left; reflexivity |].
      cbn [turn_ok]. rewrite len_skipn in E by lia. lia. }
  apply tbind_ok; [apply index_not_fuel |]. intros c _.
  destruct (Byte.eqb c QMARK).
  { apply tbind_ok; [apply andr_not_fuel, index_is_not_fuel |].
    intros closed _. destruct closed; [exact Hacc | cbn [turn_ok]; lia]. }
  destruct (Byte.eqb c BANG); [| exact Hquoted].
  apply tbind_ok; [apply andr2_not_fuel |]. intros comment _.
  destruct comment.
  { apply tbind_ok; [apply andr2_not_fuel |].
    intros closed _. destruct closed; [exact Hacc | cbn [turn_ok]; lia]. }
  apply tbind_ok; [apply slice_not_fuel |]. intros inner Hinner.
  destruct (negb (IndexByte inner LT =? -1)) eqn:E; [| exact Hquoted].
  cbn [turn_ok].
  unfold slice in Hinner. destruct (_ && _) eqn:Hrange; [| discriminate].
  inversion Hinner; subst inner. clear Hinner.
  apply andb_true_iff in Hrange. destruct Hrange as (Hrange & H3).
  apply andb_true_iff in Hrange. destruct Hrange as (H1 & H2).
  apply Z.leb_le in H1, H2, H3.
  match type of E with
  | negb (IndexByte ?l LT =? -1) = true =>
      destruct (IndexByte_nonneg_or l LT) as [E2 | E2];
        [rewrite E2 in E; discriminate |];
      assert (Hl2 : len l <= left + len s + 1 - 1 - (left + 1))
  end.
  { rewrite len_firstn. lia. }
  lia.
Qed.

Definition result_ok (b : bytes) (left : Z) (x : res Z) : Prop :=
  match x with
  | Ok z => z = -1 \/ (left < z <= len b /\ index b (z - 1) = Ok GT)
  | Panic => True
  | OutOfFuel => False
  end.

Lemma findTokenEnd_loop_ok (fuel : nat) :
  forall (b : bytes) (pivot left : Z),
  0 <= pivot -> pivot + 1 <= left <= len b -> len b - left < Z.of_nat fuel ->
  result_ok b left (findTokenEnd_loop fuel b pivot left).
Proof.
  induction fuel as [| fuel IH]; intros b pivot left Hp Hl Hf; [lia |].
  rewrite findTokenEnd_loop_turn.
  pose proof (findTokenEnd_turn_ok b pivot left Hp Hl) as Ht.
  destruct (findTokenEnd_turn b pivot left) as [x | l | p]; cbn [turn_ok] in Ht.
  - destruct x; exact Ht.
  - pose proof (IH b pivot l Hp ltac:(lia) ltac:(lia)) as H.
    destruct (findTokenEnd_loop fuel b pivot l); cbn [result_ok] in *; [| exact I | exact H].
    destruct H as [H | H]; [left; exact H | right; split; [lia | apply H]].
  - pose proof (IH b p (p + 1) ltac:(lia) ltac:(lia) ltac:(lia)) as H.
    destruct (findTokenEnd_loop fuel b p (p + 1)) as [l | |]; cbn [result_ok bind] in *;
      [| exact I | exact H].
    destruct (l =? -1) eqn:El; [left; reflexivity |].
    apply Z.eqb_neq in El. destruct H as [H | (H1 & H2)]; [contradiction |].
    pose proof (IH b pivot l Hp ltac:(lia) ltac:(lia)) as H'.
    destruct (findTokenEnd_loop fuel b pivot l); cbn [result_ok] in *; [| exact I | exact H'].
    destruct H' as [H' | H']; [left; exact H' | right; split; [lia | apply H']].
Qed.

(** [findTokenEnd] at a pivot inside the buffer always comes to a result: it
    panics, or asks for more data with -1, or returns a position after the
    pivot that is just past a [>] of the buffer. *)
Theorem findTokenEnd_result (b : bytes) (pivot : Z)
  (Hpivot : 0 <= pivot < len b) :
  findTokenEnd b pivot = Panic \/
  findTokenEnd b pivot = Ok (-1) \/
  exists z, findTokenEnd b pivot = Ok z /\ pivot + 1 < z <= len b /\
            index b (z - 1) = Ok GT.
Proof.
  unfold findTokenEnd, findTokenEnd_fuel.
  assert (Hf : len b - (pivot + 1) < Z.of_nat (S (List.length b))) by (unfold len; lia).
  pose proof (findTokenEnd_loop_ok (S (List.length b)) b pivot (pivot + 1)
                ltac:(lia) ltac:(lia) Hf) as H.
  destruct (findTokenEnd_loop _ b pivot (pivot + 1)) as [z | |]; cbn [result_ok] in H.
  - destruct H as [-> | H]; [right; left; reflexivity |].
    right. right. exists z. split; [reflexivity | exact H].
  - left. reflexivity.
  - contradiction.
Qed.

Lemma findTokenEnd_result_witness :
  0 <= 0 < len (str "<a>b") /\
  (findTokenEnd (str "<a>b") 0 = Panic \/
   findTokenEnd (str "<a>b") 0 = Ok (-1) \/
   exists z, findTokenEnd (str "<a>b") 0 = Ok z /\ 0 + 1 < z <= len (str "<a>b") /\
             index (str "<a>b") (z - 1) = Ok GT).
Proof.
  assert (H : 0 <= 0 < len (str "<a>b")) by (vm_compute; split; [intros E | ]; congruence).
  split; [exact H |].
  exact (findTokenEnd_result (str "<a>b") 0 H).
Defined.

(** ** The end of an ordinary tag *)

(** The position, counted from the start of [l], after the first [>] of [l]
    that is outside double quotes; [q] tells whether [l] starts inside a
    quoted value. *)
Fixpoint quoteAwareEnd (l : bytes) (q : bool) : option Z :=
  match l with
  | [] => None
  | c :: l' =>
      if Byte.eqb c QUOTE then option_map (Z.add 1) (quoteAwareEnd l' (negb q))
      else if Byte.eqb c GT && negb q then Some 1
      else option_map (Z.add 1) (quoteAwareEnd l' q)
  end.

Definition endAt (left : Z) (o : option Z) : Z :=
  match o with
  | Some k => left + k
  | None => -1
  end.

Lemma endAt_shift (left k : Z) (o : option Z) :
  endAt left (option_map (Z.add k) o) = endAt (left + k) o.
Proof. destruct o; simpl; [lia | reflexivity]. Qed.

Lemma Count_nonneg (s : bytes) (c : byte) : 0 <= Count s c.
Proof. induction s as [| x s IH]; cbn [Count]; [lia |]. destruct (Byte.eqb x c); lia. Qed.

Lemma Count_app (s1 s2 : bytes) (c : byte) : Count (s1 ++ s2) c = Count s1 c + Count s2 c.
Proof. induction s1 as [| x s1 IH]; cbn [Count app]; [reflexivity | rewrite IH; lia]. Qed.

Definition flip (q : bool) (k : Z) : bool := if k mod 2 =? 0 then q else negb q.

Lemma flip_succ (q : bool) (k : Z) : 0 <= k -> flip q (1 + k) = flip (negb q) k.
Proof.
  intros Hk. unfold flip.
  destruct (Z.eqb_spec (k mod 2) 0) as [E1 | E1];
    destruct (Z.eqb_spec ((1 + k) mod 2) 0) as [E2 | E2];
    try reflexivity; try (destruct q; reflexivity);
    exfalso; Z.div_mod_to_equations; lia.
Qed.

Lemma IndexByte_none (b : bytes) (c : byte) : IndexByte b c = -1 -> ~ In c b.
Proof.
  induction b as [| x b IH]; cbn [IndexByte]; intros H Hin; [exact Hin |].
  destruct (Byte.eqb x c) eqn:E; [discriminate |].
  destruct Hin as [-> | Hin]; [rewrite byte_eqb_refl in E; discriminate |].
  destruct (IndexByte_nonneg_or b c) as [E2 | E2]; [exact (IH E2 Hin) |].
  destruct (IndexByte b c <? 0) eqn:E3; [apply Z.ltb_lt in E3; lia | lia].
Qed.

Lemma quoteAwareEnd_no_GT (s l : bytes) :
  ~ In GT s -> forall q,
  quoteAwareEnd (s ++ l) q
  = option_map (Z.add (len s)) (quoteAwareEnd l (flip q (Count s QUOTE))).
Proof.
  induction s as [| c s IH]; intros Hs q; cbn [app quoteAwareEnd Count].
  - unfold flip. change (0 mod 2 =? 0) with true. cbv iota. rewrite len_nil.
    destruct (quoteAwareEnd l q); reflexivity.
  - assert (Hc : Byte.eqb c GT = false).
    { apply byte_eqb_neq. intros ->. apply Hs. left. reflexivity. }
    assert (Hs' : ~ In GT s) by (intros H; apply Hs; right; exact H).
    rewrite Hc. cbn [andb]. rewrite len_cons.
    destruct (Byte.eqb c QUOTE).
    + rewrite IH by exact Hs'. rewrite flip_succ by apply Count_nonneg.
      destruct (quoteAwareEnd l _); cbn [option_map]; [apply f_equal; lia | reflexivity].
    + rewrite IH by exact Hs'. rewrite Z.add_0_l.
      destruct (quoteAwareEnd l _); cbn [option_map]; [apply f_equal; lia | reflexivity].
Qed.

Lemma quoteAwareEnd_in_quotes (s l : bytes) :
  ~ In QUOTE s ->
  quoteAwareEnd (s ++ l) true = option_map (Z.add (len s)) (quoteAwareEnd l true).
Proof.
  induction s as [| c s IH]; intros Hs; cbn [app quoteAwareEnd].
  - rewrite len_nil. destruct (quoteAwareEnd l true); reflexivity.
  - assert (Hc : Byte.eqb c QUOTE = false).
    { apply byte_eqb_neq. intros ->. apply Hs. left. reflexivity. }
    rewrite Hc. cbn [negb]. rewrite andb_false_r. rewrite len_cons.
    rewrite IH by (intros H; apply Hs; right; exact H).
    destruct (quoteAwareEnd l true); cbn [option_map]; [apply f_equal; lia | reflexivity].
Qed.


Lemma skipn_at (pre x : bytes) (k : Z) : len pre = k -> skipn (Z.to_nat k) (pre ++ x) = x.
Proof. intros <-. apply skipn_len_app. Qed.

Lemma Count_even_flip (s : bytes) (q : bool) :
  flip q (Count s QUOTE) = if Count s QUOTE mod 2 =? 0 then q else negb q.
Proof. reflexivity. Qed.

Lemma Count_snoc_GT (s : bytes) : Count (s ++ [GT]) QUOTE = Count s QUOTE.
Proof. rewrite Count_app. cbn. lia. Qed.

Lemma findTokenEnd_turn_ordinary (b : bytes) (pivot left : Z) (c : byte) :
  index b (pivot + 1) = Ok c -> c <> QMARK -> c <> BANG ->
  0 <= left <= len b ->
  match findTokenEnd_turn b pivot left with
  | Return r => r = Ok (endAt left (quoteAwareEnd (skipn (Z.to_nat left) b) false))
  | Continue l =>
      left < l <= len b /\
      endAt left (quoteAwareEnd (skipn (Z.to_nat left) b) false)
      = endAt l (quoteAwareEnd (skipn (Z.to_nat l) b) false)
  | Nested _ => False
  end.
Proof.
  intros Hc Hq Hb Hl. unfold findTokenEnd_turn.
  rewrite sliceFrom_in_range by lia. cbn [tbind].
  destruct (IndexByte (skipn (Z.to_nat left) b) GT =? -1) eqn:Ep.
  { apply Z.eqb_eq in Ep. apply IndexByte_none in Ep.
    rewrite <- (app_nil_r (skipn (Z.to_nat left) b)).
    rewrite quoteAwareEnd_no_GT by exact Ep. reflexivity. }
  apply Z.eqb_neq in Ep.
  destruct (next_GT b left Hl Ep) as (pre & s & rest & Eb & Hpre & Hs & Hi).
  rewrite Hi, Hc. cbn [tbind]. clear Ep Hi.
  apply byte_eqb_neq in Hq, Hb. rewrite Hq, Hb.
  pose proof (len_nonneg s) as Hs0. pose proof (len_nonneg rest) as Hr0.
  assert (Hlen : len b = left + len s + 1 + len rest).
  { rewrite Eb, !len_app, len_cons. lia. }
  assert (Etl : skipn (Z.to_nat left) b = s ++ GT :: rest).
  { rewrite Eb. apply skipn_at. exact Hpre. }
  rewrite Etl, quoteAwareEnd_no_GT by exact Hs.
  assert (Eseg : slice b left (left + len s + 1) = Ok (s ++ [GT])).
  { rewrite Eb. rewrite <- Hpre.
    replace (len pre + len s + 1) with (len pre + len (s ++ [GT]))
      by (rewrite len_app, len_cons, len_nil; lia).
    replace (pre ++ s ++ GT :: rest) with (pre ++ (s ++ [GT]) ++ rest)
      by (rewrite <- app_assoc; reflexivity).
    apply slice_middle. }
  rewrite Eseg. cbn [tbind].
  rewrite Count_snoc_GT. unfold flip.
  destruct (Count s QUOTE mod 2 =? 0).
  - cbn [quoteAwareEnd]. change (Byte.eqb GT QUOTE) with false.
    change (Byte.eqb GT GT) with true. cbn [andb negb option_map endAt].
    f_equal. lia.
  - cbn [negb quoteAwareEnd]. change (Byte.eqb GT QUOTE) with false.
    cbn [negb]. rewrite andb_false_r.
    rewrite sliceFrom_in_range by lia. cbn [tbind].
    assert (Erest : skipn (Z.to_nat (left + len s + 1)) b = rest).
    { rewrite Eb.
      replace (pre ++ s ++ GT :: rest) with ((pre ++ s ++ [GT]) ++ rest)
        by (rewrite <- !app_assoc; reflexivity).
      apply skipn_at. rewrite !len_app, len_cons, len_nil. lia. }
    rewrite Erest.
    destruct (IndexByte rest QUOTE =? -1) eqn:Eq.
    + apply Z.eqb_eq in Eq. apply IndexByte_none in Eq.
      rewrite <- (app_nil_r rest).
      rewrite quoteAwareEnd_in_quotes by exact Eq. reflexivity.
    + apply Z.eqb_neq in Eq.
      destruct (IndexByte_split _ _ Eq) as (s2 & rest3 & -> & Hs2 & Hi2).
      rewrite Hi2. pose proof (len_nonneg s2) as Hs20.
      rewrite len_app, len_cons in *. pose proof (len_nonneg rest3) as Hr30.
      split; [lia |].
      rewrite quoteAwareEnd_in_quotes by exact Hs2.
      cbn [quoteAwareEnd]. change (Byte.eqb QUOTE QUOTE) with true. cbn [negb].
      assert (E3 : skipn (Z.to_nat (left + len s + 1 + len s2 + 1)) b = rest3).
      { rewrite Eb.
        replace (pre ++ s ++ GT :: s2 ++ QUOTE :: rest3)
          with ((pre ++ s ++ [GT] ++ s2 ++ [QUOTE]) ++ rest3)
          by (repeat (rewrite <- app_assoc; cbn [app]); reflexivity).
        apply skipn_at. rewrite !len_app, !len_cons, len_nil. lia. }
      rewrite E3. rewrite !endAt_shift. f_equal; lia.
Qed.

Lemma findTokenEnd_loop_ordinary (fuel : nat) (b : bytes) (pivot : Z) (c : byte) :
  index b (pivot + 1) = Ok c -> c <> QMARK -> c <> BANG ->
  forall left, 0 <= left <= len b -> len b - left < Z.of_nat fuel ->
  findTokenEnd_loop fuel b pivot left
  = Ok (endAt left (quoteAwareEnd (skipn (Z.to_nat left) b) false)).
Proof.
  intros Hc Hq Hb. induction fuel as [| fuel IH]; intros left Hl Hf; [lia |].
  rewrite findTokenEnd_loop_turn.
  pose proof (findTokenEnd_turn_ordinary b pivot left c Hc Hq Hb Hl) as Ht.
  destruct (findTokenEnd_turn b pivot left) as [x | l | p].
  - exact Ht.
  - destruct Ht as (Hlt & E). rewrite E. apply IH; lia.
  - contradiction.
Qed.

Lemma quoteAwareEnd_even (l : bytes) :
  forall (q : bool) (k : Z),
  quoteAwareEnd l q = Some k ->
  0 < k <= len l /\ flip q (Count (firstn (Z.to_nat k) l) QUOTE) = false.
Proof.
  induction l as [| c l IH]; intros q k H; cbn [quoteAwareEnd] in H; [discriminate |].
  rewrite len_cons. pose proof (len_nonneg l) as Hl.
  destruct (Byte.eqb c QUOTE) eqn:EQ.
  - destruct (quoteAwareEnd l (negb q)) as [k' |] eqn:E; [| discriminate].
    assert (Ek : k = 1 + k') by (cbn [option_map] in H; congruence).
      subst k. clear H. destruct (IH _ _ E) as (Hk & Hflip).
    split; [lia |].
    replace (Z.to_nat (1 + k')) with (S (Z.to_nat k')) by lia.
    cbn [firstn Count]. rewrite EQ. rewrite flip_succ by apply Count_nonneg.
    exact Hflip.
  - destruct (Byte.eqb c GT && negb q) eqn:EG.
    + assert (Ek : k = 1) by congruence. subst k. clear H. split; [lia |].
      change (Z.to_nat 1) with 1%nat. cbn [firstn Count]. rewrite EQ.
      apply andb_true_iff in EG. destruct EG as (_ & Hq).
      destruct q; [discriminate | reflexivity].
    + destruct (quoteAwareEnd l q) as [k' |] eqn:E; [| discriminate].
      assert (Ek : k = 1 + k') by (cbn [option_map] in H; congruence).
      subst k. clear H. destruct (IH _ _ E) as (Hk & Hflip).
      split; [lia |].
      replace (Z.to_nat (1 + k')) with (S (Z.to_nat k')) by lia.
      cbn [firstn Count]. rewrite EQ. rewrite Z.add_0_l. exact Hflip.
Qed.

(** For an ordinary tag, one whose [<] is followed by neither [?] nor [!],
    [findTokenEnd] returns the position after the first [>] that is outside
    double quotes, and -1 when the buffer holds no such [>]; the bytes
    between the [<] and a returned position hold an even number of double
    quotes. *)
Theorem findTokenEnd_ordinary_tag (b : bytes) (pivot : Z) (c : byte)
  (Hpivot : 0 <= pivot) (Hc : index b (pivot + 1) = Ok c)
  (Hq : c <> QMARK) (Hb : c <> BANG) :
  findTokenEnd b pivot
  = Ok (endAt (pivot + 1) (quoteAwareEnd (skipn (Z.to_nat (pivot + 1)) b) false)) /\
  (forall z, findTokenEnd b pivot = Ok z -> z <> -1 ->
     exists seg, slice b (pivot + 1) z = Ok seg /\ Count seg QUOTE mod 2 = 0).
Proof.
  assert (Hlen : pivot + 1 < len b).
  { unfold index in Hc. destruct (0 <=? pivot + 1); [| discriminate].
    destruct (pivot + 1 <? len b) eqn:E; [apply Z.ltb_lt in E; exact E | discriminate]. }
  assert (H : findTokenEnd b pivot
    = Ok (endAt (pivot + 1) (quoteAwareEnd (skipn (Z.to_nat (pivot + 1)) b) false))).
  { unfold findTokenEnd, findTokenEnd_fuel.
    apply (findTokenEnd_loop_ordinary _ b pivot c Hc Hq Hb); [lia |].
    unfold len. lia. }
  split; [exact H |].
  intros z Hz Hne. rewrite H in Hz.
  destruct (quoteAwareEnd (skipn (Z.to_nat (pivot + 1)) b) false) as [k |] eqn:E;
    cbn [endAt] in Hz; [| congruence].
  assert (Ez : z = pivot + 1 + k) by congruence. subst z. clear Hz.
  destruct (quoteAwareEnd_even _ _ _ E) as (Hk & Hflip).
  rewrite len_skipn in Hk by lia.
  exists (firstn (Z.to_nat k) (skipn (Z.to_nat (pivot + 1)) b)).
  split.
  - rewrite slice_in_range by lia. do 2 f_equal. lia.
  - unfold flip in Hflip.
    destruct (Z.eqb_spec (Count (firstn (Z.to_nat k) (skipn (Z.to_nat (pivot + 1)) b)) QUOTE mod 2) 0)
      as [E0 | E0]; [exact E0 | discriminate].
Qed.

(** The tag [<a b=QxQ>] followed by [y>], where [Q] is a double quote and
    [x] is the three bytes [1>2]. *)
Definition quotedGT : bytes :=
  str "<a b=" ++ [QUOTE] ++ str "1>2" ++ [QUOTE] ++ str ">y>".

Lemma findTokenEnd_ordinary_tag_witness :
  0 <= 0 /\ index quotedGT (0 + 1) = Ok "a"%byte /\
  "a"%byte <> QMARK /\ "a"%byte <> BANG /\
  findTokenEnd quotedGT 0
  = Ok (endAt (0 + 1) (quoteAwareEnd (skipn (Z.to_nat (0 + 1)) quotedGT) false)) /\
  endAt (0 + 1) (quoteAwareEnd (skipn (Z.to_nat (0 + 1)) quotedGT) false) = 11.
Proof.
  assert (H0 : 0 <= 0) by lia.
  assert (Hc : index quotedGT (0 + 1) = Ok "a"%byte) by reflexivity.
  assert (Hq : "a"%byte <> QMARK) by discriminate.
  assert (Hb : "a"%byte <> BANG) by discriminate.
  split; [exact H0 | split; [exact Hc | split; [exact Hq | split; [exact Hb |]]]].
  split; [exact (proj1 (findTokenEnd_ordinary_tag quotedGT 0 _ H0 Hc Hq Hb)) |].
  reflexivity.
Defined.

(** ** [findTokenEnd] does not depend on where the token sits *)

Definition shiftZ (d z : Z) : Z := if z =? -1 then -1 else d + z.

Definition shift_res (d : Z) (x : res Z) : res Z :=
  match x with
  | Ok z => Ok (shiftZ d z)
  | Panic => Panic
  | OutOfFuel => OutOfFuel
  end.

Definition shift_turn (d : Z) (x : turn) : turn :=
  match x with
  | Return x => Return (shift_res d x)
  | Continue l => Continue (d + l)
  | Nested p => Nested (d + p)
  end.

Lemma skipn_app_len {A : Type} (pre b : list A) (k : nat) :
  skipn (List.length pre + k) (pre ++ b) = skipn k b.
Proof. induction pre as [| x pre IH]; simpl; [reflexivity | exact IH]. Qed.

Lemma slice_shift (pre b : bytes) (lo hi : Z) :
  0 <= lo -> slice (pre ++ b) (len pre + lo) (len pre + hi) = slice b lo hi.
Proof.
  intros Hlo. unfold slice. rewrite len_app. pose proof (len_nonneg pre) as Hp.
  replace (0 <=? len pre + lo) with true by (symmetry; apply Z.leb_le; lia).
  replace (0 <=? lo) with true by (symmetry; apply Z.leb_le; lia).
  replace (len pre + lo <=? len pre + hi) with (lo <=? hi).
  2:{ destruct (Z.leb_spec lo hi); symmetry; [apply Z.leb_le | apply Z.leb_gt]; lia. }
  replace (len pre + hi <=? len pre + len b) with (hi <=? len b).
  2:{ destruct (Z.leb_spec hi (len b)); symmetry; [apply Z.leb_le | apply Z.leb_gt]; lia. }
  destruct (_ && _); [| reflexivity]. f_equal.
  replace (len pre + hi - (len pre + lo)) with (hi - lo) by lia.
  f_equal. replace (Z.to_nat (len pre + lo)) with (List.length pre + Z.to_nat lo)%nat
    by (unfold len; lia).
  apply skipn_app_len.
Qed.

Lemma sliceFrom_shift (pre b : bytes) (lo : Z) :
  0 <= lo -> sliceFrom (pre ++ b) (len pre + lo) = sliceFrom b lo.
Proof. intros H. unfold sliceFrom. rewrite len_app. apply slice_shift. exact H. Qed.

Lemma index_shift (pre b : bytes) (i : Z) :
  0 <= i -> index (pre ++ b) (len pre + i) = index b i.
Proof.
  intros Hi. unfold index. rewrite len_app. pose proof (len_nonneg pre) as Hp.
  replace (0 <=? len pre + i) with true by (symmetry; apply Z.leb_le; lia).
  replace (0 <=? i) with true by (symmetry; apply Z.leb_le; lia).
  replace (len pre + i <? len pre + len b) with (i <? len b).
  2:{ destruct (Z.ltb_spec i (len b)); symmetry; [apply Z.ltb_lt | apply Z.ltb_ge]; lia. }
  destruct (i <? len b); [| reflexivity]. cbn [andb].
  replace (Z.to_nat (len pre + i)) with (List.length pre + Z.to_nat i)%nat
    by (unfold len; lia).
  rewrite nth_error_app2 by lia.
  replace (List.length pre + Z.to_nat i - List.length pre)%nat with (Z.to_nat i) by lia.
  reflexivity.
Qed.

Lemma index_is_shift (pre b : bytes) (i : Z) (c : byte) :
  0 <= i -> index_is (pre ++ b) (len pre + i) c = index_is b i c.
Proof. intros H. unfold index_is. rewrite index_shift by exact H. reflexivity. Qed.

Lemma geb_shift (d a b : Z) : (d + a >=? d + b) = (a >=? b).
Proof.
  destruct (Z.geb_spec a b); destruct (Z.geb_spec (d + a) (d + b)); try reflexivity; lia.
Qed.

Lemma gtb_shift (d a b : Z) : (d + a >? d + b) = (a >? b).
Proof.
  destruct (Z.gtb_spec a b); destruct (Z.gtb_spec (d + a) (d + b)); try reflexivity; lia.
Qed.

Lemma shift_tbind {A : Type} (d : Z) (m : res A) (f : A -> turn) :
  shift_turn d (tbind m f) = tbind m (fun a => shift_turn d (f a)).
Proof. destruct m; reflexivity. Qed.

Lemma andr_guard (g : bool) (m1 m2 : res bool) :
  (g = true -> m1 = m2) -> andr g m1 = andr g m2.
Proof. destruct g; simpl; auto. Qed.

Lemma findTokenEnd_turn_shift (pre b : bytes) (pivot left : Z) :
  0 <= pivot -> pivot + 1 <= left <= len b ->
  findTokenEnd_turn (pre ++ b) (len pre + pivot) (len pre + left)
  = shift_turn (len pre) (findTokenEnd_turn b pivot left).
Proof.
  intros Hp Hl. unfold findTokenEnd_turn.
  rewrite sliceFrom_shift by lia. rewrite shift_tbind.
  rewrite sliceFrom_in_range by lia. cbn [tbind].
  destruct (IndexByte (skipn (Z.to_nat left) b) GT =? -1) eqn:Ep; [reflexivity |].
  destruct (IndexByte_nonneg_or (skipn (Z.to_nat left) b) GT) as [E | Hi];
    [rewrite E in Ep; discriminate |].
  rewrite len_skipn in Hi by lia.
  set (p := IndexByte (skipn (Z.to_nat left) b) GT) in *.
  replace (len pre + left + p + 1) with (len pre + (left + p + 1)) by lia.
  set (right := left + p + 1).
  assert (Hr : left < right <= len b) by (unfold right; lia).
  replace (len pre + pivot + 1) with (len pre + (pivot + 1)) by lia.
  replace (len pre + pivot + 2) with (len pre + (pivot + 2)) by lia.
  replace (len pre + pivot + 3) with (len pre + (pivot + 3)) by lia.
  replace (len pre + pivot + 4) with (len pre + (pivot + 4)) by lia.
  replace (len pre + pivot + 6) with (len pre + (pivot + 6)) by lia.
  replace (len pre + right - 1) with (len pre + (right - 1)) by lia.
  replace (len pre + right - 2) with (len pre + (right - 2)) by lia.
  replace (len pre + right - 3) with (len pre + (right - 3)) by lia.
  replace (len pre + left + 1) with (len pre + (left + 1)) by lia.
  rewrite index_shift by lia. rewrite shift_tbind.
  rewrite !slice_shift by lia. rewrite sliceFrom_shift by lia.
  rewrite len_app, !geb_shift, gtb_shift.
  rewrite !(index_is_shift pre b (right - 2)) by lia.
  rewrite (index_is_shift pre b (pivot + 2)) by lia.
  rewrite (index_is_shift pre b (pivot + 3)) by lia.
  assert (Hacc : Return (Ok (len pre + right)) = shift_turn (len pre) (Return (Ok right))).
  { cbn [shift_turn shift_res]. unfold shiftZ.
    replace (right =? -1) with false by (symmetry; apply Z.eqb_neq; lia). reflexivity. }
  assert (Hquoted :
    tbind (slice b left right) (fun seg =>
      if Count seg QUOTE mod 2 =? 0 then Return (Ok (len pre + right))
      else
        tbind (sliceFrom b right) (fun tl2 =>
          if IndexByte tl2 QUOTE =? -1 then Return (Ok (-1))
          else Continue (len pre + right + IndexByte tl2 QUOTE + 1)))
    = shift_turn (len pre)
        (tbind (slice b left right) (fun seg =>
           if Count seg QUOTE mod 2 =? 0 then Return (Ok right)
           else
             tbind (sliceFrom b right) (fun tl2 =>
               if IndexByte tl2 QUOTE =? -1 then Return (Ok (-1))
               else Continue (right + IndexByte tl2 QUOTE + 1))))).
  { destruct (slice b left right) as [seg | |]; cbn [tbind]; try reflexivity.
    destruct (Count seg QUOTE mod 2 =? 0); [exact Hacc |].
    destruct (sliceFrom b right) as [tl2 | |]; cbn [tbind]; try reflexivity.
    destruct (IndexByte tl2 QUOTE =? -1); [reflexivity |].
    cbn [shift_turn]. f_equal. lia. }
  destruct (index b (pivot + 1)) as [c | |]; cbn [tbind]; try reflexivity.
  destruct (Byte.eqb c QMARK).
  { destruct (andr (right >=? pivot + 3) (index_is b (right - 2) QMARK)) as [closed | |];
      cbn [tbind]; try reflexivity.
    destruct closed; [exact Hacc | reflexivity]. }
  destruct (Byte.eqb c BANG).
  2:{ exact Hquoted. }
  match goal with
  | |- tbind ?m _ = _ => destruct m as [comment | |]; cbn [tbind]; try reflexivity
  end.
  destruct comment.
  - replace (andr (right >=? pivot + 6)
               (do d1 <- index_is (pre ++ b) (len pre + (right - 3)) DASH;
                andr d1 (index_is b (right - 2) DASH)))
      with (andr (right >=? pivot + 6)
               (do d1 <- index_is b (right - 3) DASH;
                andr d1 (index_is b (right - 2) DASH))).
    2:{ apply andr_guard. intros Hg. rewrite index_is_shift; [reflexivity |].
        destruct (Z.geb_spec right (pivot + 6)); [lia | discriminate]. }
    match goal with
    | |- tbind ?m _ = _ => destruct m as [closed | |]; cbn [tbind]; try reflexivity
    end.
    destruct closed; [exact Hacc | reflexivity].
  - destruct (slice b (left + 1) (right - 1)) as [inner | |]; cbn [tbind]; try reflexivity.
    destruct (negb (IndexByte inner LT =? -1)); [| exact Hquoted].
    cbn [shift_turn]. f_equal. lia.
Qed.

Lemma findTokenEnd_loop_more_fuel (fuel : nat) :
  forall (b : bytes) (pivot left : Z) (fuel' : nat),
  findTokenEnd_loop fuel b pivot left <> OutOfFuel -> (fuel <= fuel')%nat ->
  findTokenEnd_loop fuel' b pivot left = findTokenEnd_loop fuel b pivot left.
Proof.
  induction fuel as [| fuel IH]; intros b pivot left fuel' Hr Hf.
  - exfalso. apply Hr. reflexivity.
  - destruct fuel' as [| fuel']; [lia |].
    rewrite (findTokenEnd_loop_turn fuel) in Hr.
    rewrite (findTokenEnd_loop_turn fuel), (findTokenEnd_loop_turn fuel').
    destruct (findTokenEnd_turn b pivot left) as [x | l | p].
    + reflexivity.
    + apply IH; [exact Hr | lia].
    + assert (E : findTokenEnd_loop fuel b p (p + 1) <> OutOfFuel).
      { intros E. rewrite E in Hr. apply Hr. reflexivity. }
      rewrite (IH b p (p + 1) fuel' E) by lia.
      destruct (findTokenEnd_loop fuel b p (p + 1)) as [l | |]; cbn [bind] in *;
        try reflexivity.
      destruct (l =? -1); [reflexivity |]. apply IH; [exact Hr | lia].
Qed.

Lemma shiftZ_pos (d z : Z) : 0 <= d -> 0 <= z -> (shiftZ d z =? -1) = false /\ shiftZ d z = d + z.
Proof.
  intros Hd Hz. unfold shiftZ.
  replace (z =? -1) with false by (symmetry; apply Z.eqb_neq; lia).
  split; [apply Z.eqb_neq; lia | reflexivity].
Qed.

Lemma findTokenEnd_loop_shift (pre : bytes) (fuel : nat) :
  forall (b : bytes) (pivot left : Z),
  0 <= pivot -> pivot + 1 <= left <= len b -> len b - left < Z.of_nat fuel ->
  findTokenEnd_loop fuel (pre ++ b) (len pre + pivot) (len pre + left)
  = shift_res (len pre) (findTokenEnd_loop fuel b pivot left).
Proof.
  pose proof (len_nonneg pre) as Hpre.
  induction fuel as [| fuel IH]; intros b pivot left Hp Hl Hf; [lia |].
  rewrite !findTokenEnd_loop_turn. rewrite findTokenEnd_turn_shift by assumption.
  pose proof (findTokenEnd_turn_ok b pivot left Hp Hl) as Ht.
  destruct (findTokenEnd_turn b pivot left) as [x | l | p]; cbn [shift_turn turn_ok] in *.
  - reflexivity.
  - apply IH; lia.
  - replace (len pre + p + 1) with (len pre + (p + 1)) by lia.
    rewrite (IH b p (p + 1)) by lia.
    pose proof (findTokenEnd_loop_ok fuel b p (p + 1) ltac:(lia) ltac:(lia) ltac:(lia))
      as Hn.
    destruct (findTokenEnd_loop fuel b p (p + 1)) as [l | |];
      cbn [shift_res bind result_ok] in *; try reflexivity.
    destruct (Z.eqb_spec l (-1)) as [-> | Hne]; [reflexivity |].
    destruct Hn as [Hn | (Hn & _)]; [contradiction |].
    destruct (shiftZ_pos (len pre) l Hpre ltac:(lia)) as (E1 & E2).
    rewrite E1, E2. apply IH; lia.
Qed.

(** With any bytes put in front of the buffer the result moves by their
    number, and stays -1 or a panic. *)
Lemma findTokenEnd_shift (pre b : bytes) (pivot : Z) (Hpivot : 0 <= pivot < len b) :
  findTokenEnd (pre ++ b) (len pre + pivot) = shift_res (len pre) (findTokenEnd b pivot).
Proof.
  unfold findTokenEnd, findTokenEnd_fuel.
  assert (Hf : len b - (pivot + 1) < Z.of_nat (S (List.length b))) by (unfold len; lia).
  pose proof (findTokenEnd_loop_ok _ b pivot (pivot + 1) ltac:(lia) ltac:(lia) Hf) as Hok.
  rewrite <- (findTokenEnd_loop_more_fuel (S (List.length b)) b pivot (pivot + 1)
                (S (List.length (pre ++ b)))).
  - replace (len pre + pivot + 1) with (len pre + (pivot + 1)) by lia.
    apply findTokenEnd_loop_shift; [lia | lia |].
    rewrite length_app. unfold len. lia.
  - intros E. rewrite E in Hok. exact Hok.
  - rewrite length_app. lia.
Qed.

(** ** [findTokenEnd] does not depend on the bytes after the end *)

Lemma slice_app_l (b ext : bytes) (lo hi : Z) :
  hi <= len b -> slice (b ++ ext) lo hi = slice b lo hi.
Proof.
  intros Hhi. unfold slice. rewrite len_app. pose proof (len_nonneg ext) as He.
  replace (hi <=? len b + len ext) with true by (symmetry; apply Z.leb_le; lia).
  replace (hi <=? len b) with true by (symmetry; apply Z.leb_le; lia).
  destruct (0 <=? lo) eqn:E0; [| reflexivity].
  destruct (lo <=? hi) eqn:E1; [| reflexivity].
  apply Z.leb_le in E0, E1. cbn [andb]. f_equal.
  rewrite skipn_app. rewrite firstn_app.
  replace (Z.to_nat (hi - lo) - List.length (skipn (Z.to_nat lo) b))%nat with 0%nat.
  - rewrite firstn_O, app_nil_r. reflexivity.
  - rewrite length_skipn. unfold len in Hhi. lia.
Qed.

Lemma sliceFrom_app_l (b ext : bytes) (lo : Z) :
  0 <= lo <= len b ->
  sliceFrom (b ++ ext) lo = Ok (skipn (Z.to_nat lo) b ++ ext).
Proof.
  intros H. rewrite sliceFrom_in_range by (rewrite len_app; pose proof (len_nonneg ext); lia).
  f_equal. rewrite skipn_app.
  replace (Z.to_nat lo - List.length b)%nat with 0%nat by (unfold len in H; lia).
  reflexivity.
Qed.

Lemma IndexByte_app_l (l ext : bytes) (c : byte) :
  IndexByte l c <> -1 -> IndexByte (l ++ ext) c = IndexByte l c.
Proof.
  intros H. destruct (IndexByte_split _ _ H) as (s & rest & -> & Hs & Hi).
  rewrite Hi. rewrite <- app_assoc. cbn [app]. apply IndexByte_first. exact Hs.
Qed.

Lemma index_is_app_l (b ext : bytes) (i : Z) (c : byte) :
  i < len b -> index_is (b ++ ext) i c = index_is b i c.
Proof. intros H. unfold index_is. rewrite index_app_l by exact H. reflexivity. Qed.

Lemma index_Ok_lt (b : bytes) (i : Z) (c : byte) : index b i = Ok c -> 0 <= i < len b.
Proof.
  unfold index. destruct (0 <=? i) eqn:E0; [| discriminate].
  destruct (i <? len b) eqn:E1; [| discriminate].
  apply Z.leb_le in E0. apply Z.ltb_lt in E1. intros _. lia.
Qed.

Lemma findTokenEnd_turn_extend (b ext : bytes) (pivot left : Z) :
  0 <= pivot -> pivot + 1 <= left <= len b ->
  findTokenEnd_turn b pivot left <> Return (Ok (-1)) ->
  findTokenEnd_turn (b ++ ext) pivot left = findTokenEnd_turn b pivot left.
Proof.
  intros Hp Hl Hne. unfold findTokenEnd_turn in *.
  rewrite sliceFrom_app_l by lia. rewrite sliceFrom_in_range in * by lia.
  cbn [tbind] in *.
  destruct (IndexByte (skipn (Z.to_nat left) b) GT =? -1) eqn:Ep; [congruence |].
  apply Z.eqb_neq in Ep. rewrite (IndexByte_app_l _ ext GT Ep).
  destruct (next_GT b left ltac:(lia) Ep) as (pre & s & rest & Eb & Hpre & Hs & Hi).
  rewrite Hi in *.
  replace (len s =? -1) with false
    by (symmetry; apply Z.eqb_neq; pose proof (len_nonneg s); lia).
  pose proof (len_nonneg s) as Hs0. pose proof (len_nonneg rest) as Hr0.
  pose proof (len_nonneg ext) as He0.
  assert (Hlen : len b = left + len s + 1 + len rest).
  { rewrite Eb, !len_app, len_cons. lia. }
  set (right := left + len s + 1) in *.
  assert (Hgt : index b (right - 1) = Ok GT).
  { rewrite Eb. replace (right - 1) with (len (pre ++ s))
      by (rewrite len_app; unfold right; lia).
    rewrite app_assoc. apply index_at_len. }
  rewrite (index_app_l b ext (pivot + 1)) by lia.
  rewrite (slice_app_l b ext left right) by lia.
  rewrite (slice_app_l b ext (left + 1) (right - 1)) by lia.
  rewrite (sliceFrom_app_l b ext right) by lia.
  rewrite (sliceFrom_in_range b right) in * by lia.
  rewrite (index_is_app_l b ext (right - 2) QMARK) by lia.
  assert (Hquoted : forall x,
    tbind (slice b left right) (fun seg =>
      if Count seg QUOTE mod 2 =? 0 then Return (Ok right)
      else
        tbind (Ok (skipn (Z.to_nat right) b)) (fun tl2 =>
          if IndexByte tl2 QUOTE =? -1 then Return (Ok (-1))
          else Continue (right + IndexByte tl2 QUOTE + 1))) = x ->
    x <> Return (Ok (-1)) ->
    tbind (slice b left right) (fun seg =>
      if Count seg QUOTE mod 2 =? 0 then Return (Ok right)
      else
        tbind (Ok (skipn (Z.to_nat right) b ++ ext)) (fun tl2 =>
          if IndexByte tl2 QUOTE =? -1 then Return (Ok (-1))
          else Continue (right + IndexByte tl2 QUOTE + 1))) = x).
  { intros x <- Hx.
    destruct (slice b left right) as [seg | |]; cbn [tbind] in *; try reflexivity.
    destruct (Count seg QUOTE mod 2 =? 0); [reflexivity |].
    destruct (IndexByte (skipn (Z.to_nat right) b) QUOTE =? -1) eqn:Eq; [congruence |].
    apply Z.eqb_neq in Eq. rewrite (IndexByte_app_l _ ext QUOTE Eq).
    replace (IndexByte (skipn (Z.to_nat right) b) QUOTE =? -1) with false
      by (symmetry; apply Z.eqb_neq; exact Eq).
    reflexivity. }
  destruct (index b (pivot + 1)) as [c | |] eqn:Ec; cbn [tbind] in *; try reflexivity.
  destruct (Byte.eqb c QMARK); [reflexivity |].
  destruct (Byte.eqb c BANG) eqn:EB.
  2:{ apply (Hquoted _ eq_refl Hne). }
  apply byte_eqb_eq in EB. subst c.
  assert (Hright : pivot + 2 <= right - 1).
  { destruct (Z.eq_dec (right - 1) (pivot + 1)) as [E | E]; [| unfold right in *; lia].
    rewrite E in Hgt. rewrite Hgt in Ec. discriminate. }
  assert (Hcomment :
    andr (len (b ++ ext) >? pivot + 4)
      (do d1 <- index_is (b ++ ext) (pivot + 2) DASH;
       andr d1 (index_is (b ++ ext) (pivot + 3) DASH))
    = andr (len b >? pivot + 4)
        (do d1 <- index_is b (pivot + 2) DASH;
         andr d1 (index_is b (pivot + 3) DASH))).
  { rewrite len_app.
    destruct (Z.gtb_spec (len b) (pivot + 4)) as [Hbig | Hsmall].
    - replace (len b + len ext >? pivot + 4) with true
        by (symmetry; apply Z.gtb_lt; lia).
      rewrite !index_is_app_l by lia. reflexivity.
    - cbn [andr].
      destruct (len b + len ext >? pivot + 4); [| reflexivity]. cbn [andr].
      unfold index_is.
      rewrite (index_app_l b ext (pivot + 2)) by (unfold right in *; lia).
      destruct (Z.eq_dec (right - 1) (pivot + 2)) as [E | E].
      + rewrite <- E, Hgt. reflexivity.
      + assert (E3 : right - 1 = pivot + 3) by (unfold right in *; lia).
        destruct (index_in_range b (pivot + 2)) as (x & Hx); [unfold right in *; lia |].
        rewrite Hx. cbn [bind]. destruct (Byte.eqb x DASH); [| reflexivity].
        cbn [andr]. rewrite (index_app_l b ext (pivot + 3)) by (unfold right in *; lia).
        rewrite <- E3, Hgt. reflexivity. }
  rewrite Hcomment.
  destruct (andr (len b >? pivot + 4) _) as [comment | |]; cbn [tbind] in *;
    try reflexivity.
  destruct comment.
  - rewrite (index_is_app_l b ext (right - 3)) by lia.
    rewrite (index_is_app_l b ext (right - 2)) by lia. reflexivity.
  - destruct (slice b (left + 1) (right - 1)) as [inner | |]; cbn [tbind] in *;
      try reflexivity.
    destruct (negb (IndexByte inner LT =? -1)); [reflexivity |].
    apply (Hquoted _ eq_refl Hne).
Qed.

Lemma findTokenEnd_loop_extend (ext : bytes) (fuel : nat) :
  forall (b : bytes) (pivot left : Z),
  0 <= pivot -> pivot + 1 <= left <= len b -> len b - left < Z.of_nat fuel ->
  findTokenEnd_loop fuel b pivot left <> Ok (-1) ->
  findTokenEnd_loop fuel (b ++ ext) pivot left = findTokenEnd_loop fuel b pivot left.
Proof.
  induction fuel as [| fuel IH]; intros b pivot left Hp Hl Hf Hne; [lia |].
  rewrite (findTokenEnd_loop_turn fuel b) in Hne.
  rewrite (findTokenEnd_loop_turn fuel b), (findTokenEnd_loop_turn fuel (b ++ ext)).
  pose proof (findTokenEnd_turn_ok b pivot left Hp Hl) as Ht.
  rewrite findTokenEnd_turn_extend; try assumption.
  2:{ intros E. rewrite E in Hne. apply Hne. reflexivity. }
  destruct (findTokenEnd_turn b pivot left) as [x | l | p]; cbn [turn_ok] in Ht.
  - reflexivity.
  - apply IH; try assumption; lia.
  - pose proof (findTokenEnd_loop_ok fuel b p (p + 1) ltac:(lia) ltac:(lia) ltac:(lia))
      as Hn.
    assert (Hne1 : findTokenEnd_loop fuel b p (p + 1) <> Ok (-1)).
    { intros E. rewrite E in Hne. apply Hne. reflexivity. }
    rewrite (IH b p (p + 1)) by (try assumption; lia).
    destruct (findTokenEnd_loop fuel b p (p + 1)) as [l | |];
      cbn [bind result_ok] in *; try reflexivity.
    destruct (Z.eqb_spec l (-1)) as [El | Hl1]; [reflexivity |].
    destruct Hn as [Hn | (Hn & _)]; [contradiction |].
    apply IH; try assumption; lia.
Qed.

(** Once the end of a token is found, or the scan has panicked, bytes
    appended to the buffer change nothing. *)
Lemma findTokenEnd_extend (b ext : bytes) (pivot : Z)
  (Hpivot : 0 <= pivot < len b) (Hfound : findTokenEnd b pivot <> Ok (-1)) :
  findTokenEnd (b ++ ext) pivot = findTokenEnd b pivot.
Proof.
  unfold findTokenEnd, findTokenEnd_fuel in *.
  assert (Hf : len b - (pivot + 1) < Z.of_nat (S (List.length b))) by (unfold len; lia).
  pose proof (findTokenEnd_loop_ok _ b pivot (pivot + 1) ltac:(lia) ltac:(lia) Hf) as Hok.
  pose proof (findTokenEnd_loop_extend ext _ b pivot (pivot + 1)
                ltac:(lia) ltac:(lia) Hf Hfound) as E.
  rewrite <- E.
  apply findTokenEnd_loop_more_fuel.
  - rewrite E. intros E2. rewrite E2 in Hok. exact Hok.
  - rewrite length_app. lia.
Qed.

(** [findTokenEnd] depends on the token alone, not on where it sits in the
    buffer nor on what has been read after it: when the scan of [b] from
    [pivot] finds an end (or panics), the scan of [b] with any bytes in front
    and any bytes behind finds the same end, moved by the number of bytes in
    front (or panics too).  This is what lets [RawToken] shift the buffer
    with [memmoveRemainingBytes] and grow it with [manageBuffer] between two
    scans of the same token. *)
Theorem findTokenEnd_in_context (pre b post : bytes) (pivot : Z)
  (Hpivot : 0 <= pivot < len b) (Hfound : findTokenEnd b pivot <> Ok (-1)) :
  findTokenEnd (pre ++ b ++ post) (len pre + pivot)
  = shift_res (len pre) (findTokenEnd b pivot).
Proof.
  rewrite findTokenEnd_shift by (rewrite len_app; pose proof (len_nonneg post); lia).
  rewrite findTokenEnd_extend by assumption. reflexivity.
Qed.

Lemma findTokenEnd_in_context_witness :
  0 <= 0 < len (str "<a>") /\ findTokenEnd (str "<a>") 0 <> Ok (-1) /\
  findTokenEnd (str "xyz" ++ str "<a>" ++ str "text</a>") (len (str "xyz") + 0)
  = shift_res (len (str "xyz")) (findTokenEnd (str "<a>") 0).
Proof.
  assert (H : 0 <= 0 < len (str "<a>")) by (vm_compute; split; [intros E | ]; congruence).
  assert (Hf : findTokenEnd (str "<a>") 0 <> Ok (-1)) by (vm_compute; congruence).
  split; [exact H | split; [exact Hf |]].
  exact (findTokenEnd_in_context (str "xyz") (str "<a>") (str "text</a>") 0 H Hf).
Defined.

(** ** [RawToken] against the stream of bytes still to be tokenized *)

(** The bytes from index [p] of the buffer on, followed by what the reader
    still holds. *)
Definition from (t : Tokenizer) (p : Z) : bytes :=
  skipn (Z.to_nat p) (buf t) ++ rdata (r t).

(** The input not yet returned: the buffer from the cursor on, then the
    reader. *)
Definition pending (t : Tokenizer) : bytes := from t (cur t).

(** The ceiling leaves room for everything from [p] on plus one read. *)
Definition room (t : Tokenizer) (p : Z) : Prop :=
  1 <= readBufferSize (opts t) /\
  len (buf t) - p + len (rdata (r t)) + readBufferSize (opts t)
  <= opt_autoGrowBufferMaxLimitSize (opts t).

(** A tokenizer that can be called: no stored error, the cursor inside the
    buffer, and room for its input. *)
Definition ready (t : Tokenizer) : Prop :=
  err t = None /\ 0 <= cur t <= len (buf t) /\ room t (cur t).

(** [t'] is a later state of [t]: same options, same reader, and the byte
    counter has grown by what was read. *)
Definition later (t t' : Tokenizer) : Prop :=
  opts t' = opts t /\ rfinal (r t') = rfinal (r t) /\
  n t' + len (rdata (r t')) = n t + len (rdata (r t)).

Lemma later_refl (t : Tokenizer) : later t t.
Proof. repeat split. Qed.

Lemma later_trans (t1 t2 t3 : Tokenizer) : later t1 t2 -> later t2 t3 -> later t1 t3.
Proof.
  intros (A1 & A2 & A3) (B1 & B2 & B3). repeat split; congruence || lia.
Qed.

Lemma memmove_shift (t : Tokenizer) (pivot : Z) :
  0 <= cur t <= pivot -> pivot <= len (buf t) ->
  exists t1,
    memmoveRemainingBytes t pivot = Ok (0, len (buf t) - pivot, t1) /\
    buf t1 = skipn (Z.to_nat pivot) (buf t) /\ cur t1 = 0 /\ r t1 = r t /\
    n t1 = n t /\ opts t1 = opts t /\ err t1 = err t /\ token t1 = token t.
Proof.
  intros Hc Hp. unfold memmoveRemainingBytes.
  destruct (Z.eqb_spec pivot 0) as [-> | Hne].
  - exists t. assert (cur t = 0) as -> by lia.
    rewrite Z.sub_0_r. repeat split.
  - rewrite sliceFrom_in_range by lia. cbn [bind].
    eexists. split.
    + cbn [set_cur set_buf buf cur]. rewrite len_skipn by lia. reflexivity.
    + cbn [set_cur set_buf buf cur r n opts err token]. repeat split.
Qed.

Lemma refill_room (t : Tokenizer) :
  1 <= readBufferSize (opts t) ->
  len (buf t) + readBufferSize (opts t) <= opt_autoGrowBufferMaxLimitSize (opts t) ->
  (rdata (r t) = [] ->
   exists t2, refill t = Ok (Some (rfinal (r t)), t2) /\
     buf t2 = buf t /\ cur t2 = cur t /\ r t2 = r t /\ n t2 = n t /\
     opts t2 = opts t /\ err t2 = Some (rfinal (r t)) /\ token t2 = token t) /\
  (rdata (r t) <> [] ->
   exists t2, refill t = Ok (None, t2) /\
     buf t2 = buf t ++ firstn (Z.to_nat (readBufferSize (opts t))) (rdata (r t)) /\
     rdata (r t2) = skipn (Z.to_nat (readBufferSize (opts t))) (rdata (r t)) /\
     rfinal (r t2) = rfinal (r t) /\ cur t2 = cur t /\
     n t2 = n t + len (firstn (Z.to_nat (readBufferSize (opts t))) (rdata (r t))) /\
     opts t2 = opts t /\ err t2 = None /\ token t2 = token t).
Proof.
  intros Hsize Hlim. unfold refill, manageBuffer.
  pose proof (len_nonneg (buf t)) as Hb. pose proof (len_nonneg (spare t)) as Hs.
  replace (len (buf t) + readBufferSize (opts t) - len (buf t))
    with (readBufferSize (opts t)) by lia.
  rewrite (ReadAtLeast1_spec _ _ Hsize).
  replace (len (buf t) + readBufferSize (opts t) >? opt_autoGrowBufferMaxLimitSize (opts t))
    with false.
  2:{ symmetry. destruct (Z.gtb_spec (len (buf t) + readBufferSize (opts t))
                            (opt_autoGrowBufferMaxLimitSize (opts t))); [lia | reflexivity]. }
  destruct (len (buf t) + readBufferSize (opts t) <=? cap t) eqn:Ecap.
  - apply Z.leb_le in Ecap. unfold cap in Ecap.
    rewrite slice_in_range by (rewrite ?len_app; lia). cbn [bind].
    rewrite slice_in_range.
    2:{ lia. }
    2:{ rewrite len_firstn, skipn_O, len_app. lia. }
    cbn [bind]. split; intros Hrd.
    + rewrite Hrd. cbn [bind]. eexists. split; [reflexivity |].
      cbn [set_err set_read buf cur r n opts err token]. rewrite app_nil_r, len_nil.
      repeat split. lia.
    + destruct (rdata (r t)) as [| x xs] eqn:Erd; [congruence |].
      cbn [bind]. eexists. split; [reflexivity |].
      cbn [set_err set_read buf cur r n opts err token rdata rfinal]. repeat split.
  - split; intros Hrd.
    + rewrite Hrd. cbn [bind]. eexists. split; [reflexivity |].
      cbn [set_err set_read buf cur r n opts err token]. rewrite app_nil_r, len_nil.
      repeat split. lia.
    + destruct (rdata (r t)) as [| x xs] eqn:Erd; [congruence |].
      cbn [bind]. eexists. split; [reflexivity |].
      cbn [set_err set_read buf cur r n opts err token rdata rfinal]. repeat split.
Qed.

(** [memmoveRemainingBytes] at [pivot] followed by [manageBuffer], as the
    loops of [RawToken] and [parseCharData] do when they need more bytes:
    the buffer becomes its part from [pivot] on, followed by the next bytes
    of the reader. *)
Lemma shift_refill (t : Tokenizer) (pivot : Z) :
  0 <= cur t <= pivot -> pivot <= len (buf t) -> room t pivot ->
  exists t1,
    memmoveRemainingBytes t pivot = Ok (0, len (buf t) - pivot, t1) /\
    len (buf t1) = len (buf t) - pivot /\
    ((rdata (r t) = [] /\
      exists t2, refill t1 = Ok (Some (rfinal (r t)), t2) /\
        buf t2 = skipn (Z.to_nat pivot) (buf t) /\ cur t2 = 0 /\ r t2 = r t /\
        n t2 = n t /\ opts t2 = opts t /\ err t2 = Some (rfinal (r t))) \/
     (rdata (r t) <> [] /\
      exists t2, refill t1 = Ok (None, t2) /\
        len (buf t) - pivot < len (buf t2) /\
        from t2 0 = from t pivot /\ cur t2 = 0 /\ room t2 0 /\ later t t2 /\
        err t2 = None /\
        (List.length (rdata (r t2)) < List.length (rdata (r t)))%nat /\
        firstn (Z.to_nat (len (buf t) - pivot)) (buf t2)
        = skipn (Z.to_nat pivot) (buf t))).
Proof.
  intros Hc Hp (Hsize & Hroom).
  destruct (memmove_shift t pivot Hc Hp) as (t1 & Hm & Hb1 & Hc1 & Hr1 & Hn1 & Ho1 & He1 & _).
  assert (Hlen1 : len (buf t1) = len (buf t) - pivot) by (rewrite Hb1; apply len_skipn; lia).
  exists t1. split; [exact Hm |]. split; [exact Hlen1 |].
  pose proof (len_nonneg (rdata (r t))) as Hrd0.
  destruct (refill_room t1) as (Hempty & Hmore); [rewrite Ho1; lia | rewrite Ho1; lia |].
  rewrite Hr1, Ho1 in *.
  destruct (rdata (r t)) as [| x xs] eqn:Erd.
  - left. split; [reflexivity |].
    destruct (Hempty eq_refl) as (t2 & H1 & H2 & H3 & H4 & H5 & H6 & H7 & _).
    exists t2. repeat split; congruence.
  - right. split; [discriminate |].
    destruct Hmore as (t2 & H1 & H2 & H3 & H4 & H5 & H6 & H7 & H8 & _); [discriminate |].
    exists t2. split; [exact H1 |].
    set (R := readBufferSize (opts t)) in *.
    assert (HR : (0 < Z.to_nat R)%nat) by lia.
    assert (Hk : 0 < len (firstn (Z.to_nat R) (x :: xs))).
    { rewrite len_firstn, len_cons. pose proof (len_nonneg xs). lia. }
    split; [rewrite H2, len_app; lia |].
    split.
    { unfold from. rewrite H2, H3, Hb1. cbn [Z.to_nat skipn].
      rewrite <- app_assoc, firstn_skipn, Erd. reflexivity. }
    split; [congruence |].
    split.
    { unfold room. rewrite H7, H2, H3, len_app, Hlen1.
      split; [exact Hsize |].
      assert (E : len (firstn (Z.to_nat R) (x :: xs)) + len (skipn (Z.to_nat R) (x :: xs))
                  = len (x :: xs)).
      { rewrite <- len_app, firstn_skipn. reflexivity. }
      fold R. lia. }
    split.
    { unfold later. rewrite H7, H4, H6, H3, Hn1, Erd.
      assert (E : len (firstn (Z.to_nat R) (x :: xs)) + len (skipn (Z.to_nat R) (x :: xs))
                  = len (x :: xs)).
      { rewrite <- len_app, firstn_skipn. reflexivity. }
      repeat split. lia. }
    split; [exact H8 |].
    split.
    { rewrite H3, length_skipn. cbn [List.length]. lia. }
    rewrite H2, Hb1. rewrite <- Hlen1, Hb1. apply firstn_len_app.
Qed.

Lemma from_split (t : Tokenizer) (p k : Z) :
  0 <= p -> 0 <= k -> p + k <= len (buf t) ->
  from t (p + k) = skipn (Z.to_nat k) (from t p).
Proof.
  intros Hp Hk Hle. unfold from.
  rewrite skipn_app, skipn_skipn.
  replace (Z.to_nat k + Z.to_nat p)%nat with (Z.to_nat (p + k)) by lia.
  replace (Z.to_nat k - List.length (skipn (Z.to_nat p) (buf t)))%nat with 0%nat.
  - reflexivity.
  - rewrite length_skipn. unfold len in Hle. lia.
Qed.

(** The first loop of [RawToken] when no [<] is left in the input: it reads
    the reader to its end and stops on the reader's final error. *)
Lemma RawToken_open_no_tag (fuel : nat) :
  forall t : Tokenizer,
  0 <= cur t <= len (buf t) -> room t (cur t) ->
  (List.length (rdata (r t)) < fuel)%nat ->
  ~ In LT (pending t) ->
  exists t',
    RawToken_open fuel t = Ok (inr (rfinal (r t)), t') /\
    err t' = Some (rfinal (r t)) /\ rdata (r t') = [] /\ later t t'.
Proof.
  induction fuel as [| fuel IH]; intros t Hc Hroom Hfuel Hno; [lia |].
  cbn [RawToken_open]. rewrite sliceFrom_in_range by exact Hc. cbn [bind].
  rewrite IndexByte_absent.
  2:{ intros Hin. apply Hno. unfold pending, from. apply in_or_app. left. exact Hin. }
  change (-1 =? -1) with true. cbv iota.
  destruct (shift_refill t (cur t)) as (t1 & Hm & Hlen1 & Hcases); [lia | lia | exact Hroom |].
  rewrite Hm. cbn [bind].
  destruct Hcases as [(Hrd & t2 & Hr & Hb & Hc2 & Hr2 & Hn2 & Ho2 & He2)
                     | (Hrd & t2 & Hr & _ & Hfrom & Hc2 & Hroom2 & Hlater & He2 & Hless & _)];
    rewrite Hr; cbn [bind].
  - exists t2. split; [reflexivity |]. split; [exact He2 |].
    split; [rewrite Hr2; exact Hrd |].
    unfold later. rewrite Hr2, Hn2, Ho2. repeat split.
  - destruct (IH t2) as (t' & H1 & H2 & H3 & H4).
    + rewrite Hc2. pose proof (len_nonneg (buf t2)). lia.
    + rewrite Hc2. exact Hroom2.
    + lia.
    + unfold pending. rewrite Hc2, Hfrom. exact Hno.
    + destruct Hlater as (L1 & L2 & L3).
      exists t'. split; [rewrite H1, L2; reflexivity |].
      split; [rewrite H2, L2; reflexivity |].
      split; [exact H3 |].
      apply (later_trans t t2 t'); [repeat split; assumption | exact H4].
Qed.

(** The first loop of [RawToken] when the input holds a [<]: it stops with
    the pivot on the first one, having kept the pending input as it is. *)
Lemma RawToken_open_tag (fuel : nat) :
  forall (t : Tokenizer) (pre rest : bytes),
  0 <= cur t <= len (buf t) -> room t (cur t) ->
  (List.length (rdata (r t)) < fuel)%nat ->
  pending t = pre ++ LT :: rest -> ~ In LT pre ->
  exists t',
    RawToken_open fuel t = Ok (inl (cur t' + len pre), t') /\
    0 <= cur t' /\ cur t' + len pre < len (buf t') /\
    pending t' = pending t /\ room t' (cur t') /\ later t t' /\
    (err t = None -> err t' = None).
Proof.
  induction fuel as [| fuel IH]; intros t pre rest Hc Hroom Hfuel Hpend Hpre; [lia |].
  cbn [RawToken_open]. rewrite sliceFrom_in_range by exact Hc. cbn [bind].
  destruct (Z.eqb_spec (IndexByte (skipn (Z.to_nat (cur t)) (buf t)) LT) (-1)) as [E | E].
  - apply IndexByte_none in E.
    destruct (shift_refill t (cur t)) as (t1 & Hm & Hlen1 & Hcases); [lia | lia | exact Hroom |].
    rewrite Hm. cbn [bind].
    destruct Hcases as [(Hrd & _)
                       | (Hrd & t2 & Hr & _ & Hfrom & Hc2 & Hroom2 & Hlater & He2 & Hless & _)].
    + exfalso. unfold pending, from in Hpend. rewrite Hrd, app_nil_r in Hpend.
      apply E. rewrite Hpend. apply in_or_app. right. left. reflexivity.
    + rewrite Hr. cbn [bind].
      destruct (IH t2 pre rest) as (t' & H1 & H2 & H3 & H4 & H5 & H6 & H7).
      * rewrite Hc2. pose proof (len_nonneg (buf t2)). lia.
      * rewrite Hc2. exact Hroom2.
      * lia.
      * unfold pending. rewrite Hc2, Hfrom. exact Hpend.
      * exact Hpre.
      * exists t'. split; [exact H1 |]. split; [exact H2 |]. split; [exact H3 |].
        split; [rewrite H4; unfold pending; rewrite Hc2; exact Hfrom |].
        split; [exact H5 |].
        split; [exact (later_trans _ _ _ Hlater H6) |].
        intros _. apply H7. exact He2.
  - pose proof (IndexByte_app_l _ (rdata (r t)) LT E) as Eapp.
    fold (from t (cur t)) in Eapp. fold (pending t) in Eapp.
    rewrite Hpend, IndexByte_first in Eapp by exact Hpre.
    rewrite <- Eapp.
    destruct (IndexByte_nonneg_or (skipn (Z.to_nat (cur t)) (buf t)) LT) as [E2 | E2];
      [contradiction |].
    rewrite len_skipn in E2 by lia.
    exists t. split; [reflexivity |].
    split; [lia |]. split; [lia |]. split; [reflexivity |].
    split; [exact Hroom |]. split; [apply later_refl |]. intros H. exact H.
Qed.

(** With no [<] left in its input, [RawToken] returns no bytes and the
    reader's final error ([io.EOF] for a reader that ends normally), after
    reading the reader to its end: text that follows the last tag of the
    input, or an input with no tag at all, is never returned. *)
Theorem RawToken_no_more_tags (t : Tokenizer)
  (Hready : ready t) (Hno : ~ In LT (pending t)) :
  exists t',
    RawToken t = Ok (None, Some (rfinal (r t)), t') /\
    err t' = Some (rfinal (r t)) /\ rdata (r t') = [] /\ later t t'.
Proof.
  destruct Hready as (He & Hc & Hroom).
  unfold RawToken. rewrite He.
  destruct (RawToken_open_no_tag (scan_fuel t) t Hc Hroom) as (t' & H1 & H2 & H3 & H4);
    [unfold scan_fuel; lia | exact Hno |].
  rewrite H1. cbn [bind]. exists t'.
  split; [reflexivity |]. split; [exact H2 |]. split; [exact H3 | exact H4].
Qed.

Lemma RawToken_no_more_tags_witness :
  let t := freshTokenizer (str " text ") [WithReadBufferSize 2] in
  exists t',
    RawToken t = Ok (None, Some (rfinal (r t)), t') /\
    err t' = Some (rfinal (r t)) /\ rdata (r t') = [] /\ later t t'.
Proof.
  intros t.
  assert (Hready : ready t).
  { unfold ready, room. vm_compute.
    repeat split; try reflexivity; intros E; discriminate E. }
  assert (Hno : ~ In LT (pending t)) by (apply IndexByte_none; reflexivity).
  exact (RawToken_no_more_tags t Hready Hno).
Defined.


Lemma findTokenEnd_range (b : bytes) (pivot e : Z) :
  0 <= pivot < len b -> findTokenEnd b pivot = Ok e -> e <> -1 ->
  pivot + 1 < e <= len b.
Proof.
  intros Hp H Hne. unfold findTokenEnd, findTokenEnd_fuel in H.
  assert (Hf : len b - (pivot + 1) < Z.of_nat (S (List.length b))) by (unfold len; lia).
  pose proof (findTokenEnd_loop_ok (S (List.length b)) b pivot (pivot + 1)
                ltac:(lia) ltac:(lia) Hf) as Hok.
  rewrite H in Hok. cbn [result_ok] in Hok. destruct Hok as [Hok | (Hok & _)]; [contradiction |].
  exact Hok.
Qed.

Lemma findTokenEnd_no_GT (b : bytes) (pivot : Z) :
  0 <= pivot < len b -> ~ In GT (skipn (Z.to_nat (pivot + 1)) b) ->
  findTokenEnd b pivot = Ok (-1).
Proof.
  intros Hp Hno. unfold findTokenEnd, findTokenEnd_fuel. cbn [findTokenEnd_loop].
  rewrite sliceFrom_in_range by lia. cbn [bind].
  rewrite IndexByte_absent by exact Hno. reflexivity.
Qed.

(** What [RawToken] returns when the reader ends inside a token. *)
Definition endError (e : error) : error :=
  if errors_Is e EOF then ErrUnexpectedEOF else e.

Lemma slice_all (b : bytes) : slice b 0 (len b) = Ok b.
Proof.
  rewrite slice_in_range by (pose proof (len_nonneg b); lia).
  rewrite Z.sub_0_r. cbn [Z.to_nat skipn]. unfold len. rewrite Nat2Z.id, firstn_all.
  reflexivity.
Qed.

(** The second loop of [RawToken] when no [>] follows the pivot in the
    whole input. *)
Lemma RawToken_close_unterminated (fuel : nat) :
  forall (t : Tokenizer) (pivot : Z),
  0 <= cur t <= pivot -> pivot < len (buf t) -> room t pivot ->
  (List.length (rdata (r t)) < fuel)%nat ->
  ~ In GT (from t (pivot + 1)) ->
  exists t',
    RawToken_close fuel t pivot
    = Ok (Some (from t pivot), Some (endError (rfinal (r t))), t') /\
    err t' = Some (endError (rfinal (r t))) /\ rdata (r t') = [] /\ later t t'.
Proof.
  induction fuel as [| fuel IH]; intros t pivot Hc Hp Hroom Hfuel Hno; [lia |].
  cbn [RawToken_close].
  rewrite findTokenEnd_no_GT.
  2:{ lia. }
  2:{ intros Hin. apply Hno. unfold from. apply in_or_app. left. exact Hin. }
  cbn [bind]. change (-1 =? -1) with true. cbv iota.
  destruct (shift_refill t pivot) as (t1 & Hm & Hlen1 & Hcases); [lia | lia | exact Hroom |].
  rewrite Hm. cbn [bind].
  destruct Hcases as [(Hrd & t2 & Hr & Hb & Hc2 & Hr2 & Hn2 & Ho2 & He2)
                     | (Hrd & t2 & Hr & Hlen2 & Hfrom & Hc2 & Hroom2 & Hlater & He2 & Hless & _)];
    rewrite Hr; cbn [bind].
  - fold (endError (rfinal (r t))). cbn [set_err buf].
    assert (Hlen : len (buf t) - pivot = len (buf t2)) by (rewrite Hb, len_skipn; lia).
    rewrite Hlen, slice_all. cbn [bind].
    eexists. split.
    + unfold from. rewrite Hrd, app_nil_r, Hb. reflexivity.
    + cbn [set_err err r n opts]. split; [reflexivity |].
      split; [rewrite Hr2; exact Hrd |].
      unfold later. cbn [set_err r n opts]. rewrite Hr2, Hn2, Ho2. repeat split.
  - destruct (IH t2 0) as (t' & H1 & H2 & H3 & H4).
    + lia.
    + lia.
    + exact Hroom2.
    + lia.
    + rewrite (from_split t2 0 1) by lia. rewrite Hfrom.
      rewrite <- (from_split t pivot 1) by lia. exact Hno.
    + destruct Hlater as (L1 & L2 & L3).
      exists t'. split; [rewrite H1, Hfrom, L2; reflexivity |].
      split; [rewrite H2, L2; reflexivity |].
      split; [exact H3 |].
      apply (later_trans t t2 t'); [repeat split; assumption | exact H4].
Qed.

(** When the input ends inside a token (a [<] with no [>] after it),
    [RawToken] returns everything from that [<] to the end of the input,
    untrimmed, with [io.ErrUnexpectedEOF] (or the reader's own error, when
    that is not [io.EOF]), and stores this error. *)
Theorem RawToken_unterminated (t : Tokenizer) (pre rest : bytes)
  (Hready : ready t) (Hpend : pending t = pre ++ LT :: rest)
  (Hpre : ~ In LT pre) (Hrest : ~ In GT rest) :
  exists t',
    RawToken t = Ok (Some (LT :: rest), Some (endError (rfinal (r t))), t') /\
    err t' = Some (endError (rfinal (r t))) /\ rdata (r t') = [] /\ later t t'.
Proof.
  destruct Hready as (He & Hc & Hroom).
  unfold RawToken. rewrite He.
  destruct (RawToken_open_tag (scan_fuel t) t pre rest Hc Hroom)
    as (t1 & H1 & H2 & H3 & H4 & H5 & H6 & H7);
    [unfold scan_fuel; lia | exact Hpend | exact Hpre |].
  rewrite H1. cbn [bind].
  pose proof (len_nonneg pre) as Hpre0.
  assert (Hfrom : from t1 (cur t1 + len pre) = LT :: rest).
  { rewrite from_split by lia. fold (pending t1). rewrite H4, Hpend.
    apply skipn_len_app. }
  destruct (RawToken_close_unterminated (scan_fuel t1) t1 (cur t1 + len pre))
    as (t' & K1 & K2 & K3 & K4).
  - lia.
  - exact H3.
  - destruct H5 as (R1 & R2). split; [exact R1 | lia].
  - unfold scan_fuel. lia.
  - rewrite from_split by lia. rewrite Hfrom. exact Hrest.
  - destruct H6 as (L1 & L2 & L3).
    exists t'. rewrite K1, Hfrom, L2. split; [reflexivity |].
    split; [rewrite K2, L2; reflexivity |]. split; [exact K3 |].
    apply (later_trans t t1 t'); [repeat split; assumption | exact K4].
Qed.

Lemma RawToken_unterminated_witness :
  let t := freshTokenizer (str "x<a b") [WithReadBufferSize 2] in
  exists t',
    RawToken t = Ok (Some (LT :: str "a b"), Some (endError (rfinal (r t))), t') /\
    err t' = Some (endError (rfinal (r t))) /\ rdata (r t') = [] /\ later t t'.
Proof.
  intros t.
  assert (Hready : ready t).
  { unfold ready, room. vm_compute.
    repeat split; try reflexivity; intros E; discriminate E. }
  assert (Hpend : pending t = (zeros 2 ++ str "x") ++ LT :: str "a b") by reflexivity.
  assert (Hpre : ~ In LT (zeros 2 ++ str "x")) by (apply IndexByte_none; reflexivity).
  assert (Hrest : ~ In GT (str "a b")) by (apply IndexByte_none; reflexivity).
  exact (RawToken_unterminated t _ _ Hready Hpend Hpre Hrest).
Defined.


Lemma res_eq_dec_m1 (x : res Z) : x = Ok (-1) \/ x <> Ok (-1).
Proof.
  destruct x as [z | |]; try (right; discriminate).
  destruct (Z.eq_dec z (-1)) as [-> | H]; [left; reflexivity | right; congruence].
Qed.

Lemma firstn_skipn_split (b : bytes) (k : Z) :
  0 <= k <= len b ->
  b = firstn (Z.to_nat k) b ++ skipn (Z.to_nat k) b /\ len (firstn (Z.to_nat k) b) = k.
Proof.
  intros H. split; [symmetry; apply firstn_skipn |]. rewrite len_firstn. lia.
Qed.

(** The scan for the end of the token at [pivot], in a buffer that holds
    the first bytes of [s] from [pivot] on: either more bytes are needed,
    or the end is the end of the token in [s]. *)
Lemma findTokenEnd_buffered (b ext s : bytes) (pivot e : Z) :
  0 <= pivot < len b -> skipn (Z.to_nat pivot) b ++ ext = s ->
  findTokenEnd s 0 = Ok e -> e <> -1 ->
  (findTokenEnd b pivot = Ok (-1) /\ ext <> []) \/
  (findTokenEnd b pivot = Ok (pivot + e) /\ 1 < e <= len b - pivot).
Proof.
  intros Hp Hs He Hne.
  destruct (firstn_skipn_split b pivot ltac:(lia)) as (Eb & Elen).
  set (bs := skipn (Z.to_nat pivot) b) in *.
  assert (Hbs : len bs = len b - pivot) by (apply len_skipn; lia).
  assert (Hshift : findTokenEnd b pivot = shift_res pivot (findTokenEnd bs 0)).
  { pose proof (findTokenEnd_shift (firstn (Z.to_nat pivot) b) bs 0 ltac:(lia)) as H.
    rewrite <- Eb, Elen, Z.add_0_r in H. exact H. }
  rewrite Hshift.
  destruct (res_eq_dec_m1 (findTokenEnd bs 0)) as [E | E].
  - left. rewrite E. split; [reflexivity |].
    intros ->. rewrite app_nil_r in Hs. rewrite Hs, He in E.
    apply Hne. congruence.
  - right. pose proof (findTokenEnd_extend bs ext 0 ltac:(lia) E) as Hext.
    rewrite Hs, He in Hext. rewrite <- Hext. cbn [shift_res]. unfold shiftZ.
    pose proof (findTokenEnd_range bs 0 e ltac:(lia) (eq_sym Hext) Hne) as Hr.
    replace (e =? -1) with false by (symmetry; apply Z.eqb_neq; exact Hne).
    split; [reflexivity | lia].
Qed.

(** What [RawToken] does once [findTokenEnd] has returned the end [pos] of
    the token at [pivot]: the rest of the body of its second loop. *)
Definition RawToken_finish (t : Tokenizer) (pivot pos : Z)
  : res (gbytes * option error * Tokenizer) :=
  do c <- index (buf t) (pivot + 1);
  do (pivot1, pos1, t1) <-
    (if Byte.eqb c QMARK || Byte.eqb c BANG then Ok (pivot, pos, t)
     else
       do (pivot1, pos1, t1) <- parseCharData t pivot pos;
       Ok (pivot1, pos1 + 1, t1));
  do b <- slice (buf t1) pivot1 pos1;
  Ok (Some (trim b), None, set_cur t1 pos1).

Lemma RawToken_close_finish (fuel : nat) (t : Tokenizer) (pivot pos : Z) :
  findTokenEnd (buf t) pivot = Ok pos -> pos <> -1 ->
  RawToken_close (S fuel) t pivot = RawToken_finish t pivot pos.
Proof.
  intros H Hne. cbn [RawToken_close]. rewrite H. cbn [bind].
  replace (pos =? -1) with false by (symmetry; apply Z.eqb_neq; exact Hne).
  reflexivity.
Qed.

(** The second loop of [RawToken] on a token that is complete in the input:
    it refills the buffer until the whole token is in it, and goes on from
    there. *)
Lemma RawToken_close_found (fuel : nat) :
  forall (t : Tokenizer) (pivot : Z) (s : bytes) (e : Z),
  0 <= cur t <= pivot -> pivot < len (buf t) -> room t pivot ->
  (List.length (rdata (r t)) < fuel)%nat ->
  from t pivot = s -> findTokenEnd s 0 = Ok e -> e <> -1 ->
  exists (t1 : Tokenizer) (p1 : Z),
    RawToken_close fuel t pivot = RawToken_finish t1 p1 (p1 + e) /\
    0 <= cur t1 <= p1 /\ 1 < e /\ p1 + e <= len (buf t1) /\ from t1 p1 = s /\
    room t1 p1 /\ later t t1 /\ (err t = None -> err t1 = None).
Proof.
  induction fuel as [| fuel IH]; intros t pivot s e Hc Hp Hroom Hfuel Hs He Hne; [lia |].
  destruct (findTokenEnd_buffered (buf t) (rdata (r t)) s pivot e ltac:(lia) Hs He Hne)
    as [(Hf & Hext) | (Hf & Hr)].
  - cbn [RawToken_close]. rewrite Hf. cbn [bind]. change (-1 =? -1) with true. cbv iota.
    destruct (shift_refill t pivot) as (t1 & Hm & Hlen1 & Hcases); [lia | lia | exact Hroom |].
    rewrite Hm. cbn [bind].
    destruct Hcases as [(Hrd & _)
                       | (Hrd & t2 & Hrf & Hlen2 & Hfrom & Hc2 & Hroom2 & Hlater & He2 & Hless & _)];
      [contradiction |].
    rewrite Hrf. cbn [bind].
    destruct (IH t2 0 s e) as (t3 & p3 & K1 & K2 & K3 & K4 & K5 & K6 & K7 & K8);
      try assumption; try lia.
    + rewrite Hfrom. exact Hs.
    + exists t3, p3. split; [exact K1 |]. split; [exact K2 |]. split; [exact K3 |].
      split; [exact K4 |]. split; [exact K5 |]. split; [exact K6 |].
      split; [exact (later_trans _ _ _ Hlater K7) |].
      intros _. apply K8. exact He2.
  - exists t, pivot. split; [apply RawToken_close_finish; [exact Hf | lia] |].
    split; [exact Hc |]. split; [lia |]. split; [lia |]. split; [exact Hs |].
    split; [exact Hroom |]. split; [apply later_refl |]. intros H. exact H.
Qed.

Lemma index_1 (a c : byte) (l : bytes) : index (a :: c :: l) 1 = Ok c.
Proof.
  unfold index. rewrite !len_cons. pose proof (len_nonneg l).
  replace (1 <? 1 + (1 + len l)) with true by (symmetry; apply Z.ltb_lt; lia).
  reflexivity.
Qed.

Lemma index_from (t : Tokenizer) (p i : Z) :
  0 <= p -> 0 <= i -> p + i < len (buf t) ->
  index (buf t) (p + i) = index (from t p) i.
Proof.
  intros Hp Hi Hlt. unfold from.
  destruct (firstn_skipn_split (buf t) p ltac:(lia)) as (Eb & Elen).
  rewrite index_app_l by (rewrite len_skipn; lia).
  pose proof (index_shift (firstn (Z.to_nat p) (buf t)) (skipn (Z.to_nat p) (buf t)) i Hi)
    as H.
  rewrite <- Eb, Elen in H. exact H.
Qed.

Lemma slice_from (t : Tokenizer) (p k : Z) :
  0 <= p -> 0 <= k -> p + k <= len (buf t) ->
  slice (buf t) p (p + k) = Ok (firstn (Z.to_nat k) (from t p)).
Proof.
  intros Hp Hk Hle. rewrite slice_in_range by lia.
  replace (p + k - p) with k by lia. unfold from.
  rewrite firstn_app.
  replace (Z.to_nat k - List.length (skipn (Z.to_nat p) (buf t)))%nat with 0%nat.
  - cbn [firstn]. rewrite app_nil_r. reflexivity.
  - rewrite length_skipn. unfold len in Hle. lia.
Qed.

(** ** [parseCharData] against the stream *)

(** The buffer holds, from [pivot] on, the first bytes of the stream [s],
    and the reader holds the rest. *)
Definition holds (t : Tokenizer) (pivot : Z) (s : bytes) : Prop :=
  0 <= cur t <= pivot /\ pivot <= len (buf t) /\ room t pivot /\ from t pivot = s.

Lemma len_from (t : Tokenizer) (p : Z) :
  0 <= p <= len (buf t) -> len (from t p) = len (buf t) - p + len (rdata (r t)).
Proof. intros H. unfold from. rewrite len_app, len_skipn by lia. reflexivity. Qed.

Lemma need_more (t : Tokenizer) (pivot : Z) (s : bytes) :
  holds t pivot s -> len (buf t) - pivot < len s ->
  exists t1 t2,
    memmoveRemainingBytes t pivot = Ok (0, len (buf t) - pivot, t1) /\
    len (buf t1) = len (buf t) - pivot /\
    refill t1 = Ok (None, t2) /\ holds t2 0 s /\
    len (buf t) - pivot < len (buf t2) /\ later t t2 /\ err t2 = None.
Proof.
  intros (Hc & Hp & Hroom & Hs) Hlt.
  destruct (shift_refill t pivot) as (t1 & Hm & Hlen1 & Hcases); [lia | lia | exact Hroom |].
  exists t1.
  destruct Hcases as [(Hrd & _)
                     | (Hrd & t2 & Hr & Hlen2 & Hfrom & Hc2 & Hroom2 & Hlater & He2 & _)].
  - exfalso. rewrite <- Hs, len_from, Hrd, len_nil in Hlt by lia. lia.
  - exists t2. split; [exact Hm |]. split; [exact Hlen1 |]. split; [exact Hr |].
    split.
    { unfold holds. rewrite Hc2. pose proof (len_nonneg (buf t2)).
      split; [lia |]. split; [lia |]. split; [exact Hroom2 |]. congruence. }
    split; [exact Hlen2 |]. split; [exact Hlater | exact He2].
Qed.

Lemma no_more (t : Tokenizer) (pivot : Z) (s : bytes) :
  holds t pivot s -> len s <= len (buf t) - pivot ->
  exists t1 t2,
    memmoveRemainingBytes t pivot = Ok (0, len s, t1) /\
    len (buf t1) = len s /\
    refill t1 = Ok (Some (rfinal (r t)), t2) /\
    buf t2 = s /\ cur t2 = 0 /\ r t2 = r t /\ rdata (r t) = [] /\ n t2 = n t /\
    opts t2 = opts t /\ err t2 = Some (rfinal (r t)).
Proof.
  intros (Hc & Hp & Hroom & Hs) Hle.
  destruct (shift_refill t pivot) as (t1 & Hm & Hlen1 & Hcases); [lia | lia | exact Hroom |].
  assert (Hrd : rdata (r t) = []).
  { apply len_zero_nil. rewrite <- Hs, len_from in Hle by lia.
    pose proof (len_nonneg (rdata (r t))). lia. }
  assert (Hlen : len (buf t) - pivot = len s).
  { rewrite <- Hs, len_from, Hrd, len_nil by lia. lia. }
  exists t1.
  destruct Hcases as [(_ & t2 & Hr & Hb & Hc2 & Hr2 & Hn2 & Ho2 & He2) | (Hne & _)];
    [| contradiction].
  exists t2. rewrite <- Hlen. split; [exact Hm |]. split; [exact Hlen1 |].
  split; [exact Hr |].
  split; [rewrite Hb, <- Hs; unfold from; rewrite Hrd, app_nil_r; reflexivity |].
  repeat split; assumption.
Qed.

(** The start of a turn of the outer loop of [parseCharData]: the refill
    when [i] is at the end of the buffer. *)
Definition charData_more (t : Tokenizer) (pivot pos i : Z)
  : res (bool * Z * Z * Z * Tokenizer) :=
  if i >=? len (buf t) then
    do (pivot1, i1, t1) <- memmoveRemainingBytes t pivot;
    let pos1 := i1 - 1 in
    do (e, t2) <- refill t1;
    match e with
    | Some _ => Ok (true, pivot1, pos1, i1, t2)
    | None => Ok (false, pivot1, pos1, i1, t2)
    end
  else Ok (false, pivot, pos, i, t).

Lemma parseCharData_loop_eq (fuel : nat) (t : Tokenizer) (pivot pos i : Z) :
  parseCharData_loop (S fuel) t pivot pos i
  = do (stop, pivot, pos, i, t) <- charData_more t pivot pos i;
    if (stop : bool) then Ok (pivot, pos, t)
    else
      do c <- index (buf t) i;
      if negb (Byte.eqb c LT) then parseCharData_loop fuel t pivot pos (i + 1)
      else parseCharData_cdata fuel t pivot (i - 1) (i + 1) 1.
Proof. reflexivity. Qed.

(** The start of a turn of the inner loop of [parseCharData]. *)
Definition cdata_more (t : Tokenizer) (pivot pos j : Z)
  : res (bool * Z * Z * Z * Tokenizer) :=
  if j >=? len (buf t) then
    let prevLast := len (buf t) in
    do (pivot1, j1, t1) <- memmoveRemainingBytes t pivot;
    let pos1 := pos - (prevLast - len (buf t1)) in
    do (e, t2) <- refill t1;
    match e with
    | Some e' =>
        let t3 := if errors_Is e' EOF
                  then set_err t2 (Some ErrUnexpectedEOF) else t2 in
        Ok (true, pivot1, pos1, j1, t3)
    | None => Ok (false, pivot1, pos1, j1, t2)
    end
  else Ok (false, pivot, pos, j, t).

Lemma parseCharData_cdata_eq (fuel : nat) (t : Tokenizer) (pivot pos j k : Z) :
  parseCharData_cdata (S fuel) t pivot pos j k
  = do (stop, pivot, pos, j, t) <- cdata_more t pivot pos j;
    if (stop : bool) then Ok (pivot, pos, t)
    else if k <? len prefixCDATA then
      do c <- index (buf t) j;
      do pk <- index prefixCDATA k;
      if negb (Byte.eqb c pk) then Ok (pivot, pos, t)
      else parseCharData_cdata fuel t pivot pos (j + 1) (k + 1)
    else
      do c <- index (buf t) j;
      do found <- andr (Byte.eqb c GT)
                    (do s <- slice (buf t) (j - 2) (j + 1);
                     Ok (bytes_eqb s suffixCDATA));
      if found then Ok (pivot, j, t)
      else parseCharData_cdata fuel t pivot pos (j + 1) k.
Proof. reflexivity. Qed.

(** When the stream has a byte at the offset of [i], the turn goes on with
    that byte in the buffer, at the same offset from the pivot. *)
Lemma charData_more_byte (t : Tokenizer) (pivot pos i : Z) (s : bytes) :
  holds t pivot s -> pivot <= i <= len (buf t) -> i - pivot < len s ->
  exists t' p' pos',
    charData_more t pivot pos i = Ok (false, p', pos', p' + (i - pivot), t') /\
    holds t' p' s /\ p' + (i - pivot) < len (buf t') /\ later t t' /\
    (err t = None -> err t' = None).
Proof.
  intros Hh Hi Hlt. unfold charData_more.
  destruct (Z.geb_spec i (len (buf t))) as [Hge | Hlt2].
  - assert (i = len (buf t)) as -> by lia.
    destruct (need_more t pivot s Hh Hlt) as (t1 & t2 & Hm & _ & Hr & Hh2 & Hlen & Hl & He).
    rewrite Hm. cbn [bind]. rewrite Hr. cbn [bind].
    exists t2, 0, (len (buf t) - pivot - 1).
    split; [reflexivity |]. split; [exact Hh2 |]. split; [lia |].
    split; [exact Hl |]. intros _. exact He.
  - exists t, pivot, pos. replace (pivot + (i - pivot)) with i by lia.
    split; [reflexivity |]. split; [exact Hh |]. split; [lia |].
    split; [apply later_refl |]. intros H. exact H.
Qed.

Lemma cdata_more_byte (t : Tokenizer) (pivot pos j : Z) (s : bytes) :
  holds t pivot s -> pivot <= j <= len (buf t) -> j - pivot < len s ->
  exists t' p',
    cdata_more t pivot pos j
    = Ok (false, p', p' + (pos - pivot), p' + (j - pivot), t') /\
    holds t' p' s /\ p' + (j - pivot) < len (buf t') /\ later t t' /\
    (err t = None -> err t' = None).
Proof.
  intros Hh Hj Hlt. unfold cdata_more.
  destruct (Z.geb_spec j (len (buf t))) as [Hge | Hlt2].
  - assert (j = len (buf t)) as -> by lia.
    destruct (need_more t pivot s Hh Hlt) as (t1 & t2 & Hm & Hlen1 & Hr & Hh2 & Hlen & Hl & He).
    rewrite Hm. cbn [bind]. rewrite Hlen1, Hr. cbn [bind].
    exists t2, 0.
    split; [repeat (f_equal; try lia) |].
    split; [exact Hh2 |]. split; [lia |].
    split; [exact Hl |]. intros _. exact He.
  - exists t, pivot. replace (pivot + (j - pivot)) with j by lia.
    replace (pivot + (pos - pivot)) with pos by lia.
    split; [reflexivity |]. split; [exact Hh |]. split; [lia |].
    split; [apply later_refl |]. intros H. exact H.
Qed.

Lemma index_skipn (s : bytes) (o : Z) (x : byte) (l : bytes) :
  0 <= o -> skipn (Z.to_nat o) s = x :: l -> index s o = Ok x.
Proof.
  intros Ho E.
  assert (Hlen : o <= len s).
  { destruct (Z.le_gt_cases o (len s)) as [H | H]; [exact H |].
    rewrite skipn_all2 in E by (unfold len in H; lia). discriminate. }
  destruct (firstn_skipn_split s o ltac:(lia)) as (Es & Elen).
  rewrite E in Es.
  pose proof (index_at_len (firstn (Z.to_nat o) s) l x) as H.
  rewrite <- Es, Elen in H. exact H.
Qed.

Lemma skipn_succ (s : bytes) (o : Z) (x : byte) (l : bytes) :
  0 <= o -> skipn (Z.to_nat o) s = x :: l -> skipn (Z.to_nat (o + 1)) s = l.
Proof.
  intros Ho E. replace (Z.to_nat (o + 1)) with (1 + Z.to_nat o)%nat by lia.
  rewrite <- skipn_skipn, E. reflexivity.
Qed.

Lemma skipn_nonempty_lt (s : bytes) (o : Z) (x : byte) (l : bytes) :
  0 <= o -> skipn (Z.to_nat o) s = x :: l -> o + len l + 1 = len s.
Proof.
  intros Ho E.
  assert (H : List.length (skipn (Z.to_nat o) s) = S (List.length l)) by (rewrite E; reflexivity).
  rewrite length_skipn in H. unfold len. lia.
Qed.

Lemma index_buf (t : Tokenizer) (p o : Z) (s : bytes) (x : byte) (l : bytes) :
  holds t p s -> 0 <= o -> p + o < len (buf t) ->
  skipn (Z.to_nat o) s = x :: l -> index (buf t) (p + o) = Ok x.
Proof.
  intros (Hc & Hp & _ & Hs) Ho Hlt E.
  rewrite index_from by lia. rewrite Hs. apply (index_skipn s o x l Ho E).
Qed.

(** The inner loop of [parseCharData] on bytes that stop matching
    [<![CDATA[] at [c], after the matching bytes [m]: the positions come
    back as they were, relative to the pivot. *)
Lemma parseCharData_cdata_mismatch (fuel : nat) :
  forall (t : Tokenizer) (pivot pos j k : Z) (s m : bytes) (c : byte) (rest : bytes),
  holds t pivot s -> pivot <= j <= len (buf t) ->
  skipn (Z.to_nat (j - pivot)) s = m ++ c :: rest ->
  0 <= k -> k + len m < len prefixCDATA ->
  firstn (List.length m) (skipn (Z.to_nat k) prefixCDATA) = m ->
  index prefixCDATA (k + len m) <> Ok c ->
  (List.length m < fuel)%nat ->
  exists t' p',
    parseCharData_cdata fuel t pivot pos j k = Ok (p', p' + (pos - pivot), t') /\
    holds t' p' s /\ p' + (j - pivot) + len m < len (buf t') /\ later t t' /\
    (err t = None -> err t' = None).
Proof.
  induction fuel as [| fuel IH];
    intros t pivot pos j k s m c rest Hh Hj E Hk Hkm Hm Hc Hfuel; [lia |].
  rewrite parseCharData_cdata_eq.
  assert (Hlt : j - pivot < len s).
  { destruct m as [| x m']; cbn [app] in E;
      pose proof (skipn_nonempty_lt s (j - pivot) _ _ ltac:(lia) E) as H;
      [pose proof (len_nonneg rest) | pose proof (len_nonneg (m' ++ c :: rest))]; lia. }
  destruct (cdata_more_byte t pivot pos j s Hh Hj Hlt) as (t1 & p1 & Hmore & Hh1 & Hlt1 & Hl1 & He1).
  rewrite Hmore. cbn [bind]. cbv iota.
  pose proof (len_nonneg m) as Hm0.
  replace (k <? len prefixCDATA) with true by (symmetry; apply Z.ltb_lt; lia).
  destruct m as [| x m']; cbn [app] in E.
  - rewrite (index_buf t1 p1 (j - pivot) s c rest Hh1 ltac:(lia) Hlt1 E). cbn [bind].
    destruct (index_in_range prefixCDATA k ltac:(lia)) as (pk & Hpk).
    rewrite Hpk. cbn [bind]. rewrite len_nil, Z.add_0_r in Hc.
    replace (Byte.eqb c pk) with false.
    2:{ symmetry. apply byte_eqb_neq. intros ->. apply Hc. exact Hpk. }
    cbn [negb]. exists t1, p1. split; [reflexivity |]. split; [exact Hh1 |].
    split; [rewrite len_nil; lia |]. split; [exact Hl1 | exact He1].
  - rewrite (index_buf t1 p1 (j - pivot) s x (m' ++ c :: rest) Hh1 ltac:(lia) Hlt1 E).
    cbn [bind].
    destruct (skipn (Z.to_nat k) prefixCDATA) as [| y l'] eqn:Ek;
      [cbn [firstn List.length] in Hm; discriminate |].
    cbn [firstn List.length] in Hm. injection Hm as -> Hm'.
    rewrite (index_skipn prefixCDATA k x l' Hk Ek). cbn [bind].
    rewrite byte_eqb_refl. cbn [negb].
    rewrite len_cons in Hkm, Hc.
    destruct (IH t1 p1 (p1 + (pos - pivot)) (p1 + (j - pivot) + 1) (k + 1) s m' c rest)
      as (t' & p' & K1 & K2 & K3 & K4 & K5).
    + exact Hh1.
    + lia.
    + replace (p1 + (j - pivot) + 1 - p1) with (j - pivot + 1) by lia.
      apply (skipn_succ s (j - pivot) x _ ltac:(lia) E).
    + lia.
    + lia.
    + rewrite (skipn_succ prefixCDATA k x l' Hk Ek). exact Hm'.
    + replace (k + 1 + len m') with (k + (1 + len m')) by lia. exact Hc.
    + cbn [List.length] in Hfuel. lia.
    + exists t', p'. split.
      { rewrite K1. repeat (f_equal; try lia). }
      split; [exact K2 |].
      split; [rewrite len_cons; lia |].
      split; [exact (later_trans _ _ _ Hl1 K4) |].
      intros H. apply K5, He1, H.
Qed.

(** The outer loop of [parseCharData] over text that holds no [<], up to
    the next [<]: it comes to the inner loop at that [<]. *)
Lemma parseCharData_loop_text (fuel : nat) :
  forall (t : Tokenizer) (pivot pos i : Z) (s text after : bytes),
  holds t pivot s -> pivot <= i <= len (buf t) ->
  skipn (Z.to_nat (i - pivot)) s = text ++ LT :: after -> ~ In LT text ->
  (List.length text < fuel)%nat ->
  exists t' p',
    parseCharData_loop fuel t pivot pos i
    = parseCharData_cdata (fuel - S (List.length text)) t' p'
        (p' + (i - pivot) + len text - 1) (p' + (i - pivot) + len text + 1) 1 /\
    holds t' p' s /\ p' + (i - pivot) + len text < len (buf t') /\ later t t' /\
    (err t = None -> err t' = None).
Proof.
  induction fuel as [| fuel IH];
    intros t pivot pos i s text after Hh Hi E Htext Hfuel; [lia |].
  rewrite parseCharData_loop_eq.
  assert (Hlt : i - pivot < len s).
  { destruct text as [| x text']; cbn [app] in E;
      pose proof (skipn_nonempty_lt s (i - pivot) _ _ ltac:(lia) E) as H;
      [pose proof (len_nonneg after) | pose proof (len_nonneg (text' ++ LT :: after))]; lia. }
  destruct (charData_more_byte t pivot pos i s Hh Hi Hlt)
    as (t1 & p1 & pos1 & Hmore & Hh1 & Hlt1 & Hl1 & He1).
  rewrite Hmore. cbn [bind]. cbv iota.
  destruct text as [| x text']; cbn [app] in E.
  - rewrite (index_buf t1 p1 (i - pivot) s LT after Hh1 ltac:(lia) Hlt1 E). cbn [bind].
    rewrite byte_eqb_refl. cbn [negb].
    exists t1, p1. rewrite len_nil, Z.add_0_r. cbn [List.length].
    replace (S fuel - 1)%nat with fuel by lia.
    split; [reflexivity |]. split; [exact Hh1 |]. split; [exact Hlt1 |].
    split; [exact Hl1 | exact He1].
  - rewrite (index_buf t1 p1 (i - pivot) s x (text' ++ LT :: after) Hh1 ltac:(lia) Hlt1 E).
    cbn [bind].
    replace (Byte.eqb x LT) with false.
    2:{ symmetry. apply byte_eqb_neq. intros ->. apply Htext. left. reflexivity. }
    cbn [negb].
    destruct (IH t1 p1 pos1 (p1 + (i - pivot) + 1) s text' after)
      as (t' & p' & K1 & K2 & K3 & K4 & K5).
    + exact Hh1.
    + lia.
    + replace (p1 + (i - pivot) + 1 - p1) with (i - pivot + 1) by lia.
      apply (skipn_succ s (i - pivot) x _ ltac:(lia) E).
    + intros Hin. apply Htext. right. exact Hin.
    + cbn [List.length] in Hfuel. lia.
    + exists t', p'. rewrite len_cons. cbn [List.length].
      replace (S fuel - S (S (List.length text')))%nat
        with (fuel - S (List.length text'))%nat by lia.
      split.
      { rewrite K1. f_equal; lia. }
      split; [exact K2 |]. split; [lia |].
      split; [exact (later_trans _ _ _ Hl1 K4) |].
      intros H. apply K5, He1, H.
Qed.

(** The outer loop of [parseCharData] when no [<] is left in the input: it
    reads the reader to its end and stops with the whole stream in the
    buffer and the reader's final error stored. *)
Lemma parseCharData_loop_eof (fuel : nat) :
  forall (t : Tokenizer) (pivot pos i : Z) (s : bytes),
  holds t pivot s -> pivot <= i <= len (buf t) ->
  ~ In LT (skipn (Z.to_nat (i - pivot)) s) ->
  (List.length (skipn (Z.to_nat (i - pivot)) s) < fuel)%nat ->
  exists t',
    parseCharData_loop fuel t pivot pos i = Ok (0, len s - 1, t') /\
    buf t' = s /\ cur t' = 0 /\ rdata (r t') = [] /\
    err t' = Some (rfinal (r t)) /\ later t t'.
Proof.
  induction fuel as [| fuel IH]; intros t pivot pos i s Hh Hi Hno Hfuel; [lia |].
  rewrite parseCharData_loop_eq.
  destruct (skipn (Z.to_nat (i - pivot)) s) as [| x l] eqn:E.
  - assert (Hle : len s <= i - pivot).
    { pose proof (f_equal (@List.length byte) E) as H. rewrite length_skipn in H.
      cbn [List.length] in H. unfold len. lia. }
    pose proof Hh as (Hc & Hp & Hroom & Hs).
    assert (Hlen : len s = len (buf t) - pivot + len (rdata (r t)))
      by (rewrite <- Hs; apply len_from; lia).
    pose proof (len_nonneg (rdata (r t))) as Hrd0.
    destruct (no_more t pivot s) as (t1 & t2 & Hm & _ & Hr & Hb & Hc2 & Hr2 & Hrd & Hn2 & Ho2 & He2).
    { exact Hh. }
    { lia. }
    unfold charData_more.
    replace (i >=? len (buf t)) with true.
    2:{ symmetry. destruct (Z.geb_spec i (len (buf t))); [reflexivity | lia]. }
    rewrite Hm. cbn [bind]. rewrite Hr. cbn [bind]. cbv iota.
    exists t2. split; [reflexivity |]. split; [exact Hb |]. split; [exact Hc2 |].
    split; [rewrite Hr2; exact Hrd |]. split; [exact He2 |].
    unfold later. rewrite Hr2, Hn2, Ho2. repeat split.
  - assert (Hlt : i - pivot < len s).
    { pose proof (skipn_nonempty_lt s (i - pivot) x l ltac:(lia) E).
      pose proof (len_nonneg l). lia. }
    destruct (charData_more_byte t pivot pos i s Hh Hi Hlt)
      as (t1 & p1 & pos1 & Hmore & Hh1 & Hlt1 & Hl1 & He1).
    rewrite Hmore. cbn [bind]. cbv iota.
    rewrite (index_buf t1 p1 (i - pivot) s x l Hh1 ltac:(lia) Hlt1 E). cbn [bind].
    replace (Byte.eqb x LT) with false.
    2:{ symmetry. apply byte_eqb_neq. intros ->. apply Hno. left. reflexivity. }
    cbn [negb].
    assert (E1 : skipn (Z.to_nat (p1 + (i - pivot) + 1 - p1)) s = l).
    { replace (p1 + (i - pivot) + 1 - p1) with (i - pivot + 1) by lia.
      apply (skipn_succ s (i - pivot) x l ltac:(lia) E). }
    destruct (IH t1 p1 pos1 (p1 + (i - pivot) + 1) s) as (t' & K1 & K2 & K3 & K4 & K5 & K6).
    + exact Hh1.
    + lia.
    + rewrite E1. intros Hin. apply Hno. right. exact Hin.
    + rewrite E1. cbn [List.length] in Hfuel. lia.
    + exists t'. split; [exact K1 |]. split; [exact K2 |]. split; [exact K3 |].
      split; [exact K4 |].
      split; [rewrite K5; destruct Hl1 as (_ & L2 & _); rewrite L2; reflexivity |].
      exact (later_trans _ _ _ Hl1 K6).
Qed.

(** [mismatch p b]: the bytes [b] differ from [p] at some position that
    both have. *)
Fixpoint mismatch (p b : bytes) : bool :=
  match p, b with
  | x :: p', y :: b' => if Byte.eqb x y then mismatch p' b' else true
  | _, _ => false
  end.

Lemma mismatch_split (p b : bytes) :
  mismatch p b = true ->
  exists m c rest,
    b = m ++ c :: rest /\ firstn (List.length m) p = m /\
    (List.length m < List.length p)%nat /\ nth_error p (List.length m) <> Some c.
Proof.
  revert b. induction p as [| x p IH]; intros b H; [discriminate |].
  destruct b as [| y b]; [discriminate |]. cbn [mismatch] in H.
  destruct (Byte.eqb x y) eqn:E.
  - apply byte_eqb_eq in E. subst y.
    destruct (IH b H) as (m & c & rest & -> & Hm & Hlen & Hc).
    exists (x :: m), c, rest. cbn [List.length firstn nth_error].
    split; [reflexivity |]. split; [rewrite Hm; reflexivity |]. split; [lia | exact Hc].
  - exists [], y, b. cbn [List.length firstn nth_error app].
    split; [reflexivity |]. split; [reflexivity |]. split; [lia |].
    intros Heq. injection Heq as ->. rewrite byte_eqb_refl in E. discriminate.
Qed.

Lemma index_nth_error (b : bytes) (i : nat) (c : byte) :
  index b (Z.of_nat i) = Ok c -> nth_error b i = Some c.
Proof.
  unfold index. destruct (_ && _); [| discriminate].
  rewrite Nat2Z.id. destruct (nth_error b i); [congruence | discriminate].
Qed.

(** [RawToken] up to the point where [findTokenEnd] has found the end of
    the next token: the token starts at the first [<] of the pending input,
    and its end is the one [findTokenEnd] gives on the input taken as one
    buffer. *)
Lemma RawToken_reach (t : Tokenizer) (pre rest : bytes) (e : Z) :
  ready t -> pending t = pre ++ LT :: rest -> ~ In LT pre ->
  findTokenEnd (LT :: rest) 0 = Ok e -> e <> -1 ->
  exists (t2 : Tokenizer) (p2 : Z),
    RawToken t = RawToken_finish t2 p2 (p2 + e) /\
    holds t2 p2 (LT :: rest) /\ 1 < e /\ p2 + e <= len (buf t2) /\
    later t t2 /\ err t2 = None.
Proof.
  intros (He & Hcur & Hroom) Hpend Hpre Hend Hfound.
  unfold RawToken. rewrite He.
  destruct (RawToken_open_tag (scan_fuel t) t pre rest Hcur Hroom)
    as (t1 & H1 & H2 & H3 & H4 & H5 & H6 & H7);
    [unfold scan_fuel; lia | exact Hpend | exact Hpre |].
  rewrite H1. cbn [bind].
  pose proof (len_nonneg pre) as Hpre0.
  assert (Hfrom : from t1 (cur t1 + len pre) = LT :: rest).
  { rewrite from_split by lia. fold (pending t1). rewrite H4, Hpend.
    apply skipn_len_app. }
  destruct (RawToken_close_found (scan_fuel t1) t1 (cur t1 + len pre) (LT :: rest) e)
    as (t2 & p2 & K1 & K2 & K3 & K4 & K5 & K6 & K7 & K8);
    try assumption; try lia.
  { destruct H5 as (R1 & R2). split; [exact R1 | lia]. }
  { unfold scan_fuel. lia. }
  exists t2, p2. split; [exact K1 |].
  split; [unfold holds; split; [exact K2 | split; [lia | split; [exact K6 | exact K5]]] |].
  split; [exact K3 |]. split; [exact K4 |].
  split; [exact (later_trans _ _ _ H6 K7) |].
  apply K8, H7, He.
Qed.

Lemma findTokenEnd_whole (tok rest : bytes) :
  findTokenEnd tok 0 = Ok (len tok) ->
  findTokenEnd (tok ++ rest) 0 = Ok (len tok) /\ len tok <> -1 /\ 1 < len tok.
Proof.
  intros H. pose proof (len_nonneg tok) as H0.
  assert (Hne : tok <> []).
  { intros ->. vm_compute in H. discriminate. }
  assert (Hpos : 0 < len tok).
  { destruct tok; [contradiction | rewrite len_cons; pose proof (len_nonneg tok); lia]. }
  split.
  - rewrite findTokenEnd_extend; [exact H | lia |]. rewrite H. intros E. injection E. lia.
  - split; [lia |]. apply (findTokenEnd_range tok 0 (len tok)); [lia | exact H | lia].
Qed.

Lemma holds_from_split (t : Tokenizer) (p k : Z) (s : bytes) :
  holds t p s -> 0 <= k -> p + k <= len (buf t) ->
  from t (p + k) = skipn (Z.to_nat k) s.
Proof.
  intros (Hc & Hp & _ & Hs) Hk Hle. rewrite from_split by lia. rewrite Hs. reflexivity.
Qed.

Lemma holds_slice (t : Tokenizer) (p k : Z) (s : bytes) :
  holds t p s -> 0 <= k -> p + k <= len (buf t) ->
  slice (buf t) p (p + k) = Ok (firstn (Z.to_nat k) s).
Proof.
  intros (Hc & Hp & _ & Hs) Hk Hle. rewrite slice_from by lia. rewrite Hs. reflexivity.
Qed.

Lemma ready_after (t : Tokenizer) (p k : Z) (s : bytes) :
  holds t p s -> 0 <= k -> p + k <= len (buf t) -> err t = None ->
  ready (set_cur t (p + k)).
Proof.
  intros (Hc & Hp & (R1 & R2) & Hs) Hk Hle He. unfold ready, room.
  cbn [set_cur err cur buf opts r].
  split; [exact He |]. split; [lia |]. split; [exact R1 | lia].
Qed.

(** A processing instruction, comment, DOCTYPE or other [<!] construct that
    is complete in the input is returned by [RawToken] whole and trimmed,
    whatever the read size and however the input falls into reads: the
    bytes before its [<] are dropped, and the pending input becomes what
    follows it. *)
Theorem RawToken_non_tag (t : Tokenizer) (pre tok rest : bytes) (c : byte)
  (Hready : ready t) (Hpend : pending t = pre ++ (LT :: c :: tok) ++ rest)
  (Hpre : ~ In LT pre) (Hc : c = QMARK \/ c = BANG)
  (Hend : findTokenEnd (LT :: c :: tok) 0 = Ok (len (LT :: c :: tok))) :
  exists t',
    RawToken t = Ok (Some (trim (LT :: c :: tok)), None, t') /\
    pending t' = rest /\ ready t' /\ later t t'.
Proof.
  destruct (findTokenEnd_whole _ rest Hend) as (Hend' & Hne & Hlen).
  set (tk := LT :: c :: tok) in *.
  destruct (RawToken_reach t pre (c :: tok ++ rest) (len tk) Hready Hpend Hpre Hend' Hne)
    as (t2 & p2 & K1 & K2 & K3 & K4 & K5 & K6).
  change (LT :: c :: tok ++ rest) with (tk ++ rest) in K2.
  rewrite K1. unfold RawToken_finish.
  pose proof K2 as (Hc2 & Hp2 & _ & Hs2).
  rewrite (index_from t2 p2 1) by lia. rewrite Hs2.
  unfold tk at 1. cbn [app]. rewrite index_1. cbn [bind].
  replace (Byte.eqb c QMARK || Byte.eqb c BANG) with true.
  2:{ symmetry. destruct Hc as [-> | ->]; reflexivity. }
  cbn [bind]. rewrite (holds_slice t2 p2 (len tk) _ K2) by lia.
  rewrite firstn_len_app. cbn [bind].
  eexists. split; [reflexivity |].
  split.
  { unfold pending. cbn [set_cur cur].
    change (from (set_cur t2 (p2 + len tk)) (p2 + len tk)) with (from t2 (p2 + len tk)).
    rewrite (holds_from_split t2 p2 (len tk) _ K2) by lia. apply skipn_len_app. }
  split; [apply (ready_after t2 p2 (len tk) _ K2); [lia | lia | exact K6] |].
  exact K5.
Qed.

Lemma RawToken_non_tag_witness :
  let t := freshTokenizer (str "<!-- a > b --><x/>") [WithReadBufferSize 1] in
  exists t',
    RawToken t = Ok (Some (trim (LT :: BANG :: str "-- a > b -->")), None, t') /\
    pending t' = str "<x/>" /\ ready t' /\ later t t'.
Proof.
  intros t.
  assert (Hready : ready t).
  { unfold ready, room. vm_compute.
    repeat split; try reflexivity; intros E; discriminate E. }
  assert (Hpend : pending t = zeros 1 ++ (LT :: BANG :: str "-- a > b -->") ++ str "<x/>")
    by reflexivity.
  assert (Hpre : ~ In LT (zeros 1)) by (apply IndexByte_none; reflexivity).
  assert (Hend : findTokenEnd (LT :: BANG :: str "-- a > b -->") 0
                 = Ok (len (LT :: BANG :: str "-- a > b -->"))) by reflexivity.
  exact (RawToken_non_tag t _ _ _ BANG Hready Hpend Hpre (or_intror eq_refl) Hend).
Defined.


Lemma mismatch_cdata (after : bytes) :
  mismatch (skipn 1 prefixCDATA) after = true ->
  exists m c rest,
    after = m ++ c :: rest /\ 1 + len m < len prefixCDATA /\
    firstn (List.length m) (skipn (Z.to_nat 1) prefixCDATA) = m /\
    index prefixCDATA (1 + len m) <> Ok c.
Proof.
  intros H. destruct (mismatch_split _ _ H) as (m & c & rest & E & Hm & Hlen & Hc).
  exists m, c, rest. split; [exact E |].
  assert (H8 : List.length (skipn 1 prefixCDATA) = 8%nat) by reflexivity.
  assert (H9 : len prefixCDATA = 9) by reflexivity.
  rewrite H8 in Hlen. rewrite H9.
  split; [unfold len; lia |].
  split; [exact Hm |].
  intros Hi. apply Hc.
  replace (1 + len m) with (Z.of_nat (S (List.length m))) in Hi by (unfold len; lia).
  apply index_nth_error in Hi. exact Hi.
Qed.

(** An element tag that is followed by text and then by a [<] that does
    not open a CDATA section: [RawToken] returns the tag together with the
    text up to that [<], trimmed as one span, whatever the read size and
    however the input falls into reads, and the pending input starts at
    that [<]. *)
Theorem RawToken_element (t : Tokenizer) (pre tag text after : bytes) (c : byte)
  (Hready : ready t)
  (Hpend : pending t = pre ++ (LT :: c :: tag) ++ text ++ LT :: after)
  (Hpre : ~ In LT pre) (Hq : c <> QMARK) (Hb : c <> BANG)
  (Hend : findTokenEnd (LT :: c :: tag) 0 = Ok (len (LT :: c :: tag)))
  (Htext : ~ In LT text)
  (Hafter : mismatch (skipn 1 prefixCDATA) after = true) :
  exists t',
    RawToken t = Ok (Some (trim ((LT :: c :: tag) ++ text)), None, t') /\
    pending t' = LT :: after /\ ready t' /\ later t t'.
Proof.
  destruct (findTokenEnd_whole _ (text ++ LT :: after) Hend) as (Hend' & Hne & Hlen).
  set (tk := LT :: c :: tag) in *.
  set (s := tk ++ text ++ LT :: after) in *.
  destruct (RawToken_reach t pre (c :: tag ++ text ++ LT :: after) (len tk)
              Hready Hpend Hpre Hend' Hne)
    as (t2 & p2 & K1 & K2 & K3 & K4 & K5 & K6).
  change (LT :: c :: tag ++ text ++ LT :: after) with s in K2.
  rewrite K1. unfold RawToken_finish.
  pose proof K2 as (Hc2 & Hp2 & _ & Hs2).
  rewrite (index_from t2 p2 1) by lia. rewrite Hs2.
  unfold s at 1. unfold tk at 1. cbn [app]. rewrite index_1. cbn [bind].
  replace (Byte.eqb c QMARK || Byte.eqb c BANG) with false.
  2:{ symmetry. apply orb_false_iff. split; apply byte_eqb_neq; assumption. }
  pose proof (len_nonneg text) as Htext0. pose proof (len_nonneg after) as Hafter0.
  assert (Hlens : len s = len tk + len text + 1 + len after).
  { unfold s. rewrite !len_app, len_cons. lia. }
  assert (Hfuel : Z.of_nat (scan_fuel t2) = p2 + len s + 2).
  { unfold scan_fuel. rewrite <- Hs2, len_from by lia. unfold len. lia. }
  unfold parseCharData.
  destruct (parseCharData_loop_text (scan_fuel t2) t2 p2 (p2 + len tk) (p2 + len tk)
              s text after K2)
    as (t3 & p3 & L1 & L2 & L3 & L4 & L5).
  { lia. }
  { replace (p2 + len tk - p2) with (len tk) by lia. unfold s. apply skipn_len_app. }
  { exact Htext. }
  { unfold len in *. lia. }
  replace (p2 + len tk - p2) with (len tk) in * by lia.
  rewrite L1.
  destruct (mismatch_cdata after Hafter) as (m & x & rest & Eafter & Hm1 & Hm2 & Hm3).
  pose proof (len_nonneg m) as Hm0. pose proof (len_nonneg rest) as Hrest0.
  assert (Hlena : len after = len m + 1 + len rest).
  { rewrite Eafter, len_app, len_cons. lia. }
  destruct (parseCharData_cdata_mismatch (scan_fuel t2 - S (List.length text)) t3 p3
              (p3 + len tk + len text - 1) (p3 + len tk + len text + 1) 1 s m x rest L2)
    as (t4 & p4 & M1 & M2 & M3 & M4 & M5).
  { lia. }
  { replace (p3 + len tk + len text + 1 - p3) with (len (tk ++ text ++ [LT]))
      by (rewrite !len_app, len_cons, len_nil; lia).
    unfold s. rewrite <- Eafter.
    replace (tk ++ text ++ LT :: after) with ((tk ++ text ++ [LT]) ++ after)
      by (rewrite <- !app_assoc; reflexivity).
    apply skipn_len_app. }
  { lia. }
  { exact Hm1. }
  { exact Hm2. }
  { exact Hm3. }
  { unfold len in *. lia. }
  rewrite M1. cbn [bind].
  replace (p4 + (p3 + len tk + len text - 1 - p3) + 1) with (p4 + (len tk + len text)) by lia.
  rewrite (holds_slice t4 p4 (len tk + len text) s M2) by lia.
  assert (Efirst : firstn (Z.to_nat (len tk + len text)) s = tk ++ text).
  { unfold s. rewrite app_assoc, <- len_app. apply firstn_len_app. }
  assert (Eskip : skipn (Z.to_nat (len tk + len text)) s = LT :: after).
  { unfold s. rewrite app_assoc, <- len_app. apply skipn_len_app. }
  rewrite Efirst. cbn [bind].
  eexists. split; [reflexivity |].
  split.
  { unfold pending. cbn [set_cur cur].
    change (from (set_cur t4 (p4 + (len tk + len text))) (p4 + (len tk + len text)))
      with (from t4 (p4 + (len tk + len text))).
    rewrite (holds_from_split t4 p4 (len tk + len text) s M2) by lia. exact Eskip. }
  split.
  { apply (ready_after t4 p4 (len tk + len text) s M2); [lia | lia |].
    apply M5, L5, K6. }
  exact (later_trans _ _ _ K5 (later_trans _ _ _ L4 M4)).
Qed.

Lemma RawToken_element_witness :
  let t := freshTokenizer (str "<a>hi</a>") [WithReadBufferSize 2] in
  exists t',
    RawToken t = Ok (Some (trim ((LT :: "a"%byte :: str ">") ++ str "hi")), None, t') /\
    pending t' = LT :: str "/a>" /\ ready t' /\ later t t'.
Proof.
  intros t.
  assert (Hready : ready t).
  { unfold ready, room. vm_compute.
    repeat split; try reflexivity; intros E; discriminate E. }
  assert (Hpend : pending t
                  = zeros 2 ++ (LT :: "a"%byte :: str ">") ++ str "hi" ++ LT :: str "/a>")
    by reflexivity.
  assert (Hpre : ~ In LT (zeros 2)) by (apply IndexByte_none; reflexivity).
  assert (Hq : "a"%byte <> QMARK) by discriminate.
  assert (Hb : "a"%byte <> BANG) by discriminate.
  assert (Hend : findTokenEnd (LT :: "a"%byte :: str ">") 0
                 = Ok (len (LT :: "a"%byte :: str ">"))) by reflexivity.
  assert (Htext : ~ In LT (str "hi")) by (apply IndexByte_none; reflexivity).
  assert (Hafter : mismatch (skipn 1 prefixCDATA) (str "/a>") = true) by reflexivity.
  exact (RawToken_element t _ _ _ _ _ Hready Hpend Hpre Hq Hb Hend Htext Hafter).
Defined.


(** The last element tag of the input: when no [<] follows a tag,
    [RawToken] returns the tag together with all the text to the end of the
    input, with no error; the reader's final error (whatever it is) is
    stored and comes out at the next call. *)
Theorem RawToken_last_element (t : Tokenizer) (pre tag text : bytes) (c : byte)
  (Hready : ready t) (Hpend : pending t = pre ++ (LT :: c :: tag) ++ text)
  (Hpre : ~ In LT pre) (Hq : c <> QMARK) (Hb : c <> BANG)
  (Hend : findTokenEnd (LT :: c :: tag) 0 = Ok (len (LT :: c :: tag)))
  (Htext : ~ In LT text) :
  exists t',
    RawToken t = Ok (Some (trim ((LT :: c :: tag) ++ text)), None, t') /\
    pending t' = [] /\ err t' = Some (rfinal (r t)) /\ later t t'.
Proof.
  destruct (findTokenEnd_whole _ text Hend) as (Hend' & Hne & Hlen).
  set (tk := LT :: c :: tag) in *.
  set (s := tk ++ text) in *.
  destruct (RawToken_reach t pre (c :: tag ++ text) (len tk) Hready Hpend Hpre Hend' Hne)
    as (t2 & p2 & K1 & K2 & K3 & K4 & K5 & K6).
  change (LT :: c :: tag ++ text) with s in K2.
  rewrite K1. unfold RawToken_finish.
  pose proof K2 as (Hc2 & Hp2 & _ & Hs2).
  rewrite (index_from t2 p2 1) by lia. rewrite Hs2.
  unfold s at 1. unfold tk at 1. cbn [app]. rewrite index_1. cbn [bind].
  replace (Byte.eqb c QMARK || Byte.eqb c BANG) with false.
  2:{ symmetry. apply orb_false_iff. split; apply byte_eqb_neq; assumption. }
  pose proof (len_nonneg text) as Htext0.
  assert (Hlens : len s = len tk + len text) by (unfold s; apply len_app).
  assert (Hskip : skipn (Z.to_nat (p2 + len tk - p2)) s = text).
  { replace (p2 + len tk - p2) with (len tk) by lia. unfold s. apply skipn_len_app. }
  unfold parseCharData.
  destruct (parseCharData_loop_eof (scan_fuel t2) t2 p2 (p2 + len tk) (p2 + len tk) s K2)
    as (t3 & L1 & L2 & L3 & L4 & L5 & L6).
  { lia. }
  { rewrite Hskip. exact Htext. }
  { rewrite Hskip. unfold scan_fuel.
    assert (H : len s = len (buf t2) - p2 + len (rdata (r t2)))
      by (rewrite <- Hs2; apply len_from; lia).
    unfold len in *. lia. }
  rewrite L1. cbn [bind].
  replace (len s - 1 + 1) with (len s) by lia.
  rewrite L2, slice_all. cbn [bind].
  eexists. split; [reflexivity |].
  split.
  { unfold pending, from. cbn [set_cur cur buf r]. rewrite L2, L4, app_nil_r.
    apply skipn_all2. unfold len. lia. }
  split.
  { cbn [set_cur err]. rewrite L5. destruct K5 as (_ & R2 & _). rewrite R2. reflexivity. }
  apply (later_trans _ _ _ K5). destruct L6 as (A1 & A2 & A3). repeat split; assumption.
Qed.

Lemma RawToken_last_element_witness :
  let t := freshTokenizer (str "<a/> bye ") [WithReadBufferSize 2] in
  exists t',
    RawToken t = Ok (Some (trim ((LT :: "a"%byte :: str "/>") ++ str " bye ")), None, t') /\
    pending t' = [] /\ err t' = Some (rfinal (r t)) /\ later t t'.
Proof.
  intros t.
  assert (Hready : ready t).
  { unfold ready, room. vm_compute.
    repeat split; try reflexivity; intros E; discriminate E. }
  assert (Hpend : pending t = zeros 2 ++ (LT :: "a"%byte :: str "/>") ++ str " bye ")
    by reflexivity.
  assert (Hpre : ~ In LT (zeros 2)) by (apply IndexByte_none; reflexivity).
  assert (Hq : "a"%byte <> QMARK) by discriminate.
  assert (Hb : "a"%byte <> BANG) by discriminate.
  assert (Hend : findTokenEnd (LT :: "a"%byte :: str "/>") 0
                 = Ok (len (LT :: "a"%byte :: str "/>"))) by reflexivity.
  assert (Htext : ~ In LT (str " bye ")) by (apply IndexByte_none; reflexivity).
  exact (RawToken_last_element t _ _ _ _ Hready Hpend Hpre Hq Hb Hend Htext).
Defined.

(** ** CDATA sections after an element tag *)

(** The three bytes of [s] from index [k] on are the CDATA terminator. *)
Definition endsAtN (s : bytes) (k : nat) : bool :=
  bytes_eqb (firstn 3 (skipn k s)) suffixCDATA.

(** The test of the inner loop of [parseCharData] at offset [o] of the
    stream: the three bytes that end at [o] are the terminator. *)
Definition endsAt (s : bytes) (o : Z) : bool := endsAtN s (Z.to_nat (o - 2)).

Lemma endsAtN_split (s : bytes) (k : nat) :
  endsAtN s k = true -> s = firstn k s ++ suffixCDATA ++ skipn (k + 3) s.
Proof.
  unfold endsAtN. intros H. apply bytes_eqb_eq in H.
  rewrite <- H. rewrite <- (firstn_skipn k s) at 1. f_equal.
  rewrite <- (firstn_skipn 3 (skipn k s)) at 1. f_equal.
  rewrite skipn_skipn. f_equal. lia.
Qed.

Lemma endsAt_GT (s : bytes) (o : Z) :
  2 <= o -> endsAt s o = true -> exists l, skipn (Z.to_nat o) s = GT :: l.
Proof.
  intros Ho H. unfold endsAt in H. apply endsAtN_split in H.
  exists (skipn (Z.to_nat (o - 2) + 3) s).
  assert (Hlen : (Z.to_nat (o - 2) <= List.length s)%nat).
  { destruct (Nat.le_gt_cases (Z.to_nat (o - 2)) (List.length s)) as [L | L]; [exact L |].
    exfalso. pose proof (f_equal (@List.length byte) H) as HL.
    rewrite !length_app, length_firstn in HL. cbn [suffixCDATA str] in HL.
    change (List.length suffixCDATA) with 3%nat in HL. lia. }
  rewrite H at 1.
  replace (Z.to_nat o) with (List.length (firstn (Z.to_nat (o - 2)) s) + 2)%nat
    by (rewrite length_firstn; lia).
  rewrite skipn_app_len. reflexivity.
Qed.

Lemma slice_holds (t : Tokenizer) (p a k : Z) (s : bytes) :
  holds t p s -> 0 <= a -> 0 <= k -> p + a + k <= len (buf t) ->
  slice (buf t) (p + a) (p + a + k)
  = Ok (firstn (Z.to_nat k) (skipn (Z.to_nat a) s)).
Proof.
  intros (Hc & Hp & _ & Hs) Ha Hk Hle.
  rewrite slice_from by lia. rewrite from_split by lia. rewrite Hs. reflexivity.
Qed.

(** The inner loop of [parseCharData] once [<![CDATA[] is matched: it goes
    on to the first [>] that ends a []]>]. *)
Lemma parseCharData_cdata_scan (fuel : nat) :
  forall (d : nat) (t : Tokenizer) (pivot pos j : Z) (s : bytes),
  holds t pivot s -> pivot + 2 <= j <= len (buf t) ->
  endsAt s (j - pivot + Z.of_nat d) = true ->
  (forall d', (d' < d)%nat -> endsAt s (j - pivot + Z.of_nat d') = false) ->
  (d < fuel)%nat ->
  exists t' p',
    parseCharData_cdata fuel t pivot pos j (len prefixCDATA)
    = Ok (p', p' + (j - pivot) + Z.of_nat d, t') /\
    holds t' p' s /\ p' + (j - pivot) + Z.of_nat d < len (buf t') /\ later t t' /\
    (err t = None -> err t' = None).
Proof.
  induction fuel as [| fuel IH]; intros d t pivot pos j s Hh Hj Hend Hnot Hfuel; [lia |].
  rewrite parseCharData_cdata_eq.
  destruct (endsAt_GT s (j - pivot + Z.of_nat d) ltac:(lia) Hend) as (lend & Elend).
  pose proof (skipn_nonempty_lt s (j - pivot + Z.of_nat d) GT lend ltac:(lia) Elend) as Hlend.
  pose proof (len_nonneg lend) as Hlend0.
  assert (Hlt : j - pivot < len s) by lia.
  destruct (cdata_more_byte t pivot pos j s Hh ltac:(lia) Hlt)
    as (t1 & p1 & Hmore & Hh1 & Hlt1 & Hl1 & He1).
  rewrite Hmore. cbn [bind]. cbv iota.
  rewrite Z.ltb_irrefl.
  destruct (skipn (Z.to_nat (j - pivot)) s) as [| x l] eqn:E.
  { exfalso. pose proof (f_equal (@List.length byte) E) as HL.
    rewrite length_skipn in HL. cbn [List.length] in HL. unfold len in Hlt. lia. }
  rewrite (index_buf t1 p1 (j - pivot) s x l Hh1 ltac:(lia) Hlt1 E). cbn [bind].
  assert (Hslice : slice (buf t1) (p1 + (j - pivot) - 2) (p1 + (j - pivot) + 1)
                   = Ok (firstn 3 (skipn (Z.to_nat (j - pivot - 2)) s))).
  { replace (p1 + (j - pivot) - 2) with (p1 + (j - pivot - 2)) by lia.
    replace (p1 + (j - pivot) + 1) with (p1 + (j - pivot - 2) + 3) by lia.
    apply (slice_holds t1 p1 (j - pivot - 2) 3 s Hh1); lia. }
  assert (Hfound :
            andr (Byte.eqb x GT)
              (do s0 <- slice (buf t1) (p1 + (j - pivot) - 2) (p1 + (j - pivot) + 1);
               Ok (bytes_eqb s0 suffixCDATA))
            = Ok (endsAt s (j - pivot))).
  { destruct (Byte.eqb x GT) eqn:Ex; cbn [andr].
    - rewrite Hslice. reflexivity.
    - f_equal. symmetry. destruct (endsAt s (j - pivot)) eqn:Ee; [| reflexivity].
      destruct (endsAt_GT s (j - pivot) ltac:(lia) Ee) as (l' & El').
      rewrite E in El'. injection El' as -> _. rewrite byte_eqb_refl in Ex. discriminate. }
  rewrite Hfound. cbn [bind].
  destruct d as [| d'].
  - rewrite Z.add_0_r in Hend. rewrite Hend.
    exists t1, p1. rewrite !Z.add_0_r.
    split; [reflexivity |]. split; [exact Hh1 |]. split; [exact Hlt1 |].
    split; [exact Hl1 | exact He1].
  - pose proof (Hnot 0%nat ltac:(lia)) as H0. rewrite Z.add_0_r in H0. rewrite H0.
    destruct (IH d' t1 p1 (p1 + (pos - pivot)) (p1 + (j - pivot) + 1) s)
      as (t' & p' & K1 & K2 & K3 & K4 & K5).
    + exact Hh1.
    + lia.
    + replace (p1 + (j - pivot) + 1 - p1 + Z.of_nat d')
        with (j - pivot + Z.of_nat (S d')) by lia. exact Hend.
    + intros d'' Hd''.
      replace (p1 + (j - pivot) + 1 - p1 + Z.of_nat d'')
        with (j - pivot + Z.of_nat (S d'')) by lia.
      apply Hnot. lia.
    + lia.
    + exists t', p'. split.
      { rewrite K1. repeat (f_equal; try lia). }
      split; [exact K2 |]. split; [lia |].
      split; [exact (later_trans _ _ _ Hl1 K4) |].
      intros H. apply K5, He1, H.
Qed.

(** The inner loop of [parseCharData] over bytes [m] that match what is
    left of [<![CDATA[]. *)
Lemma parseCharData_cdata_match (m : bytes) :
  forall (fuel : nat) (t : Tokenizer) (pivot pos j k : Z) (s x : bytes),
  holds t pivot s -> pivot <= j <= len (buf t) ->
  skipn (Z.to_nat (j - pivot)) s = m ++ x ->
  0 <= k -> k + len m <= len prefixCDATA ->
  firstn (List.length m) (skipn (Z.to_nat k) prefixCDATA) = m ->
  (List.length m <= fuel)%nat ->
  exists t' p',
    parseCharData_cdata fuel t pivot pos j k
    = parseCharData_cdata (fuel - List.length m) t' p' (p' + (pos - pivot))
        (p' + (j - pivot) + len m) (k + len m) /\
    holds t' p' s /\ p' + (j - pivot) + len m <= len (buf t') /\ later t t' /\
    (err t = None -> err t' = None).
Proof.
  induction m as [| y m IH]; intros fuel t pivot pos j k s x Hh Hj E Hk Hkm Hm Hfuel.
  - exists t, pivot. rewrite len_nil, !Z.add_0_r. cbn [List.length].
    rewrite Nat.sub_0_r.
    replace (pivot + (pos - pivot)) with pos by lia.
    replace (pivot + (j - pivot)) with j by lia.
    split; [reflexivity |]. split; [exact Hh |]. split; [lia |].
    split; [apply later_refl |]. intros H. exact H.
  - destruct fuel as [| fuel]; [cbn [List.length] in Hfuel; lia |].
    rewrite parseCharData_cdata_eq. cbn [app] in E.
    rewrite len_cons in Hkm. pose proof (len_nonneg m) as Hm0.
    assert (Hlt : j - pivot < len s).
    { pose proof (skipn_nonempty_lt s (j - pivot) _ _ ltac:(lia) E) as H.
      pose proof (len_nonneg (m ++ x)). lia. }
    destruct (cdata_more_byte t pivot pos j s Hh Hj Hlt)
      as (t1 & p1 & Hmore & Hh1 & Hlt1 & Hl1 & He1).
    rewrite Hmore. cbn [bind]. cbv iota.
    replace (k <? len prefixCDATA) with true by (symmetry; apply Z.ltb_lt; lia).
    rewrite (index_buf t1 p1 (j - pivot) s y (m ++ x) Hh1 ltac:(lia) Hlt1 E). cbn [bind].
    destruct (skipn (Z.to_nat k) prefixCDATA) as [| y' l'] eqn:Ek;
      [cbn [firstn List.length] in Hm; discriminate |].
    cbn [firstn List.length] in Hm. injection Hm as -> Hm'.
    rewrite (index_skipn prefixCDATA k y l' Hk Ek). cbn [bind].
    rewrite byte_eqb_refl. cbn [negb].
    destruct (IH fuel t1 p1 (p1 + (pos - pivot)) (p1 + (j - pivot) + 1) (k + 1) s x)
      as (t' & p' & K1 & K2 & K3 & K4 & K5).
    + exact Hh1.
    + lia.
    + replace (p1 + (j - pivot) + 1 - p1) with (j - pivot + 1) by lia.
      apply (skipn_succ s (j - pivot) y _ ltac:(lia) E).
    + lia.
    + lia.
    + rewrite (skipn_succ prefixCDATA k y l' Hk Ek). exact Hm'.
    + cbn [List.length] in Hfuel. lia.
    + exists t', p'. rewrite len_cons. cbn [List.length Nat.sub].
      split.
      { rewrite K1. f_equal; lia. }
      split; [exact K2 |]. split; [lia |].
      split; [exact (later_trans _ _ _ Hl1 K4) |].
      intros H. apply K5, He1, H.
Qed.

Lemma endsAtN_shift (a s : bytes) (k : nat) :
  endsAtN (a ++ s) (List.length a + k) = endsAtN s k.
Proof. unfold endsAtN. rewrite skipn_app_len. reflexivity. Qed.

(** No terminator starts inside [body] when []]>] does not occur in [body]
    followed by []]]: the terminator that follows [body] is the first. *)
Lemma first_terminator (body rest : bytes) (k : nat) :
  (forall a b, body ++ str "]]" <> a ++ suffixCDATA ++ b) ->
  (k < List.length body)%nat ->
  endsAtN (body ++ suffixCDATA ++ rest) k = false.
Proof.
  intros H Hk. destruct (endsAtN (body ++ suffixCDATA ++ rest) k) eqn:E; [| reflexivity].
  exfalso. apply endsAtN_split in E.
  set (Y := body ++ suffixCDATA ++ rest) in *.
  apply (H (firstn k Y) (firstn (List.length body + 2 - (k + 3)) (skipn (k + 3) Y))).
  assert (Hb : body ++ str "]]" = firstn (List.length body + 2) Y).
  { unfold Y. rewrite firstn_app.
    replace (List.length body + 2 - List.length body)%nat with 2%nat by lia.
    rewrite firstn_all2 by lia. reflexivity. }
  rewrite Hb. rewrite E at 1.
  assert (Hlen : List.length (firstn k Y) = k).
  { apply firstn_length_le. unfold Y. rewrite length_app. lia. }
  rewrite firstn_app, Hlen.
  rewrite (firstn_all2 (n := List.length body + 2)) by lia.
  f_equal. rewrite firstn_app.
  change (List.length suffixCDATA) with 3%nat.
  rewrite (firstn_all2 (n := List.length body + 2 - k)).
  2:{ change (List.length suffixCDATA) with 3%nat. lia. }
  f_equal. f_equal. lia.
Qed.

Lemma terminator_here (body rest : bytes) :
  endsAtN (body ++ suffixCDATA ++ rest) (List.length body) = true.
Proof.
  unfold endsAtN. replace (List.length body) with (List.length body + 0)%nat by lia.
  rewrite skipn_app_len. cbn [skipn]. apply bytes_eqb_eq. reflexivity.
Qed.

Lemma no_terminator_in_prefix (y : bytes) (k : nat) :
  (7 <= k < 9)%nat -> endsAtN (prefixCDATA ++ y) k = false.
Proof.
  intros Hk. destruct (endsAtN (prefixCDATA ++ y) k) eqn:E; [| reflexivity].
  exfalso. unfold endsAtN in E. apply bytes_eqb_eq in E.
  assert (k = 7 \/ k = 8)%nat as [-> | ->] by lia;
    cbn [prefixCDATA str app skipn firstn] in E; vm_compute in E; discriminate.
Qed.

(** [startsWith p l]: [l] begins with [p]; [occursIn p l]: [p] occurs in
    [l]. *)
Fixpoint startsWith (p l : bytes) : bool :=
  match p, l with
  | [], _ => true
  | x :: p', y :: l' => Byte.eqb x y && startsWith p' l'
  | _ :: _, [] => false
  end.

Fixpoint occursIn (p l : bytes) : bool :=
  startsWith p l ||
  match l with
  | [] => false
  | _ :: l' => occursIn p l'
  end.

Lemma startsWith_app (p b : bytes) : startsWith p (p ++ b) = true.
Proof.
  induction p as [| x p IH]; cbn [startsWith app]; [reflexivity |].
  rewrite byte_eqb_refl, IH. reflexivity.
Qed.

Lemma occursIn_app (p a b : bytes) : occursIn p (a ++ p ++ b) = true.
Proof.
  induction a as [| x a IH]; cbn [app].
  - destruct (p ++ b) eqn:E; cbn [occursIn]; rewrite <- E, startsWith_app; reflexivity.
  - cbn [occursIn]. rewrite IH. apply orb_true_r.
Qed.

Lemma not_occursIn (p l : bytes) :
  occursIn p l = false -> forall a b, l <> a ++ p ++ b.
Proof.
  intros H a b E. rewrite E, occursIn_app in H. discriminate.
Qed.

(** An element tag followed by text and then by a CDATA section:
    [RawToken] returns the tag, the text and the whole section, up to and
    including the first []]>] after [<![CDATA[], as one trimmed span,
    whatever the read size and however the input falls into reads; a [<] or
    [>] inside the section does not end it.  The pending input becomes
    what follows the section. *)
Theorem RawToken_element_cdata (t : Tokenizer) (pre tag text body rest : bytes) (c : byte)
  (Hready : ready t)
  (Hpend : pending t
           = pre ++ (LT :: c :: tag) ++ text ++ prefixCDATA ++ body ++ suffixCDATA ++ rest)
  (Hpre : ~ In LT pre) (Hq : c <> QMARK) (Hb : c <> BANG)
  (Hend : findTokenEnd (LT :: c :: tag) 0 = Ok (len (LT :: c :: tag)))
  (Htext : ~ In LT text)
  (Hbody : forall a b, body ++ str "]]" <> a ++ suffixCDATA ++ b) :
  exists t',
    RawToken t
    = Ok (Some (trim ((LT :: c :: tag) ++ text ++ prefixCDATA ++ body ++ suffixCDATA)),
          None, t') /\
    pending t' = rest /\ ready t' /\ later t t'.
Proof.
  set (Y := body ++ suffixCDATA ++ rest) in *.
  set (m := skipn 1 prefixCDATA).
  assert (Eprefix : prefixCDATA ++ Y = LT :: m ++ Y) by reflexivity.
  destruct (findTokenEnd_whole _ (text ++ prefixCDATA ++ Y) Hend) as (Hend' & Hne & Hlen).
  set (tk := LT :: c :: tag) in *.
  set (s := tk ++ text ++ prefixCDATA ++ Y) in *.
  destruct (RawToken_reach t pre (c :: tag ++ text ++ prefixCDATA ++ Y) (len tk)
              Hready Hpend Hpre Hend' Hne)
    as (t2 & p2 & K1 & K2 & K3 & K4 & K5 & K6).
  change (LT :: c :: tag ++ text ++ prefixCDATA ++ Y) with s in K2.
  rewrite K1. unfold RawToken_finish.
  pose proof K2 as (Hc2 & Hp2 & _ & Hs2).
  rewrite (index_from t2 p2 1) by lia. rewrite Hs2.
  unfold s at 1. unfold tk at 1. cbn [app]. rewrite index_1. cbn [bind].
  replace (Byte.eqb c QMARK || Byte.eqb c BANG) with false.
  2:{ symmetry. apply orb_false_iff. split; apply byte_eqb_neq; assumption. }
  pose proof (len_nonneg text) as Htext0. pose proof (len_nonneg body) as Hbody0.
  pose proof (len_nonneg rest) as Hrest0.
  assert (HlenY : len Y = len body + 3 + len rest).
  { unfold Y. rewrite !len_app. change (len suffixCDATA) with 3. lia. }
  assert (Hlens : len s = len tk + len text + 9 + len Y).
  { unfold s. rewrite !len_app. change (len prefixCDATA) with 9. lia. }
  assert (Hfuel : Z.of_nat (scan_fuel t2) = p2 + len s + 2).
  { unfold scan_fuel. rewrite <- Hs2, len_from by lia. unfold len. lia. }
  (* the text up to the section *)
  unfold parseCharData.
  destruct (parseCharData_loop_text (scan_fuel t2) t2 p2 (p2 + len tk) (p2 + len tk)
              s text (m ++ Y) K2)
    as (t3 & p3 & L1 & L2 & L3 & L4 & L5).
  { lia. }
  { replace (p2 + len tk - p2) with (len tk) by lia. unfold s. rewrite Eprefix.
    apply skipn_len_app. }
  { exact Htext. }
  { unfold len in *. lia. }
  replace (p2 + len tk - p2) with (len tk) in * by lia.
  rewrite L1.
  (* the opening of the section *)
  assert (Hm8 : List.length m = 8%nat) by reflexivity.
  assert (Hlm : len m = 8) by reflexivity.
  destruct (parseCharData_cdata_match m (scan_fuel t2 - S (List.length text)) t3 p3
              (p3 + len tk + len text - 1) (p3 + len tk + len text + 1) 1 s Y L2)
    as (t4 & p4 & M1 & M2 & M3 & M4 & M5).
  { lia. }
  { replace (p3 + len tk + len text + 1 - p3) with (len (tk ++ text ++ [LT]))
      by (rewrite !len_app, len_cons, len_nil; lia).
    unfold s. rewrite Eprefix.
    replace (tk ++ text ++ LT :: m ++ Y) with ((tk ++ text ++ [LT]) ++ m ++ Y)
      by (rewrite <- !app_assoc; reflexivity).
    apply skipn_len_app. }
  { lia. }
  { rewrite Hlm. change (len prefixCDATA) with 9. lia. }
  { reflexivity. }
  { rewrite Hm8. unfold len in *. lia. }
  rewrite M1. rewrite Hm8, Hlm in *.
  change (1 + 8) with (len prefixCDATA).
  replace (p3 + len tk + len text + 1 - p3) with (len tk + len text + 1) in * by lia.
  replace (p3 + len tk + len text - 1 - p3) with (len tk + len text - 1) in * by lia.
  (* the body of the section, to its terminator *)
  assert (Es : s = (tk ++ text ++ prefixCDATA) ++ Y)
    by (unfold s; rewrite <- !app_assoc; reflexivity).
  assert (Es' : s = (tk ++ text) ++ prefixCDATA ++ Y)
    by (unfold s; rewrite <- !app_assoc; reflexivity).
  assert (HlenA : List.length (tk ++ text ++ prefixCDATA)
                  = Z.to_nat (len tk + len text + 9)).
  { rewrite !length_app. change (List.length prefixCDATA) with 9%nat. unfold len. lia. }
  assert (HlenA' : List.length (tk ++ text) = Z.to_nat (len tk + len text)).
  { rewrite !length_app. unfold len. lia. }
  destruct (parseCharData_cdata_scan
              (scan_fuel t2 - S (List.length text) - 8) (List.length body + 2) t4 p4
              (p4 + (len tk + len text - 1)) (p4 + (len tk + len text + 1) + 8) s M2)
    as (t5 & p5 & N1 & N2 & N3 & N4 & N5).
  { lia. }
  { unfold endsAt.
    replace (Z.to_nat (p4 + (len tk + len text + 1) + 8 - p4
                       + Z.of_nat (List.length body + 2) - 2))
      with (List.length (tk ++ text ++ prefixCDATA) + List.length body)%nat
      by (rewrite HlenA; unfold len; lia).
    rewrite Es, endsAtN_shift. apply terminator_here. }
  { intros d' Hd'. unfold endsAt.
    destruct (Nat.lt_ge_cases d' 2) as [Hsmall | Hbig].
    - replace (Z.to_nat (p4 + (len tk + len text + 1) + 8 - p4 + Z.of_nat d' - 2))
        with (List.length (tk ++ text) + (7 + d'))%nat
        by (rewrite HlenA'; unfold len; lia).
      rewrite Es', endsAtN_shift. apply no_terminator_in_prefix. lia.
    - replace (Z.to_nat (p4 + (len tk + len text + 1) + 8 - p4 + Z.of_nat d' - 2))
        with (List.length (tk ++ text ++ prefixCDATA) + (d' - 2))%nat
        by (rewrite HlenA; unfold len; lia).
      rewrite Es, endsAtN_shift. apply first_terminator; [exact Hbody | lia]. }
  { unfold len in *. lia. }
  rewrite N1. cbn [bind].
  set (W := tk ++ text ++ prefixCDATA ++ body ++ suffixCDATA).
  assert (HlenW : len W = len tk + len text + 9 + len body + 3).
  { unfold W. rewrite !len_app. change (len prefixCDATA) with 9.
    change (len suffixCDATA) with 3. lia. }
  assert (EsW : s = W ++ rest).
  { unfold s, W, Y. rewrite <- !app_assoc. reflexivity. }
  replace (p5 + (p4 + (len tk + len text + 1) + 8 - p4)
           + Z.of_nat (List.length body + 2) + 1)
    with (p5 + len W) by (rewrite HlenW; unfold len; lia).
  assert (Hin : p5 + len W <= len (buf t5)).
  { rewrite HlenW. unfold len in *. lia. }
  pose proof (len_nonneg W) as HW0.
  rewrite (holds_slice t5 p5 (len W) s N2) by lia.
  rewrite EsW, firstn_len_app. cbn [bind].
  eexists. split; [reflexivity |].
  split.
  { unfold pending. cbn [set_cur cur].
    change (from (set_cur t5 (p5 + len W)) (p5 + len W)) with (from t5 (p5 + len W)).
    rewrite (holds_from_split t5 p5 (len W) s N2) by lia.
    rewrite EsW. apply skipn_len_app. }
  split.
  { apply (ready_after t5 p5 (len W) s N2); [lia | lia |].
    apply N5, M5, L5, K6. }
  exact (later_trans _ _ _ K5 (later_trans _ _ _ L4 (later_trans _ _ _ M4 N4))).
Qed.

Lemma RawToken_element_cdata_witness :
  let t := freshTokenizer (str "<a>x<![CDATA[b>]]>y</a>") [WithReadBufferSize 2] in
  exists t',
    RawToken t
    = Ok (Some (trim ((LT :: "a"%byte :: str ">") ++ str "x" ++ prefixCDATA ++ str "b>"
                      ++ suffixCDATA)), None, t') /\
    pending t' = str "y</a>" /\ ready t' /\ later t t'.
Proof.
  intros t.
  assert (Hready : ready t).
  { unfold ready, room. vm_compute.
    repeat split; try reflexivity; intros E; discriminate E. }
  assert (Hpend : pending t
                  = zeros 2 ++ (LT :: "a"%byte :: str ">") ++ str "x" ++ prefixCDATA
                    ++ str "b>" ++ suffixCDATA ++ str "y</a>") by reflexivity.
  assert (Hpre : ~ In LT (zeros 2)) by (apply IndexByte_none; reflexivity).
  assert (Hq : "a"%byte <> QMARK) by discriminate.
  assert (Hb : "a"%byte <> BANG) by discriminate.
  assert (Hend : findTokenEnd (LT :: "a"%byte :: str ">") 0
                 = Ok (len (LT :: "a"%byte :: str ">"))) by reflexivity.
  assert (Htext : ~ In LT (str "x")) by (apply IndexByte_none; reflexivity).
  assert (Hbody : forall a b, str "b>" ++ str "]]" <> a ++ suffixCDATA ++ b)
    by (apply not_occursIn; reflexivity).
  exact (RawToken_element_cdata t _ _ _ _ _ _ Hready Hpend Hpre Hq Hb Hend Htext Hbody).
Defined.

(** ** [Token] at the end of the input *)

Lemma later_read_all (t t' : Tokenizer) :
  later t t' -> rdata (r t') = [] -> n t' = n t + len (rdata (r t)).
Proof. intros (_ & _ & H) E. rewrite E, len_nil in H. lia. Qed.

(** With no [<] left in its input, [Token] returns the zero token and the
    reader's final error: [io.EOF] itself when the reader ends normally,
    and any other error wrapped with the number of bytes read.  The error
    it stores for the calls that follow is the reader's error, unwrapped. *)
Theorem Token_end_of_input (t : Tokenizer)
  (Hready : ready t) (Hno : ~ In LT (pending t)) :
  exists t',
    Token_ t
    = Ok (zeroToken,
          Some (if errors_Is (rfinal (r t)) EOF then rfinal (r t)
                else ErrBytePos (n t + len (rdata (r t))) (rfinal (r t))),
          t') /\
    err t' = Some (rfinal (r t)).
Proof.
  destruct (RawToken_open_no_tag (scan_fuel t) t) as (t' & H1 & H2 & H3 & H4);
    [apply Hready | apply Hready | unfold scan_fuel; lia | exact Hno |].
  exists t'. split; [| exact H2].
  unfold Token_, RawToken. destruct Hready as (He & _). rewrite He, H1. cbn [bind].
  cbv iota. cbn [glen]. rewrite (later_read_all t t' H4 H3).
  destruct (errors_Is (rfinal (r t)) EOF); reflexivity.
Qed.

Lemma Token_end_of_input_witness :
  let t := freshTokenizer (str " text ") [WithReadBufferSize 2] in
  exists t',
    Token_ t
    = Ok (zeroToken,
          Some (if errors_Is (rfinal (r t)) EOF then rfinal (r t)
                else ErrBytePos (n t + len (rdata (r t))) (rfinal (r t))),
          t') /\
    err t' = Some (rfinal (r t)).
Proof.
  intros t.
  assert (Hready : ready t).
  { unfold ready, room. vm_compute.
    repeat split; try reflexivity; intros E; discriminate E. }
  assert (Hno : ~ In LT (pending t)) by (apply IndexByte_none; reflexivity).
  exact (Token_end_of_input t Hready Hno).
Defined.

(** When the input ends inside a token, [Token] returns the zero token,
    dropping the bytes of the unfinished token, and [io.ErrUnexpectedEOF]
    wrapped with the number of bytes read.  The error stored is the bare
    [io.ErrUnexpectedEOF]: the call that follows returns it without the
    byte position. *)
Theorem Token_unterminated (t : Tokenizer) (pre rest : bytes)
  (Hready : ready t) (Hpend : pending t = pre ++ LT :: rest)
  (Hpre : ~ In LT pre) (Hrest : ~ In GT rest)
  (Hfinal : errors_Is (rfinal (r t)) EOF = true) :
  exists t',
    Token_ t
    = Ok (zeroToken, Some (ErrBytePos (n t + len (rdata (r t))) ErrUnexpectedEOF), t') /\
    Token_ t' = Ok (zeroToken, Some ErrUnexpectedEOF, t').
Proof.
  destruct Hready as (He & Hc & Hroom).
  destruct (RawToken_open_tag (scan_fuel t) t pre rest Hc Hroom)
    as (t1 & H1 & H2 & H3 & H4 & H5 & H6 & H7);
    [unfold scan_fuel; lia | exact Hpend | exact Hpre |].
  pose proof (len_nonneg pre) as Hpre0.
  assert (Hfrom : from t1 (cur t1 + len pre) = LT :: rest).
  { rewrite from_split by lia. fold (pending t1). rewrite H4, Hpend.
    apply skipn_len_app. }
  destruct (RawToken_close_unterminated (scan_fuel t1) t1 (cur t1 + len pre))
    as (t' & K1 & K2 & K3 & K4).
  { lia. }
  { exact H3. }
  { destruct H5 as (R1 & R2). split; [exact R1 | lia]. }
  { unfold scan_fuel. lia. }
  { rewrite from_split by lia. rewrite Hfrom. exact Hrest. }
  assert (Hfin : endError (rfinal (r t1)) = ErrUnexpectedEOF).
  { destruct H6 as (_ & L2 & _). unfold endError. rewrite L2, Hfinal. reflexivity. }
  rewrite Hfin in K1, K2.
  exists t'. split.
  - unfold Token_, RawToken. rewrite He, H1. cbn [bind]. rewrite K1. cbn [bind].
    cbv iota.
    rewrite (later_read_all t t' (later_trans _ _ _ H6 K4) K3).
    change (errors_Is ErrUnexpectedEOF EOF) with false. cbn [negb].
    change (errors_Is (ErrBytePos (n t + len (rdata (r t))) ErrUnexpectedEOF)
              ErrUnexpectedEOF) with true.
    rewrite orb_true_r. reflexivity.
  - unfold Token_. rewrite K2. reflexivity.
Qed.

Lemma Token_unterminated_witness :
  let t := freshTokenizer (str "x<a b") [WithReadBufferSize 2] in
  exists t',
    Token_ t
    = Ok (zeroToken, Some (ErrBytePos (n t + len (rdata (r t))) ErrUnexpectedEOF), t') /\
    Token_ t' = Ok (zeroToken, Some ErrUnexpectedEOF, t').
Proof.
  intros t.
  assert (Hready : ready t).
  { unfold ready, room. vm_compute.
    repeat split; try reflexivity; intros E; discriminate E. }
  assert (Hpend : pending t = (zeros 2 ++ str "x") ++ LT :: str "a b") by reflexivity.
  assert (Hpre : ~ In LT (zeros 2 ++ str "x")) by (apply IndexByte_none; reflexivity).
  assert (Hrest : ~ In GT (str "a b")) by (apply IndexByte_none; reflexivity).
  assert (Hfinal : errors_Is (rfinal (r t)) EOF = true) by reflexivity.
  exact (Token_unterminated t _ _ Hready Hpend Hpre Hrest Hfinal).
Defined.

(** ** The input ends inside a CDATA section *)

(** The start of a turn of the inner loop of [parseCharData] when the whole
    stream has been scanned: the reader's end is stored as an error and the
    loop stops. *)
Lemma cdata_more_eof (t : Tokenizer) (pivot pos j : Z) (s : bytes) :
  holds t pivot s -> pivot <= j <= len (buf t) -> len s <= j - pivot ->
  exists t',
    cdata_more t pivot pos j = Ok (true, 0, pos - pivot, len s, t') /\
    buf t' = s /\ cur t' = 0 /\ rdata (r t') = [] /\
    err t' = Some (endError (rfinal (r t))) /\ later t t'.
Proof.
  intros Hh Hj Hle. pose proof Hh as (Hc & Hp & Hroom & Hs).
  assert (Hlen : len s = len (buf t) - pivot + len (rdata (r t)))
    by (rewrite <- Hs; apply len_from; lia).
  pose proof (len_nonneg (rdata (r t))) as Hrd0.
  destruct (no_more t pivot s Hh ltac:(lia))
    as (t1 & t2 & Hm & Hlen1 & Hr & Hb & Hc2 & Hr2 & Hrd & Hn2 & Ho2 & He2).
  unfold cdata_more.
  replace (j >=? len (buf t)) with true.
  2:{ symmetry. destruct (Z.geb_spec j (len (buf t))); [reflexivity | lia]. }
  rewrite Hm. cbn [bind]. rewrite Hlen1, Hr. cbn [bind]. cbv iota.
  replace (pos - (len (buf t) - len s)) with (pos - pivot) by lia.
  eexists. split; [reflexivity |].
  unfold endError.
  destruct (errors_Is (rfinal (r t)) EOF); cbn [set_err buf cur r err].
  - split; [exact Hb |]. split; [exact Hc2 |]. split; [rewrite Hr2; exact Hrd |].
    split; [reflexivity |].
    unfold later. cbn [set_err opts r n]. rewrite Hr2, Hn2, Ho2. repeat split.
  - split; [exact Hb |]. split; [exact Hc2 |]. split; [rewrite Hr2; exact Hrd |].
    split; [exact He2 |].
    unfold later. rewrite Hr2, Hn2, Ho2. repeat split.
Qed.

Lemma parseCharData_cdata_eof (fuel : nat) (t : Tokenizer) (pivot pos j k : Z) (s : bytes) :
  holds t pivot s -> pivot <= j <= len (buf t) -> len s <= j - pivot ->
  exists t',
    parseCharData_cdata (S fuel) t pivot pos j k = Ok (0, pos - pivot, t') /\
    buf t' = s /\ cur t' = 0 /\ rdata (r t') = [] /\
    err t' = Some (endError (rfinal (r t))) /\ later t t'.
Proof.
  intros Hh Hj Hle.
  destruct (cdata_more_eof t pivot pos j s Hh Hj Hle) as (t' & H1 & H2).
  exists t'. split; [| exact H2].
  rewrite parseCharData_cdata_eq, H1. reflexivity.
Qed.

(** The test for the terminator, in a turn of the inner loop. *)
Lemma cdata_found (t : Tokenizer) (p o : Z) (s : bytes) (x : byte) (l : bytes) :
  holds t p s -> 2 <= o -> p + o < len (buf t) ->
  skipn (Z.to_nat o) s = x :: l ->
  andr (Byte.eqb x GT)
    (do s0 <- slice (buf t) (p + o - 2) (p + o + 1); Ok (bytes_eqb s0 suffixCDATA))
  = Ok (endsAt s o).
Proof.
  intros Hh Ho Hlt E.
  destruct (Byte.eqb x GT) eqn:Ex; cbn [andr].
  - replace (p + o - 2) with (p + (o - 2)) by lia.
    replace (p + o + 1) with (p + (o - 2) + 3) by lia.
    rewrite (slice_holds t p (o - 2) 3 s Hh) by lia. reflexivity.
  - f_equal. symmetry. destruct (endsAt s o) eqn:Ee; [| reflexivity].
    destruct (endsAt_GT s o Ho Ee) as (l' & El').
    rewrite E in El'. injection El' as -> _. rewrite byte_eqb_refl in Ex. discriminate.
Qed.

(** The inner loop of [parseCharData] inside a section with no terminator
    up to the end of the input. *)
Lemma parseCharData_cdata_scan_eof (fuel : nat) :
  forall (t : Tokenizer) (pivot pos j : Z) (s : bytes),
  holds t pivot s -> pivot + 2 <= j <= len (buf t) ->
  (forall o, j - pivot <= o < len s -> endsAt s o = false) ->
  len s - (j - pivot) < Z.of_nat fuel ->
  exists t',
    parseCharData_cdata fuel t pivot pos j (len prefixCDATA) = Ok (0, pos - pivot, t') /\
    buf t' = s /\ cur t' = 0 /\ rdata (r t') = [] /\
    err t' = Some (endError (rfinal (r t))) /\ later t t'.
Proof.
  induction fuel as [| fuel IH]; intros t pivot pos j s Hh Hj Hnot Hfuel.
  { exfalso. pose proof Hh as (Hc & Hp & _ & Hs).
    assert (H : len s = len (buf t) - pivot + len (rdata (r t)))
      by (rewrite <- Hs; apply len_from; lia).
    pose proof (len_nonneg (rdata (r t))). lia. }
  destruct (Z.le_gt_cases (len s) (j - pivot)) as [Hle | Hlt].
  - apply parseCharData_cdata_eof; [exact Hh | lia | exact Hle].
  - rewrite parseCharData_cdata_eq.
    destruct (cdata_more_byte t pivot pos j s Hh ltac:(lia) Hlt)
      as (t1 & p1 & Hmore & Hh1 & Hlt1 & Hl1 & He1).
    rewrite Hmore. cbn [bind]. cbv iota. rewrite Z.ltb_irrefl.
    destruct (skipn (Z.to_nat (j - pivot)) s) as [| x l] eqn:E.
    { exfalso. pose proof (f_equal (@List.length byte) E) as HL.
      rewrite length_skipn in HL. cbn [List.length] in HL. unfold len in Hlt. lia. }
    rewrite (index_buf t1 p1 (j - pivot) s x l Hh1 ltac:(lia) Hlt1 E). cbn [bind].
    rewrite (cdata_found t1 p1 (j - pivot) s x l Hh1 ltac:(lia) Hlt1 E). cbn [bind].
    rewrite (Hnot (j - pivot)) by lia.
    destruct (IH t1 p1 (p1 + (pos - pivot)) (p1 + (j - pivot) + 1) s)
      as (t' & K1 & K2 & K3 & K4 & K5 & K6).
    + exact Hh1.
    + lia.
    + intros o Ho. apply Hnot. lia.
    + lia.
    + exists t'. split.
      { rewrite K1. repeat (f_equal; try lia). }
      split; [exact K2 |]. split; [exact K3 |]. split; [exact K4 |].
      split; [rewrite K5; destruct Hl1 as (_ & L2 & _); rewrite L2; reflexivity |].
      exact (later_trans _ _ _ Hl1 K6).
Qed.

(** What follows a [<] is the beginning of a CDATA section that the input
    does not finish: a proper part of [![CDATA[], or all of it followed by
    bytes that hold no []]>]. *)
Definition cutCDATA (after : bytes) : Prop :=
  (exists k, (k < 8)%nat /\ after = firstn k (skipn 1 prefixCDATA)) \/
  (exists body, after = skipn 1 prefixCDATA ++ body /\
                forall a b, body <> a ++ suffixCDATA ++ b).

Lemma no_terminator_in_body (body : bytes) (k : nat) :
  (forall a b, body <> a ++ suffixCDATA ++ b) -> endsAtN body k = false.
Proof.
  intros H. destruct (endsAtN body k) eqn:E; [| reflexivity].
  exfalso. apply endsAtN_split in E. exact (H _ _ E).
Qed.

Lemma parseCharData_cdata_cut (fuel : nat) (t : Tokenizer) (pivot pos j : Z)
  (s after : bytes) :
  holds t pivot s -> pivot + 1 <= j <= len (buf t) ->
  skipn (Z.to_nat (j - pivot)) s = after -> cutCDATA after ->
  len after + 1 < Z.of_nat fuel ->
  exists t',
    parseCharData_cdata fuel t pivot pos j 1 = Ok (0, pos - pivot, t') /\
    buf t' = s /\ cur t' = 0 /\ rdata (r t') = [] /\
    err t' = Some (endError (rfinal (r t))) /\ later t t'.
Proof.
  intros Hh Hj E Hcut Hfuel. pose proof Hh as (Hc & Hp & _ & Hs).
  assert (Hlens0 : len s = len (buf t) - pivot + len (rdata (r t)))
    by (rewrite <- Hs; apply len_from; lia).
  pose proof (len_nonneg (rdata (r t))) as Hrd0.
  destruct (firstn_skipn_split s (j - pivot) ltac:(lia)) as (Es & Elen).
  rewrite E in Es.
  assert (Hlens : len s = j - pivot + len after).
  { rewrite Es at 1. rewrite len_app, Elen. reflexivity. }
  pose proof (len_nonneg after) as Hafter0.
  destruct Hcut as [(k & Hk & Eafter) | (body & Eafter & Hbody)].
  - assert (Hlen : List.length after = k).
    { rewrite Eafter. apply firstn_length_le.
      change (List.length (skipn 1 prefixCDATA)) with 8%nat. lia. }
    destruct (parseCharData_cdata_match after fuel t pivot pos j 1 s [] Hh)
      as (t4 & p4 & M1 & M2 & M3 & M4 & M5).
    { lia. }
    { rewrite app_nil_r. exact E. }
    { lia. }
    { change (len prefixCDATA) with 9. unfold len. lia. }
    { rewrite Hlen. symmetry. exact Eafter. }
    { unfold len in Hfuel. lia. }
    rewrite M1.
    destruct (fuel - List.length after)%nat as [| f'] eqn:Ef;
      [unfold len in Hfuel; lia |].
    destruct (parseCharData_cdata_eof f' t4 p4 (p4 + (pos - pivot))
                (p4 + (j - pivot) + len after) (1 + len after) s M2)
      as (t' & K1 & K2 & K3 & K4 & K5 & K6).
    { pose proof M2 as (? & ? & _). lia. }
    { lia. }
    exists t'. split.
    { rewrite K1. repeat (f_equal; try lia). }
    split; [exact K2 |]. split; [exact K3 |]. split; [exact K4 |].
    split; [rewrite K5; destruct M4 as (_ & L2 & _); rewrite L2; reflexivity |].
    exact (later_trans _ _ _ M4 K6).
  - set (m := skipn 1 prefixCDATA) in *.
    assert (Hm8 : List.length m = 8%nat) by reflexivity.
    assert (Hlm : len m = 8) by reflexivity.
    pose proof (len_nonneg body) as Hbody0.
    assert (Hla : len after = 8 + len body) by (rewrite Eafter, len_app, Hlm; reflexivity).
    destruct (parseCharData_cdata_match m fuel t pivot pos j 1 s body Hh)
      as (t4 & p4 & M1 & M2 & M3 & M4 & M5).
    { lia. }
    { rewrite E. exact Eafter. }
    { lia. }
    { rewrite Hlm. change (len prefixCDATA) with 9. lia. }
    { reflexivity. }
    { rewrite Hm8. lia. }
    rewrite M1. rewrite Hm8, Hlm in *. change (1 + 8) with (len prefixCDATA).
    destruct (parseCharData_cdata_scan_eof (fuel - 8) t4 p4 (p4 + (pos - pivot))
                (p4 + (j - pivot) + 8) s M2)
      as (t' & K1 & K2 & K3 & K4 & K5 & K6).
    { pose proof M2 as (? & ? & _). lia. }
    { intros o Ho. unfold endsAt.
      assert (Hl0 : List.length (firstn (Z.to_nat (j - pivot)) s) = Z.to_nat (j - pivot)).
      { unfold len in Elen. lia. }
      destruct (Z.lt_ge_cases o (j - pivot + 10)) as [Hsmall | Hbig].
      - rewrite Es, Eafter.
        replace (Z.to_nat (o - 2))
          with (List.length (firstn (Z.to_nat (j - pivot)) s)
                + (6 + Z.to_nat (o - (j - pivot) - 8)))%nat by lia.
        rewrite endsAtN_shift.
        apply (no_terminator_in_prefix body (7 + Z.to_nat (o - (j - pivot) - 8))). lia.
      - rewrite Es, Eafter, app_assoc.
        replace (Z.to_nat (o - 2))
          with (List.length (firstn (Z.to_nat (j - pivot)) s ++ m)
                + Z.to_nat (o - (j - pivot) - 10))%nat
          by (rewrite length_app, Hm8; lia).
        rewrite endsAtN_shift. apply no_terminator_in_body. exact Hbody. }
    { lia. }
    exists t'. split.
    { rewrite K1. repeat (f_equal; try lia). }
    split; [exact K2 |]. split; [exact K3 |]. split; [exact K4 |].
    split; [rewrite K5; destruct M4 as (_ & L2 & _); rewrite L2; reflexivity |].
    exact (later_trans _ _ _ M4 K6).
Qed.

(** An element tag followed by text and then by a CDATA section that the
    input does not finish (it ends inside [<![CDATA[], or before any
    []]>]): [RawToken] returns the tag and the text as one trimmed span
    with no error, and stores [io.ErrUnexpectedEOF] (or the reader's own
    error, when that is not [io.EOF]) for the next call.  The bytes of the
    unfinished section stay pending: no call ever returns them. *)
Theorem RawToken_element_cdata_cut (t : Tokenizer) (pre tag text after : bytes) (c : byte)
  (Hready : ready t)
  (Hpend : pending t = pre ++ (LT :: c :: tag) ++ text ++ LT :: after)
  (Hpre : ~ In LT pre) (Hq : c <> QMARK) (Hb : c <> BANG)
  (Hend : findTokenEnd (LT :: c :: tag) 0 = Ok (len (LT :: c :: tag)))
  (Htext : ~ In LT text) (Hcut : cutCDATA after) :
  exists t',
    RawToken t = Ok (Some (trim ((LT :: c :: tag) ++ text)), None, t') /\
    pending t' = LT :: after /\
    err t' = Some (endError (rfinal (r t))) /\
    RawToken t' = Ok (None, Some (endError (rfinal (r t))), t').
Proof.
  destruct (findTokenEnd_whole _ (text ++ LT :: after) Hend) as (Hend' & Hne & Hlen).
  set (tk := LT :: c :: tag) in *.
  set (s := tk ++ text ++ LT :: after) in *.
  destruct (RawToken_reach t pre (c :: tag ++ text ++ LT :: after) (len tk)
              Hready Hpend Hpre Hend' Hne)
    as (t2 & p2 & K1 & K2 & K3 & K4 & K5 & K6).
  change (LT :: c :: tag ++ text ++ LT :: after) with s in K2.
  rewrite K1. unfold RawToken_finish.
  pose proof K2 as (Hc2 & Hp2 & _ & Hs2).
  rewrite (index_from t2 p2 1) by lia. rewrite Hs2.
  unfold s at 1. unfold tk at 1. cbn [app]. rewrite index_1. cbn [bind].
  replace (Byte.eqb c QMARK || Byte.eqb c BANG) with false.
  2:{ symmetry. apply orb_false_iff. split; apply byte_eqb_neq; assumption. }
  pose proof (len_nonneg text) as Htext0. pose proof (len_nonneg after) as Hafter0.
  assert (Hlens : len s = len tk + len text + 1 + len after).
  { unfold s. rewrite !len_app, len_cons. lia. }
  assert (Hfuel : Z.of_nat (scan_fuel t2) = p2 + len s + 2).
  { unfold scan_fuel. rewrite <- Hs2, len_from by lia. unfold len. lia. }
  unfold parseCharData.
  destruct (parseCharData_loop_text (scan_fuel t2) t2 p2 (p2 + len tk) (p2 + len tk)
              s text after K2)
    as (t3 & p3 & L1 & L2 & L3 & L4 & L5).
  { lia. }
  { replace (p2 + len tk - p2) with (len tk) by lia. unfold s. apply skipn_len_app. }
  { exact Htext. }
  { unfold len in *. lia. }
  replace (p2 + len tk - p2) with (len tk) in * by lia.
  rewrite L1.
  destruct (parseCharData_cdata_cut (scan_fuel t2 - S (List.length text)) t3 p3
              (p3 + len tk + len text - 1) (p3 + len tk + len text + 1) s after L2)
    as (t4 & M1 & M2 & M3 & M4 & M5 & M6).
  { lia. }
  { replace (p3 + len tk + len text + 1 - p3) with (len (tk ++ text ++ [LT]))
      by (rewrite !len_app, len_cons, len_nil; lia).
    unfold s.
    replace (tk ++ text ++ LT :: after) with ((tk ++ text ++ [LT]) ++ after)
      by (rewrite <- !app_assoc; reflexivity).
    apply skipn_len_app. }
  { exact Hcut. }
  { unfold len in *. lia. }
  rewrite M1. cbn [bind].
  replace (p3 + len tk + len text - 1 - p3 + 1) with (len tk + len text) by lia.
  assert (Efirst : firstn (Z.to_nat (len tk + len text)) s = tk ++ text).
  { unfold s. rewrite app_assoc, <- len_app. apply firstn_len_app. }
  assert (Eskip : skipn (Z.to_nat (len tk + len text)) s = LT :: after).
  { unfold s. rewrite app_assoc, <- len_app. apply skipn_len_app. }
  rewrite M2. rewrite slice_in_range by lia.
  rewrite Z.sub_0_r. cbn [Z.to_nat skipn]. rewrite Efirst. cbn [bind].
  assert (Hfin : rfinal (r t3) = rfinal (r t)).
  { destruct K5 as (_ & A & _). destruct L4 as (_ & B & _). congruence. }
  rewrite Hfin in M5.
  eexists. split; [reflexivity |].
  split.
  { unfold pending, from. cbn [set_cur cur buf r]. rewrite M2, M4, app_nil_r. exact Eskip. }
  split; [cbn [set_cur err]; exact M5 |].
  unfold RawToken. cbn [set_cur err]. rewrite M5. reflexivity.
Qed.

Lemma RawToken_element_cdata_cut_witness :
  let t := freshTokenizer (str "<a>x<![CDATA[b>]]") [WithReadBufferSize 2] in
  exists t',
    RawToken t = Ok (Some (trim ((LT :: "a"%byte :: str ">") ++ str "x")), None, t') /\
    pending t' = LT :: str "![CDATA[b>]]" /\
    err t' = Some (endError (rfinal (r t))) /\
    RawToken t' = Ok (None, Some (endError (rfinal (r t))), t').
Proof.
  intros t.
  assert (Hready : ready t).
  { unfold ready, room. vm_compute.
    repeat split; try reflexivity; intros E; discriminate E. }
  assert (Hpend : pending t
                  = zeros 2 ++ (LT :: "a"%byte :: str ">") ++ str "x"
                    ++ LT :: str "![CDATA[b>]]") by reflexivity.
  assert (Hpre : ~ In LT (zeros 2)) by (apply IndexByte_none; reflexivity).
  assert (Hq : "a"%byte <> QMARK) by discriminate.
  assert (Hb : "a"%byte <> BANG) by discriminate.
  assert (Hend : findTokenEnd (LT :: "a"%byte :: str ">") 0
                 = Ok (len (LT :: "a"%byte :: str ">"))) by reflexivity.
  assert (Htext : ~ In LT (str "x")) by (apply IndexByte_none; reflexivity).
  assert (Hcut : cutCDATA (str "![CDATA[b>]]")).
  { right. exists (str "b>]]"). split; [reflexivity |].
    apply not_occursIn. reflexivity. }
  exact (RawToken_element_cdata_cut t _ _ _ _ _ Hready Hpend Hpre Hq Hb Hend Htext Hcut).
Defined.

(** ** Where processing instructions and comments end *)

(** The bytes of [s] from index [k] on begin with [pat]. *)
Definition patAt (pat s : bytes) (k : nat) : bool :=
  bytes_eqb (firstn (List.length pat) (skipn k s)) pat.

Lemma patAt_split (pat s : bytes) (k : nat) :
  patAt pat s k = true -> s = firstn k s ++ pat ++ skipn (k + List.length pat) s.
Proof.
  unfold patAt. intros H. apply bytes_eqb_eq in H.
  rewrite <- H at 1. rewrite <- (firstn_skipn k s) at 1. f_equal.
  rewrite <- (firstn_skipn (List.length pat) (skipn k s)) at 1. f_equal.
  rewrite skipn_skipn. f_equal. lia.
Qed.

Lemma patAt_here (pat a rest : bytes) : patAt pat (a ++ pat ++ rest) (List.length a) = true.
Proof.
  unfold patAt. replace (List.length a) with (List.length a + 0)%nat at 1 by lia.
  rewrite skipn_app_len. cbn [skipn]. apply bytes_eqb_eq.
  rewrite firstn_app, Nat.sub_diag, firstn_all. cbn [firstn]. apply app_nil_r.
Qed.

Lemma patAt_none (pat s : bytes) (k : nat) :
  (forall x y, s <> x ++ pat ++ y) -> patAt pat s k = false.
Proof.
  intros H. destruct (patAt pat s k) eqn:E; [| reflexivity].
  exfalso. exact (H _ _ (patAt_split _ _ _ E)).
Qed.

(** When [pat] does not occur in [a] followed by all of [pat] but its last
    byte, the occurrence of [pat] after [a] is the first one. *)
Lemma patAt_first (pat a rest : bytes) (k : nat) :
  (forall x y, a ++ firstn (List.length pat - 1) pat <> x ++ pat ++ y) ->
  (k < List.length a)%nat -> patAt pat (a ++ pat ++ rest) k = false.
Proof.
  intros H Hk.
  assert (Hnp : (1 <= List.length pat)%nat).
  { destruct pat as [| c pat']; [| cbn [List.length]; lia].
    exfalso. apply (H a []). cbn [firstn List.length app]. rewrite !app_nil_r. reflexivity. }
  destruct (patAt pat (a ++ pat ++ rest) k) eqn:E; [| reflexivity].
  exfalso. apply patAt_split in E.
  set (Y := a ++ pat ++ rest) in *.
  set (np := List.length pat) in *.
  apply (H (firstn k Y) (firstn (List.length a + (np - 1) - (k + np)) (skipn (k + np) Y))).
  assert (Hb : a ++ firstn (np - 1) pat = firstn (List.length a + (np - 1)) Y).
  { unfold Y. rewrite firstn_app.
    replace (List.length a + (np - 1) - List.length a)%nat with (np - 1)%nat by lia.
    rewrite (firstn_all2 (n := List.length a + (np - 1)) a) by lia. f_equal.
    rewrite firstn_app.
    replace (np - 1 - List.length pat)%nat with 0%nat by (fold np; lia).
    cbn [firstn]. rewrite app_nil_r. reflexivity. }
  rewrite Hb. rewrite E at 1.
  assert (Hlen : List.length (firstn k Y) = k).
  { apply firstn_length_le. unfold Y. rewrite length_app. lia. }
  rewrite firstn_app, Hlen.
  rewrite (firstn_all2 (n := List.length a + (np - 1))) by lia.
  f_equal. rewrite firstn_app. fold np.
  rewrite (firstn_all2 (n := List.length a + (np - 1) - k)) by (fold np; lia).
  f_equal. f_equal. lia.
Qed.

Lemma skipn_index (s : bytes) (i : Z) (c : byte) :
  index s i = Ok c -> skipn (Z.to_nat i) s = c :: skipn (Z.to_nat (i + 1)) s.
Proof.
  intros H. pose proof (index_Ok_lt s i c H) as Hi.
  destruct (skipn (Z.to_nat i) s) as [| x l] eqn:E.
  - exfalso. pose proof (f_equal (@List.length byte) E) as HL.
    rewrite length_skipn in HL. cbn [List.length] in HL. unfold len in Hi. lia.
  - rewrite (index_skipn s i x l ltac:(lia) E) in H. injection H as ->.
    f_equal. symmetry. apply (skipn_succ s i c l ltac:(lia) E).
Qed.

Lemma patAt_index (pat s : bytes) (k i : Z) (c : byte) :
  0 <= k -> patAt pat s (Z.to_nat k) = true -> index pat i = Ok c ->
  index s (k + i) = Ok c.
Proof.
  intros Hk H Hi. apply patAt_split in H.
  pose proof (index_Ok_lt pat i c Hi) as Hr.
  assert (Hlen : (Z.to_nat k <= List.length s)%nat).
  { destruct (Nat.le_gt_cases (Z.to_nat k) (List.length s)) as [L | L]; [exact L |].
    exfalso. pose proof (f_equal (@List.length byte) H) as HL.
    rewrite !length_app, length_firstn in HL. unfold len in Hr. lia. }
  pose proof (index_shift (firstn (Z.to_nat k) s)
                (pat ++ skipn (Z.to_nat k + List.length pat) s) i ltac:(lia)) as Hsh.
  rewrite <- H in Hsh. rewrite index_app_l in Hsh by lia.
  replace (len (firstn (Z.to_nat k) s)) with k in Hsh
    by (rewrite len_firstn; unfold len; lia).
  rewrite Hsh. exact Hi.
Qed.

Lemma patAt_2 (c1 c2 : byte) (s : bytes) (k : Z) :
  0 <= k -> index s k = Ok c1 -> index s (k + 1) = Ok c2 ->
  patAt [c1; c2] s (Z.to_nat k) = true.
Proof.
  intros Hk H1 H2. unfold patAt. apply bytes_eqb_eq.
  rewrite (skipn_index s k c1 H1), (skipn_index s (k + 1) c2 H2). reflexivity.
Qed.

Lemma patAt_3 (c1 c2 c3 : byte) (s : bytes) (k : Z) :
  0 <= k -> index s k = Ok c1 -> index s (k + 1) = Ok c2 -> index s (k + 2) = Ok c3 ->
  patAt [c1; c2; c3] s (Z.to_nat k) = true.
Proof.
  intros Hk H1 H2 H3. unfold patAt. apply bytes_eqb_eq.
  rewrite (skipn_index s k c1 H1), (skipn_index s (k + 1) c2 H2).
  replace (k + 1 + 1) with (k + 2) by lia.
  rewrite (skipn_index s (k + 2) c3 H3). reflexivity.
Qed.

Lemma index_skipn_shift (b : bytes) (left i : Z) :
  0 <= left <= len b -> 0 <= i ->
  index (skipn (Z.to_nat left) b) i = index b (left + i).
Proof.
  intros Hl Hi. destruct (firstn_skipn_split b left Hl) as (Eb & Elen).
  pose proof (index_shift (firstn (Z.to_nat left) b) (skipn (Z.to_nat left) b) i Hi) as H.
  rewrite <- Eb, Elen in H. symmetry. exact H.
Qed.

(** The next [>] at or after [left], when there is one at [g]. *)
Lemma first_GT (b : bytes) (left g : Z) :
  0 <= left <= g -> index b g = Ok GT ->
  exists p,
    IndexByte (skipn (Z.to_nat left) b) GT = p /\ 0 <= p /\ left + p <= g /\
    index b (left + p) = Ok GT.
Proof.
  intros Hl Hg. pose proof (index_Ok_lt b g GT Hg) as Hr.
  assert (Hg' : index (skipn (Z.to_nat left) b) (g - left) = Ok GT).
  { rewrite index_skipn_shift by lia. replace (left + (g - left)) with g by lia. exact Hg. }
  assert (Hne : IndexByte (skipn (Z.to_nat left) b) GT <> -1).
  { intros E. apply IndexByte_none in E. apply E. apply (index_In _ _ _ Hg'). }
  destruct (IndexByte_split _ _ Hne) as (s & rest & Es & Hs & Hi).
  exists (len s). pose proof (len_nonneg s) as Hs0.
  split; [exact Hi |]. split; [exact Hs0 |].
  assert (Hat : index b (left + len s) = Ok GT).
  { rewrite <- index_skipn_shift by lia. rewrite Es. apply index_at_len. }
  split; [| exact Hat].
  destruct (Z.le_gt_cases (left + len s) g) as [H | H]; [exact H |].
  exfalso. apply Hs. rewrite Es in Hg'. rewrite index_app_l in Hg' by lia.
  apply (index_In _ _ _ Hg').
Qed.

Lemma no_GT_from (b : bytes) (left : Z) :
  0 <= left <= len b ->
  (forall g, left <= g -> index b g <> Ok GT) ->
  IndexByte (skipn (Z.to_nat left) b) GT = -1.
Proof.
  intros Hl H.
  destruct (Z.eq_dec (IndexByte (skipn (Z.to_nat left) b) GT) (-1)) as [E | E]; [exact E |].
  exfalso. destruct (IndexByte_split _ _ E) as (s & rest & Es & Hs & Hi).
  pose proof (len_nonneg s) as Hs0.
  apply (H (left + len s) ltac:(lia)).
  rewrite <- index_skipn_shift by lia. rewrite Es. apply index_at_len.
Qed.

Lemma GT_found (b : bytes) (left : Z) :
  0 <= left <= len b -> IndexByte (skipn (Z.to_nat left) b) GT <> -1 ->
  0 <= IndexByte (skipn (Z.to_nat left) b) GT /\
  left + IndexByte (skipn (Z.to_nat left) b) GT < len b /\
  index b (left + IndexByte (skipn (Z.to_nat left) b) GT) = Ok GT.
Proof.
  intros Hl Hne. destruct (IndexByte_split _ _ Hne) as (s & rest & Es & Hs & Hi).
  rewrite Hi. pose proof (len_nonneg s) as Hs0. pose proof (len_nonneg rest) as Hr0.
  assert (Hlen : len (skipn (Z.to_nat left) b) = len s + 1 + len rest).
  { rewrite Es, len_app, len_cons. lia. }
  rewrite len_skipn in Hlen by lia.
  split; [exact Hs0 |]. split; [lia |].
  rewrite <- index_skipn_shift by lia. rewrite Es. apply index_at_len.
Qed.

Lemma index_is_in_range (b : bytes) (i : Z) (c : byte) :
  0 <= i < len b -> exists x, index b i = Ok x /\ index_is b i c = Ok (Byte.eqb x c).
Proof.
  intros Hi. destruct (index_in_range b i Hi) as (x & Hx).
  exists x. split; [exact Hx |]. unfold index_is. rewrite Hx. reflexivity.
Qed.

(** *** Processing instructions *)

Section PI.

Variable b : bytes.
Hypothesis Hq : index b 1 = Ok QMARK.

Lemma findTokenEnd_turn_PI (left : Z) :
  1 <= left <= len b ->
  findTokenEnd_turn b 0 left
  = let p := IndexByte (skipn (Z.to_nat left) b) GT in
    if p =? -1 then Return (Ok (-1))
    else
      tbind (andr (left + p + 1 >=? 3) (index_is b (left + p + 1 - 2) QMARK))
        (fun closed : bool =>
           if closed then Return (Ok (left + p + 1)) else Continue (left + p + 1)).
Proof.
  intros Hl. unfold findTokenEnd_turn.
  rewrite sliceFrom_in_range by lia. cbn [tbind]. cbv zeta.
  destruct (IndexByte (skipn (Z.to_nat left) b) GT =? -1); [reflexivity |].
  change (0 + 1) with 1. rewrite Hq. cbn [tbind]. rewrite byte_eqb_refl.
  reflexivity.
Qed.

Lemma PI_reject (g : Z) :
  index b g = Ok GT -> (2 <= g -> patAt [QMARK; GT] b (Z.to_nat (g - 1)) = false) ->
  andr (g + 1 >=? 3) (index_is b (g + 1 - 2) QMARK) = Ok false.
Proof.
  intros Hg Hno. pose proof (index_Ok_lt b g GT Hg) as Hr.
  destruct (Z.geb_spec (g + 1) 3) as [Hge | Hlt]; cbn [andr]; [| reflexivity].
  replace (g + 1 - 2) with (g - 1) by lia.
  destruct (index_is_in_range b (g - 1) QMARK ltac:(lia)) as (x & Hx & Hix).
  rewrite Hix. f_equal. destruct (Byte.eqb x QMARK) eqn:E; [| reflexivity].
  apply byte_eqb_eq in E. subst x.
  rewrite <- (Hno ltac:(lia)). symmetry. apply patAt_2; [lia | exact Hx |].
  replace (g - 1 + 1) with g by lia. exact Hg.
Qed.

Lemma findTokenEnd_loop_PI (k : Z) (fuel : nat) :
  1 <= k -> patAt [QMARK; GT] b (Z.to_nat k) = true ->
  (forall k', 1 <= k' < k -> patAt [QMARK; GT] b (Z.to_nat k') = false) ->
  forall left, 1 <= left <= k + 1 -> k + 2 - left < Z.of_nat fuel ->
  findTokenEnd_loop fuel b 0 left = Ok (k + 2).
Proof.
  intros Hk Hat Hfirst.
  assert (Hk0 : index b k = Ok QMARK).
  { pose proof (patAt_index [QMARK; GT] b k 0 QMARK ltac:(lia) Hat eq_refl) as H.
    rewrite Z.add_0_r in H. exact H. }
  assert (Hk1 : index b (k + 1) = Ok GT)
    by exact (patAt_index [QMARK; GT] b k 1 GT ltac:(lia) Hat eq_refl).
  pose proof (index_Ok_lt b (k + 1) GT Hk1) as Hr.
  induction fuel as [| fuel IH]; intros left Hl Hfuel; [lia |].
  rewrite findTokenEnd_loop_turn, findTokenEnd_turn_PI by lia. cbv zeta.
  destruct (first_GT b left (k + 1) ltac:(lia) Hk1) as (p & Hp & Hp0 & Hle & Hg).
  rewrite Hp. replace (p =? -1) with false by (symmetry; apply Z.eqb_neq; lia).
  destruct (Z.eq_dec (left + p) (k + 1)) as [E | E].
  - replace (left + p + 1) with (k + 2) by lia.
    replace (k + 2 >=? 3) with true.
    2:{ symmetry. destruct (Z.geb_spec (k + 2) 3); [reflexivity | lia]. }
    cbn [andr]. replace (k + 2 - 2) with k by lia.
    unfold index_is. rewrite Hk0. cbn [bind tbind]. reflexivity.
  - assert (Hne : left + p <> k).
    { intros E2. rewrite E2, Hk0 in Hg. discriminate. }
    rewrite (PI_reject (left + p) Hg).
    2:{ intros H2. apply Hfirst. lia. }
    cbn [tbind]. apply IH; lia.
Qed.

Lemma findTokenEnd_loop_PI_open (fuel : nat) :
  (forall k', 1 <= k' -> patAt [QMARK; GT] b (Z.to_nat k') = false) ->
  forall left, 1 <= left <= len b -> len b - left < Z.of_nat fuel ->
  findTokenEnd_loop fuel b 0 left = Ok (-1).
Proof.
  intros Hnone.
  induction fuel as [| fuel IH]; intros left Hl Hfuel; [lia |].
  rewrite findTokenEnd_loop_turn, findTokenEnd_turn_PI by lia. cbv zeta.
  destruct (Z.eqb_spec (IndexByte (skipn (Z.to_nat left) b) GT) (-1)) as [E | E];
    [reflexivity |].
  destruct (GT_found b left ltac:(lia) E) as (Hp0 & Hlt & Hg).
  rewrite (PI_reject _ Hg).
  2:{ intros H2. apply Hnone. lia. }
  cbn [tbind]. apply IH; lia.
Qed.

End PI.

Lemma patAt_cons (pat : bytes) (c : byte) (s : bytes) (k : nat) :
  patAt pat (c :: s) (S k) = patAt pat s k.
Proof. reflexivity. Qed.

(** [findTokenEnd] on a processing instruction: the end is just past the
    first [?>] in what follows the [<], so that [<?>] is a complete
    instruction; with no [?>] it asks for more data. *)
Theorem findTokenEnd_PI (z : bytes) :
  (forall a rest,
     QMARK :: z = a ++ str "?>" ++ rest ->
     (forall x y, a ++ [QMARK] <> x ++ str "?>" ++ y) ->
     findTokenEnd (LT :: QMARK :: z) 0 = Ok (len a + 3)) /\
  ((forall x y, QMARK :: z <> x ++ str "?>" ++ y) ->
   findTokenEnd (LT :: QMARK :: z) 0 = Ok (-1)).
Proof.
  assert (Hq : index (LT :: QMARK :: z) 1 = Ok QMARK) by apply index_1.
  split.
  - intros a rest Hocc Hfirst.
    unfold findTokenEnd, findTokenEnd_fuel. change (0 + 1) with 1.
    pose proof (len_nonneg a) as Ha0.
    assert (Hlen : len (LT :: QMARK :: z) = 1 + (len a + 2 + len rest)).
    { rewrite len_cons, Hocc, !len_app. change (len (str "?>")) with 2. lia. }
    replace (len a + 3) with (1 + len a + 2) by lia.
    apply (findTokenEnd_loop_PI _ Hq (1 + len a)).
    + lia.
    + replace (Z.to_nat (1 + len a)) with (S (List.length a)) by (unfold len; lia).
      rewrite patAt_cons, Hocc. apply patAt_here.
    + intros k' Hk'.
      replace (Z.to_nat k') with (S (Z.to_nat (k' - 1))) by lia.
      rewrite patAt_cons, Hocc.
      apply (patAt_first (str "?>") a rest); [exact Hfirst | unfold len in Hk'; lia].
    + lia.
    + pose proof (len_nonneg rest). unfold len in *. lia.
  - intros Hnone.
    unfold findTokenEnd, findTokenEnd_fuel. change (0 + 1) with 1.
    apply (findTokenEnd_loop_PI_open _ Hq).
    + intros k' Hk'.
      replace (Z.to_nat k') with (S (Z.to_nat (k' - 1))) by lia.
      rewrite patAt_cons. apply patAt_none. exact Hnone.
    + rewrite !len_cons. pose proof (len_nonneg z). lia.
    + unfold len. lia.
Qed.

(** *** Comments *)

Section Comment.

Variable b : bytes.
Hypothesis H1 : index b 1 = Ok BANG.
Hypothesis H2 : index b 2 = Ok DASH.
Hypothesis H3 : index b 3 = Ok DASH.

Lemma findTokenEnd_turn_comment (left : Z) :
  1 <= left <= len b -> 4 < len b ->
  findTokenEnd_turn b 0 left
  = let p := IndexByte (skipn (Z.to_nat left) b) GT in
    if p =? -1 then Return (Ok (-1))
    else
      tbind (andr (left + p + 1 >=? 6)
               (do d1 <- index_is b (left + p + 1 - 3) DASH;
                andr d1 (index_is b (left + p + 1 - 2) DASH)))
        (fun closed : bool =>
           if closed then Return (Ok (left + p + 1)) else Continue (left + p + 1)).
Proof.
  intros Hl Hlen. unfold findTokenEnd_turn.
  rewrite sliceFrom_in_range by lia. cbn [tbind]. cbv zeta.
  destruct (IndexByte (skipn (Z.to_nat left) b) GT =? -1); [reflexivity |].
  change (0 + 1) with 1. change (0 + 2) with 2. change (0 + 3) with 3.
  change (0 + 4) with 4. change (0 + 6) with 6.
  rewrite H1. cbn [tbind].
  change (Byte.eqb BANG QMARK) with false. rewrite byte_eqb_refl. cbv iota.
  replace (len b >? 4) with true.
  2:{ symmetry. destruct (Z.gtb_spec (len b) 4); [reflexivity | lia]. }
  unfold index_is at 1 2. rewrite H2, H3. cbn [bind andr tbind]. rewrite byte_eqb_refl.
  cbn [andr tbind]. reflexivity.
Qed.

Lemma comment_reject (g : Z) :
  index b g = Ok GT ->
  (5 <= g -> patAt [DASH; DASH; GT] b (Z.to_nat (g - 2)) = false) ->
  andr (g + 1 >=? 6)
    (do d1 <- index_is b (g + 1 - 3) DASH; andr d1 (index_is b (g + 1 - 2) DASH))
  = Ok false.
Proof.
  intros Hg Hno. pose proof (index_Ok_lt b g GT Hg) as Hr.
  destruct (Z.geb_spec (g + 1) 6) as [Hge | Hlt]; cbn [andr]; [| reflexivity].
  replace (g + 1 - 3) with (g - 2) by lia. replace (g + 1 - 2) with (g - 1) by lia.
  destruct (index_is_in_range b (g - 2) DASH ltac:(lia)) as (x & Hx & Hix).
  destruct (index_is_in_range b (g - 1) DASH ltac:(lia)) as (y & Hy & Hiy).
  rewrite Hix. cbn [bind]. destruct (Byte.eqb x DASH) eqn:Ex; cbn [andr]; [| reflexivity].
  rewrite Hiy. f_equal. destruct (Byte.eqb y DASH) eqn:Ey; [| reflexivity].
  apply byte_eqb_eq in Ex, Ey. subst x y.
  rewrite <- (Hno ltac:(lia)). symmetry. apply patAt_3; [lia | exact Hx | |].
  - replace (g - 2 + 1) with (g - 1) by lia. exact Hy.
  - replace (g - 2 + 2) with g by lia. exact Hg.
Qed.

Lemma findTokenEnd_loop_comment (k : Z) (fuel : nat) :
  3 <= k -> patAt [DASH; DASH; GT] b (Z.to_nat k) = true ->
  (forall k', 3 <= k' < k -> patAt [DASH; DASH; GT] b (Z.to_nat k') = false) ->
  forall left, 1 <= left <= k + 2 -> k + 3 - left < Z.of_nat fuel ->
  findTokenEnd_loop fuel b 0 left = Ok (k + 3).
Proof.
  intros Hk Hat Hfirst.
  assert (Hk0 : index b k = Ok DASH).
  { pose proof (patAt_index [DASH; DASH; GT] b k 0 DASH ltac:(lia) Hat eq_refl) as H.
    rewrite Z.add_0_r in H. exact H. }
  assert (Hk1 : index b (k + 1) = Ok DASH)
    by exact (patAt_index [DASH; DASH; GT] b k 1 DASH ltac:(lia) Hat eq_refl).
  assert (Hk2 : index b (k + 2) = Ok GT)
    by exact (patAt_index [DASH; DASH; GT] b k 2 GT ltac:(lia) Hat eq_refl).
  pose proof (index_Ok_lt b (k + 2) GT Hk2) as Hr.
  induction fuel as [| fuel IH]; intros left Hl Hfuel; [lia |].
  rewrite findTokenEnd_loop_turn, findTokenEnd_turn_comment by lia. cbv zeta.
  destruct (first_GT b left (k + 2) ltac:(lia) Hk2) as (p & Hp & Hp0 & Hle & Hg).
  rewrite Hp. replace (p =? -1) with false by (symmetry; apply Z.eqb_neq; lia).
  destruct (Z.eq_dec (left + p) (k + 2)) as [E | E].
  - replace (left + p + 1) with (k + 3) by lia.
    replace (k + 3 >=? 6) with true.
    2:{ symmetry. destruct (Z.geb_spec (k + 3) 6); [reflexivity | lia]. }
    cbn [andr]. replace (k + 3 - 3) with k by lia. replace (k + 3 - 2) with (k + 1) by lia.
    unfold index_is. rewrite Hk0, Hk1. cbn [bind andr tbind]. reflexivity.
  - assert (Hne1 : left + p <> k).
    { intros E2. rewrite E2, Hk0 in Hg. discriminate. }
    assert (Hne2 : left + p <> k + 1).
    { intros E2. rewrite E2, Hk1 in Hg. discriminate. }
    rewrite (comment_reject (left + p) Hg).
    2:{ intros H5. apply Hfirst. lia. }
    cbn [tbind]. apply IH; lia.
Qed.

Lemma findTokenEnd_loop_comment_open (fuel : nat) :
  (forall k', 3 <= k' -> patAt [DASH; DASH; GT] b (Z.to_nat k') = false) ->
  forall left, 1 <= left <= len b -> len b - left < Z.of_nat fuel ->
  findTokenEnd_loop fuel b 0 left = Ok (-1).
Proof.
  intros Hnone.
  induction fuel as [| fuel IH]; intros left Hl Hfuel; [lia |].
  rewrite findTokenEnd_loop_turn.
  destruct (Z.eq_dec (IndexByte (skipn (Z.to_nat left) b) GT) (-1)) as [E | E].
  - unfold findTokenEnd_turn. rewrite sliceFrom_in_range by lia. cbn [tbind].
    rewrite E. reflexivity.
  - destruct (GT_found b left ltac:(lia) E) as (Hp0 & Hlt & Hg).
    assert (Hlen : 4 < len b).
    { destruct (Z.lt_ge_cases 4 (len b)) as [H | H]; [exact H |]. exfalso.
      set (g := left + IndexByte (skipn (Z.to_nat left) b) GT) in *.
      assert (g = 1 \/ g = 2 \/ g = 3) as [Eg | [Eg | Eg]] by lia;
        rewrite Eg in Hg; [rewrite H1 in Hg | rewrite H2 in Hg | rewrite H3 in Hg];
        discriminate. }
    rewrite findTokenEnd_turn_comment by lia. cbv zeta.
    replace (IndexByte (skipn (Z.to_nat left) b) GT =? -1) with false
      by (symmetry; apply Z.eqb_neq; exact E).
    rewrite (comment_reject _ Hg).
    2:{ intros H5. apply Hnone. lia. }
    cbn [tbind]. apply IH; lia.
Qed.

End Comment.

Lemma patAt_skip3 (pat : bytes) (c1 c2 c3 : byte) (s : bytes) (k : nat) :
  patAt pat (c1 :: c2 :: c3 :: s) (3 + k) = patAt pat s k.
Proof. reflexivity. Qed.

(** [findTokenEnd] on a comment: the end is just past the first [-->] that
    starts at or after the second dash of [<!--], so that [<!--->] is a
    complete comment; with no such [-->] it asks for more data. *)
Theorem findTokenEnd_comment (z : bytes) :
  (forall a rest,
     DASH :: z = a ++ str "-->" ++ rest ->
     (forall x y, a ++ [DASH; DASH] <> x ++ str "-->" ++ y) ->
     findTokenEnd (LT :: BANG :: DASH :: DASH :: z) 0 = Ok (len a + 6)) /\
  ((forall x y, DASH :: z <> x ++ str "-->" ++ y) ->
   findTokenEnd (LT :: BANG :: DASH :: DASH :: z) 0 = Ok (-1)).
Proof.
  set (b := LT :: BANG :: DASH :: DASH :: z).
  assert (Hb1 : index b 1 = Ok BANG) by apply index_1.
  assert (Hb2 : index b 2 = Ok DASH) by exact (index_at_len [LT; BANG] (DASH :: z) DASH).
  assert (Hb3 : index b 3 = Ok DASH) by exact (index_at_len [LT; BANG; DASH] z DASH).
  assert (Hlenb : len b = 4 + len z) by (unfold b; rewrite !len_cons; lia).
  pose proof (len_nonneg z) as Hz0.
  split.
  - intros a rest Hocc Hfirst.
    unfold findTokenEnd, findTokenEnd_fuel. change (0 + 1) with 1.
    pose proof (len_nonneg a) as Ha0. pose proof (len_nonneg rest) as Hr0.
    assert (Hlen : 1 + len z = len a + 3 + len rest).
    { rewrite <- (len_cons DASH z), Hocc, !len_app. change (len (str "-->")) with 3. lia. }
    replace (len a + 6) with (3 + len a + 3) by lia.
    apply (findTokenEnd_loop_comment b Hb1 Hb2 Hb3 (3 + len a)).
    + lia.
    + replace (Z.to_nat (3 + len a)) with (3 + List.length a)%nat by (unfold len; lia).
      unfold b. rewrite patAt_skip3, Hocc. apply patAt_here.
    + intros k' Hk'.
      replace (Z.to_nat k') with (3 + Z.to_nat (k' - 3))%nat by lia.
      unfold b. rewrite patAt_skip3, Hocc.
      apply (patAt_first (str "-->") a rest); [exact Hfirst | unfold len in Hk'; lia].
    + lia.
    + unfold len in *. lia.
  - intros Hnone.
    unfold findTokenEnd, findTokenEnd_fuel. change (0 + 1) with 1.
    apply (findTokenEnd_loop_comment_open b Hb1 Hb2 Hb3).
    + intros k' Hk'.
      replace (Z.to_nat k') with (3 + Z.to_nat (k' - 3))%nat by lia.
      unfold b. rewrite patAt_skip3. apply patAt_none. exact Hnone.
    + lia.
    + unfold len. lia.
Qed.

(** ** Panics of [findTokenEnd] and what they do to [RawToken] *)

Lemma findTokenEnd_buffered_res (b ext s : bytes) (pivot : Z) (x : res Z) :
  0 <= pivot < len b -> skipn (Z.to_nat pivot) b ++ ext = s ->
  findTokenEnd s 0 = x -> x <> Ok (-1) ->
  (findTokenEnd b pivot = Ok (-1) /\ ext <> []) \/
  findTokenEnd b pivot = shift_res pivot x.
Proof.
  intros Hp Hs He Hne.
  destruct (firstn_skipn_split b pivot ltac:(lia)) as (Eb & Elen).
  set (bs := skipn (Z.to_nat pivot) b) in *.
  assert (Hbs : len bs = len b - pivot) by (apply len_skipn; lia).
  assert (Hshift : findTokenEnd b pivot = shift_res pivot (findTokenEnd bs 0)).
  { pose proof (findTokenEnd_shift (firstn (Z.to_nat pivot) b) bs 0 ltac:(lia)) as H.
    rewrite <- Eb, Elen, Z.add_0_r in H. exact H. }
  rewrite Hshift.
  destruct (res_eq_dec_m1 (findTokenEnd bs 0)) as [E | E].
  - left. rewrite E. split; [reflexivity |].
    intros ->. rewrite app_nil_r in Hs. rewrite Hs, He in E. contradiction.
  - right. pose proof (findTokenEnd_extend bs ext 0 ltac:(lia) E) as Hext.
    rewrite Hs, He in Hext. rewrite <- Hext. reflexivity.
Qed.

(** The second loop of [RawToken] on a token on which [findTokenEnd]
    panics: it refills the buffer until the scan reaches the panic. *)
Lemma RawToken_close_panic (fuel : nat) :
  forall (t : Tokenizer) (pivot : Z) (s : bytes),
  0 <= cur t <= pivot -> pivot < len (buf t) -> room t pivot ->
  (List.length (rdata (r t)) < fuel)%nat ->
  from t pivot = s -> findTokenEnd s 0 = Panic ->
  RawToken_close fuel t pivot = Panic.
Proof.
  induction fuel as [| fuel IH]; intros t pivot s Hc Hp Hroom Hfuel Hs He; [lia |].
  cbn [RawToken_close].
  destruct (findTokenEnd_buffered_res (buf t) (rdata (r t)) s pivot Panic
              ltac:(lia) Hs He ltac:(discriminate))
    as [(Hf & Hext) | Hf]; rewrite Hf; [| reflexivity].
  cbn [bind]. change (-1 =? -1) with true. cbv iota.
  destruct (shift_refill t pivot) as (t1 & Hm & _ & Hcases); [lia | lia | exact Hroom |].
  rewrite Hm. cbn [bind].
  destruct Hcases as [(Hrd & _)
                     | (Hrd & t2 & Hrf & Hlen2 & Hfrom & Hc2 & Hroom2 & _ & _ & Hless & _)];
    [contradiction |].
  rewrite Hrf. cbn [bind].
  apply (IH t2 0 s); try assumption; try lia.
  rewrite Hfrom. exact Hs.
Qed.

(** A panic of [findTokenEnd] on the next token of the input is a panic of
    [RawToken] and of [Token], whatever the read size and however the input
    falls into reads: the tokenizer returns no error for such an input. *)
Theorem RawToken_panics (t : Tokenizer) (pre rest : bytes)
  (Hready : ready t) (Hpend : pending t = pre ++ LT :: rest)
  (Hpre : ~ In LT pre) (Hpanic : findTokenEnd (LT :: rest) 0 = Panic) :
  RawToken t = Panic /\ Token_ t = Panic.
Proof.
  destruct Hready as (He & Hc & Hroom).
  assert (H : RawToken t = Panic).
  { unfold RawToken. rewrite He.
    destruct (RawToken_open_tag (scan_fuel t) t pre rest Hc Hroom)
      as (t1 & H1 & H2 & H3 & H4 & H5 & H6 & H7);
      [unfold scan_fuel; lia | exact Hpend | exact Hpre |].
    rewrite H1. cbn [bind].
    pose proof (len_nonneg pre) as Hpre0.
    apply (RawToken_close_panic (scan_fuel t1) t1 (cur t1 + len pre) (LT :: rest)).
    - lia.
    - exact H3.
    - destruct H5 as (R1 & R2). split; [exact R1 | lia].
    - unfold scan_fuel. lia.
    - rewrite from_split by lia. fold (pending t1). rewrite H4, Hpend.
      apply skipn_len_app.
    - exact Hpanic. }
  split; [exact H |].
  unfold Token_. rewrite He, H. reflexivity.
Qed.

(** The declaration of an entity whose quoted value holds a [>]. *)
Definition entityGT : bytes :=
  str "<!ENTITY gt " ++ [QUOTE] ++ str "a>b" ++ [QUOTE] ++ str "><x/>".

Lemma RawToken_panics_witness :
  let t := freshTokenizer entityGT [WithReadBufferSize 2] in
  RawToken t = Panic /\ Token_ t = Panic.
Proof.
  intros t.
  assert (Hready : ready t).
  { unfold ready, room. vm_compute.
    repeat split; try reflexivity; intros E; discriminate E. }
  assert (Hpend : pending t = zeros 2 ++ LT :: skipn 1 entityGT) by reflexivity.
  assert (Hpre : ~ In LT (zeros 2)) by (apply IndexByte_none; reflexivity).
  assert (Hpanic : findTokenEnd (LT :: skipn 1 entityGT) 0 = Panic) by reflexivity.
  exact (RawToken_panics t _ _ Hready Hpend Hpre Hpanic).
Defined.


(** Bytes that hold no [<], [>] or double quote. *)
Definition plain (l : bytes) : Prop := ~ In LT l /\ ~ In GT l /\ ~ In QUOTE l.

Lemma plain_app (a b : bytes) : plain a -> plain b -> plain (a ++ b).
Proof.
  intros (A1 & A2 & A3) (B1 & B2 & B3).
  repeat split; intros H; apply in_app_or in H; tauto.
Qed.



(** ** A tokenizer made by [New] *)

Lemma zeros_no_LT (k : Z) : ~ In LT (zeros k).
Proof.
  unfold zeros. intros H. apply repeat_spec in H. discriminate.
Qed.

(** [New] with options of the package, on an input that fits under the
    ceiling with two reads to spare, gives a tokenizer that is ready to be
    called: what it is about to tokenize is the initial buffer, which is as
    many zero bytes as the read size, followed by the input.  The zero
    bytes hold no [<]: they are dropped with whatever precedes the first
    token. *)
Theorem New_ready (input : bytes) (final : error) (os : list Option)
  (Hos : Forall configured os)
  (Hfit : len input + 2 * readBufferSize (resetOptions os)
          <= opt_autoGrowBufferMaxLimitSize (resetOptions os)) :
  exists t,
    New {| rdata := input; rfinal := final |} os = Ok t /\
    ready t /\ n t = 0 /\ opts t = resetOptions os /\
    pending t = zeros (readBufferSize (resetOptions os)) ++ input /\
    ~ In LT (zeros (readBufferSize (resetOptions os))).
Proof.
  destruct (resetOptions_positive os Hos) as (Hr & _ & _).
  set (o := resetOptions os) in *.
  unfold New, Reset. fold o.
  replace (cap zeroTokenizer >=? readBufferSize o + defaultReadBufferSize) with false.
  2:{ symmetry. destruct (Z.geb_spec (cap zeroTokenizer)
                            (readBufferSize o + defaultReadBufferSize)); [| reflexivity].
      change (cap zeroTokenizer) with 0 in *.
      change defaultReadBufferSize with 4096 in *. lia. }
  replace (0 <=? readBufferSize o) with true by (symmetry; apply Z.leb_le; lia).
  eexists. split; [reflexivity |].
  unfold ready, room, pending, from. cbn [err cur buf r n opts rdata].
  rewrite len_zeros by lia.
  split; [| split; [reflexivity | split; [reflexivity | split; [reflexivity |]]]].
  - split; [reflexivity |]. split; [lia |]. split; lia.
  - apply zeros_no_LT.
Qed.

Lemma New_ready_witness :
  exists t,
    New {| rdata := str "<a>hi</a>"; rfinal := EOF |} [WithReadBufferSize 2] = Ok t /\
    ready t /\ n t = 0 /\ opts t = resetOptions [WithReadBufferSize 2] /\
    pending t = zeros (readBufferSize (resetOptions [WithReadBufferSize 2])) ++ str "<a>hi</a>" /\
    ~ In LT (zeros (readBufferSize (resetOptions [WithReadBufferSize 2]))).
Proof.
  assert (Hos : Forall configured [WithReadBufferSize 2]) by (repeat constructor).
  assert (Hfit : len (str "<a>hi</a>") + 2 * readBufferSize (resetOptions [WithReadBufferSize 2])
                 <= opt_autoGrowBufferMaxLimitSize (resetOptions [WithReadBufferSize 2]))
    by (vm_compute; intros E; discriminate E).
  exact (New_ready (str "<a>hi</a>") EOF [WithReadBufferSize 2] Hos Hfit).
Defined.
